(** * Thumbnailer: the gallery front end

    A shallow embedding of the JavaScript sources of the thumbnailer
    front end (src/utils/gallery.js, src/hooks/useThumbnailSize.js,
    src/hooks/useGallery.js, src/hooks/usePreview.js,
    src/components/GalleryGrid.jsx and the monolithic src/App.jsx) together
    with the properties of the thumbnail pipeline that the design document
    states about them.

    The values that reach this code come from the backend as JSON.  A
    conversion of such a value to a string or a Number can throw (an object
    with a [toString] property of its own has no primitive value); the
    embedding follows each conversion of the sources to where its error
    goes.

    JavaScript is single threaded: the code between two [await]s runs
    atomically.  An [async] function is therefore embedded as one Rocq
    function per synchronous segment (the call up to the first [await], and
    the continuation after each settled promise), and the interleavings of
    the event loop are the orders in which these segments are applied to the
    shared state. *)

From Stdlib Require Import QArith Qround.
From stdpp Require Import gmap strings list sorting pretty.

Local Open Scope string_scope.
#[local] Set Warnings "-register-all".
#[local] Set Default Proof Using "Type".

(** ** JavaScript values *)

Module JS.

(** A Number: a finite value (every double is a rational), NaN, or an
    infinity.  The sign of zero is not observable in this program. *)
Inductive number : Type :=
| Fin (q : Q)
| NaN
| PosInf
| NegInf.

(** The values that cross the Tauri bridge are deserialised JSON, plus
    [undefined] for absent properties. *)
Inductive value : Type :=
| Undefined
| Null
| Bool (b : bool)
| Num (n : number)
| Str (s : string)
| Arr (elems : list value)
| Obj (fields : list (string * value)).

(** Abrupt completion of an expression: the thrown value. *)
Inductive completion (A : Type) : Type :=
| Normal (a : A)
| Throw (e : value).
Arguments Normal {A} a.
Arguments Throw {A} e.

Definition bind {A B} (c : completion A) (k : A -> completion B) : completion B :=
  match c with
  | Normal a => k a
  | Throw e => Throw e
  end.

(** The conversions between Numbers and strings (Number::toString and
    StringToNumber of ECMAScript) are an interface of the run time. *)
Class NumberConv : Type := {
  number_to_string : number -> string;
  string_to_number : string -> number
}.

Definition of_nat (n : nat) : number := Fin (inject_Z (Z.of_nat n)).

Definition Number_isFinite (n : number) : bool :=
  match n with
  | Fin _ => true
  | _ => false
  end.

(** [a <= b] on Numbers; false as soon as one side is NaN. *)
Definition num_leb (a b : number) : bool :=
  match a, b with
  | NaN, _ | _, NaN => false
  | NegInf, _ => true
  | _, PosInf => true
  | Fin p, Fin q => Qle_bool p q
  | _, _ => false
  end.

(** [a === b] on Numbers. *)
Definition num_eqb (a b : number) : bool :=
  match a, b with
  | Fin p, Fin q => Qeq_bool p q
  | PosInf, PosInf | NegInf, NegInf => true
  | _, _ => false
  end.

Definition Math_min (a b : number) : number :=
  match a, b with
  | NaN, _ | _, NaN => NaN
  | _, _ => if num_leb b a then b else a
  end.

Definition Math_max (a b : number) : number :=
  match a, b with
  | NaN, _ | _, NaN => NaN
  | _, _ => if num_leb a b then b else a
  end.

Definition Math_floor (n : number) : number :=
  match n with
  | Fin q => Fin (inject_Z (Qfloor q))
  | _ => n
  end.

(** The closest integer, ties towards +Infinity. *)
Definition Math_round (n : number) : number :=
  match n with
  | Fin q => Fin (inject_Z (Qfloor (q + (1 # 2))%Q))
  | _ => n
  end.

Definition Array_isArray (v : value) : bool :=
  match v with
  | Arr _ => true
  | _ => false
  end.

(** The elements of an array (of a value that passed [Array.isArray]). *)
Definition Array_elems (v : value) : list value :=
  match v with
  | Arr elems => elems
  | _ => []
  end.

(** [typeof v === 'object'] *)
Definition typeof_object (v : value) : bool :=
  match v with
  | Null | Arr _ | Obj _ => true
  | _ => false
  end.

Definition ToBoolean (v : value) : bool :=
  match v with
  | Undefined | Null => false
  | Bool b => b
  | Num n => negb (num_eqb n (Fin 0%Q)) && negb (match n with NaN => true | _ => false end)
  | Str s => negb (String.eqb s "")
  | Arr _ | Obj _ => true
  end.

(** The fields of an object literal, in the order they were written; a
    name is bound once. *)
Fixpoint lookup_field (name : string) (fields : list (string * value)) : option value :=
  match fields with
  | [] => None
  | (k, v) :: rest => if String.eqb k name then Some v else lookup_field name rest
  end.

(** The TypeError that the run time throws: at a property read from [null]
    or [undefined], and at the conversion of an object that has no
    primitive value.  The value stands for the error object; its message,
    which differs from engine to engine, is left out. *)
Definition TypeError : value := Str "TypeError".

(** [v.name].  The names this program reads (items, thumbnails, cancelled,
    paths, path) are neither indices, [length], nor members of a
    prototype, so only a plain object can have them; reading from
    [null] or [undefined] throws. *)
Definition get (v : value) (name : string) : completion value :=
  match v with
  | Undefined | Null => Throw TypeError
  | Obj fields => Normal (default Undefined (lookup_field name fields))
  | _ => Normal Undefined
  end.

(** [v?.name] *)
Definition get_opt (v : value) (name : string) : value :=
  match get v name with
  | Normal x => x
  | Throw _ => Undefined
  end.

Section Conversions.
Context `{NumberConv}.

(** Whether the conversion of [v] to a primitive value completes.  An
    object of JSON inherits a callable [toString] from [Object.prototype]
    unless a property of its own hides it: a property of JSON is never
    callable, the inherited [valueOf] returns the object itself, and the
    conversion throws a TypeError.  An array is converted by joining its
    elements, each of which is converted in turn. *)
Fixpoint convertible (v : value) : bool :=
  match v with
  | Arr elems => forallb convertible elems
  | Obj fields =>
      match lookup_field "toString" fields with
      | Some _ => false
      | None => true
      end
  | _ => true
  end.

(** The string that the conversion of [v] gives where it completes (see
    [String_]); an array is joined with commas, its [null] and [undefined]
    elements rendered empty. *)
Fixpoint ToString (v : value) : string :=
  match v with
  | Undefined => "undefined"
  | Null => "null"
  | Bool true => "true"
  | Bool false => "false"
  | Num n => number_to_string n
  | Str s => s
  | Arr elems =>
      String.concat ","
        (map (fun e => match e with
                       | Undefined | Null => ""
                       | _ => ToString e
                       end) elems)
  | Obj _ => "[object Object]"
  end.

(** [String(v)], and [v] in a template literal. *)
Definition String_ (v : value) : completion string :=
  if convertible v then Normal (ToString v) else Throw TypeError.

(** The Number that the conversion of [v] gives where it completes (see
    [Number_]). *)
Definition ToNumber (v : value) : number :=
  match v with
  | Undefined => NaN
  | Null => Fin 0%Q
  | Bool true => Fin 1%Q
  | Bool false => Fin 0%Q
  | Num n => n
  | Str s => string_to_number s
  | Arr _ => string_to_number (ToString v)
  | Obj _ => NaN
  end.

(** [Number(v)] *)
Definition Number_ (v : value) : completion number :=
  if convertible v then Normal (ToNumber v) else Throw TypeError.
End Conversions.

End JS.

Import JS.

(** ** src/constants/thumbnail.js *)

Module Constants.
(** Modelled from the spec: src/constants/thumbnail.js is imported by
    utils/gallery.js and the hooks but is not among the sources.  The lower
    bound is the one the design states and App.jsx declares inline as
    [MIN_THUMBNAIL_SIZE]. *)
Definition MIN_THUMBNAIL_SIZE : number := Fin 100%Q.

(** Modelled from the spec: the upper bound the design states and App.jsx
    declares inline as [MAX_THUMBNAIL_SIZE]. *)
Definition MAX_THUMBNAIL_SIZE : number := Fin 320%Q.

(** Modelled from the spec: the initial size, which App.jsx writes as the
    literal 200 where the hook reads this constant. *)
Definition DEFAULT_THUMBNAIL_SIZE : number := Fin 200%Q.
End Constants.

Import Constants.

(** ** src/utils/gallery.js *)

Module Gallery.
Section Gallery.
Context `{NumberConv}.

Definition clampThumbnailSize (value : number) : number :=
  Math_max MIN_THUMBNAIL_SIZE (Math_min MAX_THUMBNAIL_SIZE value).

Definition formatImageCount (count : number) : string :=
  let safeCount :=
    if Number_isFinite count then Math_max (Fin 0%Q) (Math_floor count) else Fin 0%Q in
  number_to_string safeCount ++ " image" ++
    (if num_eqb safeCount (Fin 1%Q) then "" else "s").

(** [entries.map((entry) => String(entry))]: the entries are converted in
    their order, and the first conversion that throws ends the call. *)
Fixpoint map_String (entries : list value) : completion (list string) :=
  match entries with
  | [] => Normal []
  | entry :: rest =>
      bind (String_ entry) (fun s =>
        bind (map_String rest) (fun ss => Normal (s :: ss)))
  end.

Definition getDroppedPaths (payload : value) : completion (list string) :=
  if Array_isArray payload then
    map_String (Array_elems payload)
  else if negb (ToBoolean payload) || negb (typeof_object payload) then
    Normal []
  else
    bind (get payload "paths") (fun paths =>
      if Array_isArray paths then
        map_String (Array_elems paths)
      else
        Normal []).

(** The inclusive range of admissible thumbnail sizes. *)
Definition in_range (v : number) : bool :=
  num_leb MIN_THUMBNAIL_SIZE v && num_leb v MAX_THUMBNAIL_SIZE.
End Gallery.
End Gallery.

Import Gallery.

(** ** src/hooks/useThumbnailSize.js (and the same state in App.jsx) *)

Module ThumbnailSize.
Section ThumbnailSize.
Context `{NumberConv}.

(** The state of the hook and the one localStorage entry it owns. *)
Record hook : Type := Hook {
  thumbnailSize : number;
  stored : value  (* localStorage.getItem(KEY): a string, or null *)
}.

(** The [useState] initialiser; [window_defined] is
    [typeof window !== 'undefined'], and [item] is what [getItem] has
    returned: a string or [null], which [Number] converts without
    throwing. *)
Definition initialSize (window_defined : bool) (item : value) : number :=
  if negb window_defined then DEFAULT_THUMBNAIL_SIZE
  else
    let storedValue := ToNumber item in
    if negb (Number_isFinite storedValue) then DEFAULT_THUMBNAIL_SIZE
    else clampThumbnailSize (Math_round storedValue).

(** The effect that follows every change of [thumbnailSize]. *)
Definition persist (size : number) : hook :=
  Hook size (Str (ToString (Num size))).

Definition mount (item : value) : hook :=
  persist (initialSize true item).

(** The exported setter: [setThumbnailSize(clampThumbnailSize(Number(value)))].
    When [Number(value)] throws, the setter of React is not reached. *)
Definition setThumbnailSize (value : value) (h : hook) : hook :=
  match Number_ value with
  | Normal n => persist (clampThumbnailSize n)
  | Throw _ => h
  end.

(** The hook after the slider (or any caller) has passed [values] in turn. *)
Definition after (item : value) (values : list value) : hook :=
  fold_left (fun h v => setThumbnailSize v h) values (mount item).

(** The size is admissible and localStorage holds its rendering. *)
Definition persisted (h : hook) : Prop :=
  in_range (thumbnailSize h) = true /\
  stored h = Str (number_to_string (thumbnailSize h)).
End ThumbnailSize.
End ThumbnailSize.

(** ** Settled promises *)

(** How a pending [invoke] settles: with the value of the backend, or with
    the error the backend returned. *)
Inductive settled : Type :=
| Resolved (v : value)
| Rejected (e : value).

(** ** src/hooks/useGallery.js: the run-token version of [loadGallery] *)

Module UseGallery.
Section UseGallery.
Context `{NumberConv}.

(** The React state of the hook and its [loadRunIdRef].  The ref counts
    calls: a Number that holds a natural number, on which [+ 1] is exact
    (below 2^53). *)
Record state : Type := State {
  items : list value;
  status : string;
  loading : bool;
  loadingText : string;
  error : string;
  thumbnailDataByPath : value;
  loadRunIdRef : nat
}.

Definition setItems (v : list value) (st : state) : state :=
  State v (status st) (loading st) (loadingText st) (error st)
        (thumbnailDataByPath st) (loadRunIdRef st).
Definition setStatus (v : string) (st : state) : state :=
  State (items st) v (loading st) (loadingText st) (error st)
        (thumbnailDataByPath st) (loadRunIdRef st).
Definition setLoading (v : bool) (st : state) : state :=
  State (items st) (status st) v (loadingText st) (error st)
        (thumbnailDataByPath st) (loadRunIdRef st).
Definition setLoadingText (v : string) (st : state) : state :=
  State (items st) (status st) (loading st) v (error st)
        (thumbnailDataByPath st) (loadRunIdRef st).
Definition setError (v : string) (st : state) : state :=
  State (items st) (status st) (loading st) (loadingText st) v
        (thumbnailDataByPath st) (loadRunIdRef st).
Definition setThumbnailDataByPath (v : value) (st : state) : state :=
  State (items st) (status st) (loading st) (loadingText st) (error st)
        v (loadRunIdRef st).
Definition setLoadRunId (v : nat) (st : state) : state :=
  State (items st) (status st) (loading st) (loadingText st) (error st)
        (thumbnailDataByPath st) v.

(** The hook as [useState]/[useRef] initialise it. *)
Definition initial : state :=
  State [] "" false "Loading images..." "" (Obj []) 0.

(** [loadGallery(folder)] up to its [await]: the new state and, when the
    backend was invoked, the run id the continuation has captured.
    [tauri] is the result of [hasTauriInvoke()].  The template literal of
    the status converts [folder] to a string, before the [try]: when that
    throws, the call ends there, with the run id taken and the hook
    loading, and nothing is invoked. *)
Definition loadGallery_call (tauri : bool) (folder : value) (st : state)
  : state * option nat :=
  if negb tauri then
    (setError "Tauri API unavailable. Start with `npm run tauri dev`." st, None)
  else
    let runId := loadRunIdRef st + 1 in
    let st := setLoadRunId runId st in
    let st := setLoading true st in
    let st := setLoadingText "Preparing thumbnails..." st in
    let st := setError "" st in
    let st := setThumbnailDataByPath (Obj []) st in
    match String_ folder with
    | Normal folder_string =>
        let st := setStatus ("Scanning " ++ folder_string ++ "...") st in
        (st, Some runId)
    | Throw _ => (st, None)
    end.

(** The error with which the promise of that call is rejected before any
    [await], if it is. *)
Definition loadGallery_call_rejected (tauri : bool) (folder : value) : option value :=
  if negb tauri then None
  else
    match String_ folder with
    | Normal _ => None
    | Throw e => Some e
    end.

(** The [finally] block. *)
Definition loadGallery_finally (runId : nat) (st : state) : state :=
  if (runId =? loadRunIdRef st)%nat then
    setLoadingText "Loading images..." (setLoading false st)
  else st.

(** [loadGallery] after its [await]: the body of [try] when the
    invocation resolved, the [catch] block when it rejected, and the
    [finally] block after either.  When [String(invokeError)] throws in the
    [catch] block, [setError] is not reached; the [finally] block runs all
    the same. *)
Definition loadGallery_settled (runId : nat) (r : settled) (st : state) : state :=
  match r with
  | Resolved response =>
      if negb (runId =? loadRunIdRef st)%nat then loadGallery_finally runId st
      else
        let galleryItems :=
          if Array_isArray (get_opt response "items")
          then Array_elems (get_opt response "items") else [] in
        let thumbnails :=
          if ToBoolean (get_opt response "thumbnails")
             && typeof_object (get_opt response "thumbnails")
          then get_opt response "thumbnails" else Obj [] in
        let st := setItems galleryItems st in
        let st := setThumbnailDataByPath thumbnails st in
        let st :=
          if ToBoolean (get_opt response "cancelled") then
            setStatus ("Stopped. Loaded "
                       ++ formatImageCount (of_nat (length galleryItems))
                       ++ " before cancel.") st
          else
            setStatus ("Loaded "
                       ++ formatImageCount (of_nat (length galleryItems))
                       ++ ".") st in
        loadGallery_finally runId st
  | Rejected invokeError =>
      if negb (runId =? loadRunIdRef st)%nat then loadGallery_finally runId st
      else
        let st := setItems [] st in
        let st := setThumbnailDataByPath (Obj []) st in
        let st := setStatus "Failed to load folder." st in
        match String_ invokeError with
        | Normal invokeError_string =>
            let st := setError invokeError_string st in
            loadGallery_finally runId st
        | Throw _ => loadGallery_finally runId st
        end
  end.

(** The error with which the promise of [loadGallery] is rejected after
    its [await], if it is: the one thrown in the [catch] block. *)
Definition loadGallery_rejected (runId : nat) (r : settled) (st : state) : option value :=
  match r with
  | Resolved _ => None
  | Rejected invokeError =>
      if negb (runId =? loadRunIdRef st)%nat then None
      else
        match String_ invokeError with
        | Normal _ => None
        | Throw e => Some e
        end
  end.

(** *** The event loop around the hook *)

(** The hook together with the run ids of the [load_gallery] invocations
    that are still in flight. *)
Record sys : Type := Sys {
  hook : state;
  inflight : list nat
}.

Inductive event : Type :=
| Call (folder : value)               (* the user picks or drops a folder *)
| Settle (runId : nat) (r : settled). (* the invocation of run [runId] settles *)

Definition step (tauri : bool) (s : sys) (e : event) : sys :=
  match e with
  | Call folder =>
      let '(st, started) := loadGallery_call tauri folder (hook s) in
      Sys st (inflight s ++ option_list started)%list
  | Settle runId r =>
      if bool_decide (runId ∈ inflight s) then
        Sys (loadGallery_settled runId r (hook s))
            (filter (fun k => k ≠ runId) (inflight s))
      else s
  end.

Definition run (tauri : bool) (s : sys) (evs : list event) : sys :=
  fold_left (step tauri) evs s.

(** The run ids handed out along a trace, in the order of the calls. *)
Fixpoint issued (tauri : bool) (s : sys) (evs : list event) : list nat :=
  match evs with
  | [] => []
  | e :: evs' =>
      match e with
      | Call folder => option_list (loadGallery_call tauri folder (hook s)).2
      | Settle _ _ => []
      end ++ issued tauri (step tauri s e) evs'
  end.

Definition start : sys := Sys initial [].

(** The run ids in flight never exceed the counter. *)
Definition inflight_bounded (s : sys) : Prop :=
  Forall (fun k => k <= loadRunIdRef (hook s)) (inflight s).
End UseGallery.
End UseGallery.

(** ** src/App.jsx: [loadGallery] with thumbnail hydration

    The same code is the second version of src/hooks/useGallery.js. *)

Module App.
Section App.
Context `{NumberConv}.

(** The gallery part of the React state of [App], and its
    [hydrationRunIdRef]. *)
Record state : Type := State {
  items : list value;
  status : string;
  loading : bool;
  loadingText : string;
  error : string;
  thumbnailDataByPath : gmap string string;
  hydrationRunIdRef : nat
}.

Definition setItems (v : list value) (st : state) : state :=
  State v (status st) (loading st) (loadingText st) (error st)
        (thumbnailDataByPath st) (hydrationRunIdRef st).
Definition setStatus (v : string) (st : state) : state :=
  State (items st) v (loading st) (loadingText st) (error st)
        (thumbnailDataByPath st) (hydrationRunIdRef st).
Definition setLoading (v : bool) (st : state) : state :=
  State (items st) (status st) v (loadingText st) (error st)
        (thumbnailDataByPath st) (hydrationRunIdRef st).
Definition setLoadingText (v : string) (st : state) : state :=
  State (items st) (status st) (loading st) v (error st)
        (thumbnailDataByPath st) (hydrationRunIdRef st).
Definition setError (v : string) (st : state) : state :=
  State (items st) (status st) (loading st) (loadingText st) v
        (thumbnailDataByPath st) (hydrationRunIdRef st).
Definition setThumbnailDataByPath (v : gmap string string) (st : state) : state :=
  State (items st) (status st) (loading st) (loadingText st) (error st)
        v (hydrationRunIdRef st).
Definition setHydrationRunId (v : nat) (st : state) : state :=
  State (items st) (status st) (loading st) (loadingText st) (error st)
        (thumbnailDataByPath st) v.

Definition initial : state :=
  State [] "" false "Loading images..." "" ∅ 0.

(** *** The thumbnail map *)

(** The string-keyed members every object literal inherits from
    [Object.prototype]; each of them is a truthy value. *)
Definition Object_prototype_member (k : string) : bool :=
  existsb (String.eqb k)
    ["constructor"; "hasOwnProperty"; "isPrototypeOf"; "propertyIsEnumerable";
     "toLocaleString"; "toString"; "valueOf"; "__proto__";
     "__defineGetter__"; "__defineSetter__"; "__lookupGetter__"; "__lookupSetter__"].

(** The test [prev[k]]: an own entry that is not the empty string, or an
    inherited member. *)
Definition truthy_at (prev : gmap string string) (k : string) : bool :=
  match prev !! k with
  | Some s => negb (String.eqb s "")
  | None => Object_prototype_member k
  end.

(** The updater passed to [setThumbnailDataByPath] for [item] and the
    [dataUrl] its thumbnail resolved to.  The property key [item.path] is
    converted to a string at the test and again at the computed key, and
    [dataUrl] by [String] after that; each of these conversions may
    throw. *)
Definition mergeThumbnail (item dataUrl : value) (prev : gmap string string)
  : completion (gmap string string) :=
  bind (String_ (get_opt item "path")) (fun key =>
    if truthy_at prev key then Normal prev
    else bind (String_ dataUrl) (fun dataUrl_string =>
           Normal (<[key := dataUrl_string]> prev))).

(** The map after React has run the updater.  React applies the queued
    updaters in the order of the calls, so applying each at once to the
    state gives the same map.  An updater that throws gives no new map:
    the render in which React runs it fails, and the map stays the one
    rendered last. *)
Definition setThumbnailDataByPath_updater (updated : completion (gmap string string))
    (prev : gmap string string) : gmap string string :=
  match updated with
  | Normal thumbnails => thumbnails
  | Throw _ => prev
  end.

(** *** One call of [hydrateThumbnails] *)

(** The promise of one [worker()]: suspended at the [await] for the
    item at [index], fulfilled, or rejected. *)
Inductive worker : Type :=
| Awaiting (index : nat) (item : value)
| Returned
| Failed (e : value).

(** The closure of one call: its arguments, the shared [cursor] and the
    promises of its workers.  [invoked] and [outcomes] are history
    variables: the [load_thumbnail] invocations made so far (index and
    [path] argument) and the way the settled ones ended. *)
Record batch : Type := Batch {
  galleryItems : list value;
  runId : nat;
  cursor : nat;
  workers : list worker;
  invoked : list (nat * value);
  outcomes : list (nat * settled)
}.

Definition maxConcurrent : nat := 6.

(** The [while] loop of a worker from its test up to the next [await]
    (or to its end).  [rest] is [galleryItems] from [cursor] on, so that
    [cursor < galleryItems.length] is [rest] being non-empty; [current]
    is [hydrationRunIdRef.current].  An item whose [path] cannot be read
    throws inside [try]: the [catch] swallows it and the loop goes on. *)
Fixpoint worker_loop (current runId : nat) (rest : list value) (cursor : nat)
    (invoked : list (nat * value)) : nat * list (nat * value) * worker :=
  match rest with
  | [] => (cursor, invoked, Returned)
  | item :: rest' =>
      if negb (runId =? current)%nat then (cursor, invoked, Returned)
      else
        let currentIndex := cursor in
        let cursor := cursor + 1 in
        match get item "path" with
        | Throw _ => worker_loop current runId rest' cursor invoked
        | Normal path =>
            (cursor, (invoked ++ [(currentIndex, path)])%list, Awaiting currentIndex item)
        end
  end.

Definition worker_resume (current : nat) (b : batch) : batch * worker :=
  let '(cursor', invoked', w) :=
    worker_loop current (runId b) (drop (cursor b) (galleryItems b))
                (cursor b) (invoked b) in
  (Batch (galleryItems b) (runId b) cursor' (workers b) invoked' (outcomes b), w).

(** A call [worker()]: a new promise joins the pool. *)
Definition worker_call (current : nat) (b : batch) : batch :=
  let '(b', w) := worker_resume current b in
  Batch (galleryItems b') (runId b') (cursor b') (workers b' ++ [w])%list
        (invoked b') (outcomes b').

(** [hydrateThumbnails(galleryItems, runId)] up to [Promise.all]. *)
Definition hydrateThumbnails (current : nat) (galleryItems : list value) (runId : nat)
  : batch :=
  let workerCount := Nat.min maxConcurrent (length galleryItems) in
  Nat.iter workerCount (worker_call current) (Batch galleryItems runId 0 [] [] []).

Definition set_worker (w : nat) (wk : worker) (b : batch) : batch :=
  Batch (galleryItems b) (runId b) (cursor b) (<[w := wk]> (workers b))
        (invoked b) (outcomes b).

Definition record_outcome (index : nat) (r : settled) (b : batch) : batch :=
  Batch (galleryItems b) (runId b) (cursor b) (workers b)
        (invoked b) (outcomes b ++ [(index, r)])%list.

(** Worker [w] after the invocation it awaits has settled: the rest of
    the [try] or the [catch], then the loop again. *)
Definition thumbnail_settled (current : nat) (thumbnails : gmap string string)
    (b : batch) (w : nat) (r : settled) : gmap string string * batch :=
  match workers b !! w with
  | Some (Awaiting index item) =>
      let b := record_outcome index r b in
      match r with
      | Resolved dataUrl =>
          if negb (runId b =? current)%nat then
            (thumbnails, set_worker w Returned b)
          else
            let thumbnails :=
              setThumbnailDataByPath_updater (mergeThumbnail item dataUrl thumbnails)
                                             thumbnails in
            let '(b, wk) := worker_resume current b in
            (thumbnails, set_worker w wk b)
      | Rejected _ =>
          let '(b, wk) := worker_resume current b in
          (thumbnails, set_worker w wk b)
      end
  | _ => (thumbnails, b)
  end.

(** The promise [Promise.all] returns: pending while a worker is, rejected
    with the first rejection, fulfilled otherwise. *)
Fixpoint Promise_all (ws : list worker) : option (completion unit) :=
  match ws with
  | [] => Some (Normal tt)
  | Awaiting _ _ :: ws' =>
      match Promise_all ws' with
      | Some (Throw e) => Some (Throw e)
      | _ => None
      end
  | Returned :: ws' => Promise_all ws'
  | Failed e :: _ => Some (Throw e)
  end.

(** *** [loadGallery] *)

(** Up to the [await]; the boolean tells whether [load_gallery] was
    invoked.  When the conversion of [folder] in the template literal of
    the status throws, the call ends there and nothing is invoked. *)
Definition loadGallery_call (tauri : bool) (folder : value) (st : state)
  : state * bool :=
  if negb tauri then
    (setError "Tauri API unavailable. Start with `npm run tauri dev`." st, false)
  else
    let st := setLoading true st in
    let st := setLoadingText "Preparing thumbnails..." st in
    let st := setError "" st in
    let st := setHydrationRunId (hydrationRunIdRef st + 1) st in
    let st := setThumbnailDataByPath ∅ st in
    match String_ folder with
    | Normal folder_string =>
        let st := setStatus ("Scanning " ++ folder_string ++ "...") st in
        (st, true)
    | Throw _ => (st, false)
    end.

Definition loadGallery_finally (st : state) : state :=
  setLoadingText "Loading images..." (setLoading false st).

(** After the [await]; a resolved scan starts a hydration, which is not
    awaited.  When [String(invokeError)] throws in the [catch] block,
    [setError] is not reached; the [finally] block runs all the same. *)
Definition loadGallery_settled (r : settled) (st : state) : state * option batch :=
  match r with
  | Resolved response =>
      let galleryItems :=
        if Array_isArray (get_opt response "items")
        then Array_elems (get_opt response "items") else [] in
      let st := setItems galleryItems st in
      let st :=
        if ToBoolean (get_opt response "cancelled") then
          setStatus ("Stopped. Loaded "
                     ++ formatImageCount (of_nat (length galleryItems))
                     ++ " before cancel.") st
        else
          setStatus ("Loaded "
                     ++ formatImageCount (of_nat (length galleryItems))
                     ++ ".") st in
      let hydration :=
        hydrateThumbnails (hydrationRunIdRef st) galleryItems (hydrationRunIdRef st) in
      (loadGallery_finally st, Some hydration)
  | Rejected invokeError =>
      let st := setItems [] st in
      let st := setStatus "Failed to load folder." st in
      match String_ invokeError with
      | Normal invokeError_string =>
          let st := setError invokeError_string st in
          (loadGallery_finally st, None)
      | Throw _ => (loadGallery_finally st, None)
      end
  end.

(** *** The event loop around the component *)

Record sys : Type := Sys {
  app : state;
  scans : nat;              (* [load_gallery] invocations in flight *)
  hydrations : list batch   (* the calls of [hydrateThumbnails] so far *)
}.

Inductive event : Type :=
| Call (folder : value)
| ScanSettled (r : settled)
| ThumbnailSettled (h w : nat) (r : settled).

Definition step (tauri : bool) (s : sys) (e : event) : sys :=
  match e with
  | Call folder =>
      let '(st, started) := loadGallery_call tauri folder (app s) in
      Sys st (scans s + (if started then 1 else 0)) (hydrations s)
  | ScanSettled r =>
      match scans s with
      | 0 => s
      | S n =>
          let '(st, hydration) := loadGallery_settled r (app s) in
          Sys st n (hydrations s ++ option_list hydration)%list
      end
  | ThumbnailSettled h w r =>
      match hydrations s !! h with
      | Some b =>
          let '(thumbnails, b') :=
            thumbnail_settled (hydrationRunIdRef (app s))
                              (thumbnailDataByPath (app s)) b w r in
          Sys (setThumbnailDataByPath thumbnails (app s)) (scans s)
              (<[h := b']> (hydrations s))
      | None => s
      end
  end.

Definition run (tauri : bool) (s : sys) (evs : list event) : sys :=
  fold_left (step tauri) evs s.

Definition start : sys := Sys initial 0 [].

(** *** One hydration on its own *)

(** The invocations of one hydration settle as [schedule] tells (worker and
    outcome), while no other call of [loadGallery] intervenes:
    [hydrationRunIdRef.current] stays [current]. *)
Definition hydration_step (current : nat) (c : gmap string string * batch)
    (e : nat * settled) : gmap string string * batch :=
  thumbnail_settled current c.1 c.2 e.1 e.2.

Definition hydration_run (current : nat) (thumbnails : gmap string string) (b : batch)
    (schedule : list (nat * settled)) : gmap string string * batch :=
  fold_left (hydration_step current) schedule (thumbnails, b).

Definition is_awaiting (w : worker) : bool :=
  match w with
  | Awaiting _ _ => true
  | _ => false
  end.

(** Every event of the schedule settles an invocation that is pending. *)
Fixpoint schedule_valid (current : nat) (thumbnails : gmap string string) (b : batch)
    (schedule : list (nat * settled)) : Prop :=
  match schedule with
  | [] => True
  | e :: schedule' =>
      (exists wk, workers b !! e.1 = Some wk /\ is_awaiting wk = true) /\
      schedule_valid current (hydration_step current (thumbnails, b) e).1
                     (hydration_step current (thumbnails, b) e).2 schedule'
  end.

(** The work a hydration still has: the items not yet taken and the
    invocations in flight. *)
Definition awaiting_count (ws : list worker) : nat :=
  sum_list_with (fun w => if is_awaiting w then 1 else 0) ws.

Definition pending_work (b : batch) : nat :=
  (length (galleryItems b) - cursor b) + awaiting_count (workers b).

(** What the promise of a worker of [b] may be. *)
Definition worker_ok (b : batch) (w : worker) : Prop :=
  match w with
  | Awaiting index item => galleryItems b !! index = Some item /\ index < cursor b
  | Returned => True
  | Failed _ => False
  end.

(** The invariant of the closure of [hydrateThumbnails]. *)
Record batch_ok (b : batch) : Prop := BatchOk {
  cursor_bounded : cursor b <= length (galleryItems b);
  invoked_items :
    Forall (fun ip => ip.1 < cursor b /\
                      exists item, galleryItems b !! ip.1 = Some item /\
                                   get item "path" = Normal ip.2) (invoked b);
  invoked_sorted : StronglySorted lt (invoked b).*1;
  taken_invoked :
    forall j item path,
      j < cursor b -> galleryItems b !! j = Some item ->
      get item "path" = Normal path -> (j, path) ∈ invoked b;
  workers_items : Forall (worker_ok b) (workers b)
}.

(** What holds of every hydration of the component: the invariant of its
    closure, the size of its pool, and a run id that the counter has
    reached. *)
Definition hydration_ok (current : nat) (b : batch) : Prop :=
  batch_ok b /\
  length (workers b) = Nat.min maxConcurrent (length (galleryItems b)) /\
  runId b <= current.

Definition sys_ok (s : sys) : Prop :=
  Forall (hydration_ok (hydrationRunIdRef (app s))) (hydrations s).

(** A worker has left its loop only when no item was left. *)
Definition returned_done (b : batch) : Prop :=
  (exists w, workers b !! w = Some Returned) -> cursor b = length (galleryItems b).

(** Every entry of [thumbnails] was there in [thumbnails0] or is the
    payload of an invocation of [b] that resolved. *)
Definition merged_from (thumbnails0 : gmap string string) (b : batch)
    (thumbnails : gmap string string) : Prop :=
  forall k v,
    thumbnails !! k = Some v ->
    thumbnails0 !! k = Some v \/
    exists index item dataUrl,
      (index, Resolved dataUrl) ∈ outcomes b /\
      galleryItems b !! index = Some item /\
      ToString (get_opt item "path") = k /\ v = ToString dataUrl.
End App.
End App.

(** ** The cache key of the backend *)

Module CacheKey.
Section CacheKey.
(** The cryptographic hash and its digests. *)
Context {digest : Type} (hash : string -> digest).

(** Modelled from the spec: the cache-key function belongs to the Rust
    backend, which is not among the sources.  The design derives the key
    deterministically from (absolute_path, modified_time) via a
    cryptographic hash, and the README describes it as the hash of the
    source path plus the modification timestamp of the file. *)
Record cache_key : Type := Key {
  path_hash : digest;
  modified_time : Z
}.

(** Modelled from the spec: [key(p, t)], see [cache_key]. *)
Definition key (p : string) (t : Z) : cache_key :=
  Key (hash p) t.
End CacheKey.
End CacheKey.

(** ** An implementation of the Number conversions

    The two conversions on integer numerals, where ECMAScript's algorithms
    are the decimal notation; the closed examples below use no other
    Numbers. *)

Module Decimal.
Definition render (n : number) : string :=
  match n with
  | Fin q =>
      let r := Qred q in
      if (Z.pos (Qden r) =? 1)%Z then pretty (Qnum r)
      else pretty (Qnum r) ++ "/" ++ pretty (Z.pos (Qden r))
  | NaN => "NaN"
  | PosInf => "Infinity"
  | NegInf => "-Infinity"
  end.

Fixpoint digits (s : string) (acc : N) : option N :=
  match s with
  | EmptyString => Some acc
  | String c s' =>
      let d := Ascii.N_of_ascii c in
      if (48 <=? d)%N && (d <=? 57)%N then digits s' (acc * 10 + (d - 48))%N
      else None
  end.

Definition parse (s : string) : number :=
  match digits s 0%N with
  | Some n => Fin (inject_Z (Z.of_N n))
  | None => NaN
  end.

#[export] Instance conv : NumberConv := {|
  number_to_string := render;
  string_to_number := parse
|}.
End Decimal.

(** ** More of JavaScript *)

Module JSOps.
(** [v ?? d] *)
Definition coalesce (v d : value) : value :=
  match v with
  | Undefined | Null => d
  | _ => v
  end.

(** [a < b] on Numbers; false as soon as one side is NaN. *)
Definition num_ltb (a b : number) : bool :=
  match a, b with
  | NaN, _ | _, NaN => false
  | _, _ => negb (num_leb b a)
  end.
End JSOps.

Import JSOps.

(** ** src/hooks/useGallery.js: the rest of the hook, and [pickFolder] of
    src/App.jsx *)

Module Hook.
Section Hook.
Context `{NumberConv}.

(** The state of [useGallery]: what [loadGallery] works on, the folder
    shown, and the ref that remembers the last drop ([Date.now()] counts
    milliseconds in whole numbers). *)
Record state : Type := State {
  gallery : UseGallery.state;
  selectedFolder : value;
  lastDroppedFolderRef : string * Z
}.

Definition initial : state := State UseGallery.initial (Str "") ("", 0%Z).

Definition with_gallery (g : UseGallery.state) (h : state) : state :=
  State g (selectedFolder h) (lastDroppedFolderRef h).

(** [loadGallery(folder)] up to its [await], with the [folderPath] that
    goes to the backend beside the run id. *)
Definition loadGallery (tauri : bool) (folder : value) (g : UseGallery.state)
  : UseGallery.state * option (nat * value) :=
  ((UseGallery.loadGallery_call tauri folder g).1,
   option_map (fun runId => (runId, folder)) (UseGallery.loadGallery_call tauri folder g).2).

(** The text the listener of [thumbnail-progress] computes from a payload
    that is an object; the conversions of its three fields come first, in
    this order, and each may throw. *)
Definition progress_text (payload : value) : completion string :=
  bind (Number_ (coalesce (get_opt payload "current") (Num (Fin 0%Q)))) (fun current =>
  bind (Number_ (coalesce (get_opt payload "total") (Num (Fin 0%Q)))) (fun total =>
  bind (String_ (coalesce (get_opt payload "name") (Str "image"))) (fun name =>
    if num_ltb (Fin 0%Q) current && num_ltb (Fin 0%Q) total then
      Normal ("Generating " ++ number_to_string current ++ "/" ++ number_to_string total
                            ++ ": " ++ name)
    else
      Normal ("Generating: " ++ name)))).

(** The listener of [thumbnail-progress]; when a conversion throws, the
    listener ends without a call of [setLoadingText]. *)
Definition onProgress (payload : value) (g : UseGallery.state) : UseGallery.state :=
  if negb (ToBoolean payload) || negb (typeof_object payload) then g
  else
    match progress_text payload with
    | Normal text => UseGallery.setLoadingText text g
    | Throw _ => g
    end.

(** [stopGalleryScan()]: whether [cancel_gallery_scan] is invoked, and the
    hook after that invocation has settled; when [String(cancelError)]
    throws, [setError] is not reached. *)
Definition stopGalleryScan_call (g : UseGallery.state) : bool :=
  UseGallery.loading g.

Definition stopGalleryScan_settled (r : settled) (g : UseGallery.state) : UseGallery.state :=
  match r with
  | Resolved _ => UseGallery.setStatus "Stopping thumbnail generation..." g
  | Rejected cancelError =>
      match String_ cancelError with
      | Normal cancelError_string => UseGallery.setError cancelError_string g
      | Throw _ => g
      end
  end.

(** [handleFolderDrop(event)] with [now] the value of [Date.now()], up to
    the [await] of [loadGallery]. *)
Definition handleFolderDrop (tauri : bool) (payload : value) (now : Z) (h : state)
  : state * option (nat * value) :=
  match getDroppedPaths payload with
  | Throw _ => (h, None)
  | Normal droppedPaths =>
      match droppedPaths with
      | [] => (h, None)
      | nextFolder :: _ =>
          let lastDrop := lastDroppedFolderRef h in
          if String.eqb lastDrop.1 nextFolder && (now - lastDrop.2 <? 500)%Z then (h, None)
          else
            ((State (loadGallery tauri (Str nextFolder) (gallery h)).1
                    (Str nextFolder) (nextFolder, now)),
             (loadGallery tauri (Str nextFolder) (gallery h)).2)
      end
  end.

(** [pickFolder()] up to the dialog (the boolean tells whether it opens),
    and after the dialog has returned [selected]. *)
Definition pickFolder_call (tauri : bool) (h : state) : state * bool :=
  let g := UseGallery.setError "" (gallery h) in
  if negb tauri then
    (with_gallery
       (UseGallery.setError
          "Folder picker requires Tauri runtime. Start with `npm run tauri dev`." g) h,
     false)
  else (with_gallery g h, true).

Definition pickFolder_selected (tauri : bool) (selected : value) (h : state)
  : state * option (nat * value) :=
  match selected with
  | Str _ =>
      (State (loadGallery tauri selected (gallery h)).1 selected (lastDroppedFolderRef h),
       (loadGallery tauri selected (gallery h)).2)
  | _ => (h, None)
  end.

(** [loadInitialFolder()] of the mount effect: up to the invocation of
    [get_initial_folder] (the boolean tells whether it is made), after it
    has settled, and after the [await] of [loadGallery]. *)
Definition loadInitialFolder_call (tauri : bool) (h : state) : state * bool :=
  if negb tauri then
    (with_gallery
       (UseGallery.setStatus
          "Run this app with Tauri (`npm run tauri dev`) to enable folder scan."
          (gallery h)) h,
     false)
  else (h, true).

(** The [catch] block of [loadInitialFolder]; when [String(invokeError)]
    throws, [setError] is not reached. *)
Definition loadInitialFolder_catch (disposed : bool) (invokeError : value)
    (g : UseGallery.state) : UseGallery.state :=
  if negb disposed then
    match String_ invokeError with
    | Normal invokeError_string => UseGallery.setError invokeError_string g
    | Throw _ => g
    end
  else g.

(** After [await loadGallery(initialFolder)], whose promise was fulfilled
    or was rejected with [rejected]. *)
Definition loadInitialFolder_awaited (disposed : bool) (rejected : option value)
    (g : UseGallery.state) : UseGallery.state :=
  match rejected with
  | Some invokeError => loadInitialFolder_catch disposed invokeError g
  | None => g
  end.

(** A promise of [loadGallery] that is rejected before any [await] is
    caught in the same turn. *)
Definition loadInitialFolder_settled (tauri disposed : bool) (r : settled) (h : state)
  : state * option (nat * value) :=
  match r with
  | Resolved initialFolder =>
      if negb disposed && ToBoolean initialFolder then
        (State (loadInitialFolder_awaited disposed
                  (UseGallery.loadGallery_call_rejected tauri initialFolder)
                  (loadGallery tauri initialFolder (gallery h)).1)
               initialFolder (lastDroppedFolderRef h),
         (loadGallery tauri initialFolder (gallery h)).2)
      else (h, None)
  | Rejected invokeError =>
      (with_gallery (loadInitialFolder_catch disposed invokeError (gallery h)) h, None)
  end.

(** *** The event loop around the whole hook *)

(** The hook, the run ids of the scans in flight, the invocations of
    [cancel_gallery_scan] in flight, the open dialogs, whether
    [get_initial_folder] is pending, as a history variable the scans
    started so far, each with its folder, and the run id of the scan that
    [loadInitialFolder] awaits, if it has started one. *)
Record sys : Type := Sys {
  hook : state;
  inflight : list nat;
  cancels : nat;
  dialogs : nat;
  initialPending : bool;
  scans : list (nat * value);
  initialRun : option nat
}.

Inductive event : Type :=
| InitialFolder (r : settled)        (* [get_initial_folder] settles *)
| Drop (payload : value) (now : Z)   (* tauri://file-drop or tauri://drag-drop *)
| PickFolder                         (* the Pick Folder button *)
| Picked (selected : value)          (* the dialog returns *)
| Progress (payload : value)         (* thumbnail-progress *)
| Stop                               (* the Stop button *)
| StopSettled (r : settled)          (* [cancel_gallery_scan] settles *)
| Settle (runId : nat) (r : settled). (* [load_gallery] of run [runId] settles *)

Definition started (s : sys) (c : state * option (nat * value)) : sys :=
  Sys c.1 (inflight s ++ option_list (fst <$> c.2))%list (cancels s) (dialogs s)
      (initialPending s) (scans s ++ option_list c.2)%list (initialRun s).

Definition with_hook (g : UseGallery.state) (s : sys) : sys :=
  Sys (with_gallery g (hook s)) (inflight s) (cancels s) (dialogs s)
      (initialPending s) (scans s) (initialRun s).

(** The hook after [load_gallery] of run [runId] has settled: the
    continuation of [loadGallery], and after it the one of
    [loadInitialFolder] when that is the caller which awaits this run; the
    drop listener and [pickFolder] have nothing after their [await]. *)
Definition loadGallery_awaited (initialRun : option nat) (runId : nat) (r : settled)
    (g : UseGallery.state) : UseGallery.state :=
  let g' := UseGallery.loadGallery_settled runId r g in
  if bool_decide (initialRun = Some runId) then
    loadInitialFolder_awaited false (UseGallery.loadGallery_rejected runId r g) g'
  else g'.

(** The listeners of the drop and progress events are registered in the
    Tauri run time only. *)
Definition step (tauri : bool) (s : sys) (e : event) : sys :=
  match e with
  | InitialFolder r =>
      if initialPending s then
        let s' := started s (loadInitialFolder_settled tauri false r (hook s)) in
        Sys (hook s') (inflight s') (cancels s') (dialogs s') false (scans s')
            (fst <$> (loadInitialFolder_settled tauri false r (hook s)).2)
      else s
  | Drop payload now =>
      if tauri then started s (handleFolderDrop tauri payload now (hook s)) else s
  | PickFolder =>
      Sys (pickFolder_call tauri (hook s)).1 (inflight s) (cancels s)
          (dialogs s + (if (pickFolder_call tauri (hook s)).2 then 1 else 0))
          (initialPending s) (scans s) (initialRun s)
  | Picked selected =>
      match dialogs s with
      | 0 => s
      | S n =>
          let s' := started s (pickFolder_selected tauri selected (hook s)) in
          Sys (hook s') (inflight s') (cancels s') n (initialPending s') (scans s')
              (initialRun s')
      end
  | Progress payload =>
      if tauri then with_hook (onProgress payload (gallery (hook s))) s else s
  | Stop =>
      if stopGalleryScan_call (gallery (hook s)) then
        Sys (hook s) (inflight s) (cancels s + 1) (dialogs s) (initialPending s) (scans s)
            (initialRun s)
      else s
  | StopSettled r =>
      match cancels s with
      | 0 => s
      | S n =>
          let s' := with_hook (stopGalleryScan_settled r (gallery (hook s))) s in
          Sys (hook s') (inflight s') n (dialogs s') (initialPending s') (scans s')
              (initialRun s')
      end
  | Settle runId r =>
      if bool_decide (runId ∈ inflight s) then
        let s' := with_hook (loadGallery_awaited (initialRun s) runId r (gallery (hook s))) s in
        Sys (hook s') (filter (fun k => k ≠ runId) (inflight s')) (cancels s') (dialogs s')
            (initialPending s') (scans s') (initialRun s')
      else s
  end.

Definition run (tauri : bool) (s : sys) (evs : list event) : sys :=
  fold_left (step tauri) evs s.

(** The hook once mounted. *)
Definition start (tauri : bool) : sys :=
  Sys (loadInitialFolder_call tauri initial).1 [] 0 0
      (loadInitialFolder_call tauri initial).2 [] None.

(** The backend answers [get_initial_folder] with a path or with [null]:
    a value that converts to a string. *)
Definition initial_folder_converts (e : event) : Prop :=
  match e with
  | InitialFolder (Resolved initialFolder) => convertible initialFolder = true
  | _ => True
  end.

(** The hook is loading exactly while the scan of its latest run is in
    flight; the scans were started with increasing run ids, the latest with
    the current run id for the folder that is shown. *)
Record sys_ok (s : sys) : Prop := SysOk {
  loading_in_flight :
    UseGallery.loading (gallery (hook s)) = true <->
    UseGallery.loadRunIdRef (gallery (hook s)) ∈ inflight s;
  scans_bounded :
    Forall (fun k => k <= UseGallery.loadRunIdRef (gallery (hook s))) (scans s).*1;
  inflight_started : forall k, k ∈ inflight s -> k ∈ (scans s).*1;
  latest_scan :
    forall k folder,
      last (scans s) = Some (k, folder) ->
      k = UseGallery.loadRunIdRef (gallery (hook s)) /\ folder = selectedFolder (hook s)
}.
End Hook.
End Hook.

(** ** src/hooks/usePreview.js *)

Module Preview.
Section Preview.
Context `{NumberConv}.

(** Whether two arrays or objects are the same object: the identity of
    references, which the values do not record. *)
Context (same_object : value -> value -> bool).

(** [convertFileSrc] of the Tauri API: the asset URL of a path. *)
Context (convertFileSrc : value -> string).

(** [a === b] *)
Definition strict_equal (a b : value) : bool :=
  match a, b with
  | Undefined, Undefined | Null, Null => true
  | Bool x, Bool y => Bool.eqb x y
  | Num x, Num y => num_eqb x y
  | Str x, Str y => String.eqb x y
  | (Arr _ | Obj _), (Arr _ | Obj _) => same_object a b
  | _, _ => false
  end.

(** [items.findIndex((item) => item.path === target)] from [index] on; the
    read of [item.path] throws for an item that is [null] or [undefined]. *)
Fixpoint findIndex_path (target : value) (items : list value) (index : Z) : completion Z :=
  match items with
  | [] => Normal (-1)%Z
  | item :: rest =>
      bind (get item "path") (fun path =>
        if strict_equal path target then Normal index
        else findIndex_path target rest (index + 1)%Z)
  end.

Definition currentPreviewIndex (items : list value) (previewItem : value) : completion Z :=
  if negb (ToBoolean previewItem) then Normal (-1)%Z
  else findIndex_path (get_opt previewItem "path") items 0%Z.

Definition hasPreviousPreview (currentPreviewIndex : Z) : bool :=
  (0 <? currentPreviewIndex)%Z.

Definition hasNextPreview (items : list value) (currentPreviewIndex : Z) : bool :=
  (0 <=? currentPreviewIndex)%Z && (currentPreviewIndex <? Z.of_nat (length items) - 1)%Z.

(** [goToPreview(direction)], and [navigatePreview(direction)] of the key
    handler, which is the same code: the preview item afterwards. *)
Definition goToPreview (items : list value) (currentPreviewIndex direction : Z)
    (previewItem : value) : value :=
  if (currentPreviewIndex <? 0)%Z then previewItem
  else
    let nextIndex := (currentPreviewIndex + direction)%Z in
    if (nextIndex <? 0)%Z || (Z.of_nat (length items) <=? nextIndex)%Z then previewItem
    else default Undefined (items !! Z.to_nat nextIndex).

(** [onKeydown(event)] for [event.key]: the preview item afterwards.  The
    effect registers this listener only while [previewItem] is truthy. *)
Definition onKeydown (items : list value) (currentPreviewIndex : Z) (key : string)
    (previewItem : value) : value :=
  if String.eqb key "Escape" then Null
  else if String.eqb key "ArrowLeft" then goToPreview items currentPreviewIndex (-1) previewItem
  else if String.eqb key "ArrowRight" then goToPreview items currentPreviewIndex 1 previewItem
  else previewItem.

(** *** Loading the preview *)

Record state : Type := State {
  previewImageSrc : string;
  previewLoading : bool;
  previewError : string
}.

Definition initial : state := State "" false "".

(** Where a call of [loadPreview] stands: at the probe of the asset URL, at
    the invocation of [load_full_image], or at its end. *)
Inductive stage : Type :=
| Probing (assetUrl : string)
| Loading
| Finished.

(** The closure of one run of the effect: the [previewItem] it was run for,
    its [cancelled] flag, and its call of [loadPreview]. *)
Record task : Type := Task {
  item : value;
  cancelled : bool;
  at_stage : stage
}.

(** The effect for [previewItem], up to the first [await]. *)
Definition effect_start (tauri : bool) (previewItem : value) (st : state)
  : state * option stage :=
  if negb (ToBoolean previewItem) then (State "" false "", None)
  else if negb tauri then
    (State (previewImageSrc st) (previewLoading st)
           "Preview unavailable outside Tauri runtime.", None)
  else
    (State "" true "", Some (Probing (convertFileSrc (get_opt previewItem "path")))).

Definition finally (cancelled : bool) (st : state) : state :=
  if negb cancelled then State (previewImageSrc st) false (previewError st) else st.

(** After the probe of [assetUrl]; the boolean tells whether
    [load_full_image] is invoked. *)
Definition probe_settled (cancelled : bool) (assetUrl : string) (assetLoaded : bool)
    (st : state) : state * bool :=
  if assetLoaded then
    (finally cancelled
       (if negb cancelled then State assetUrl (previewLoading st) (previewError st) else st),
     false)
  else (st, true).

(** The [catch] block; when [String(previewLoadError)] throws,
    [setPreviewError] is not reached. *)
Definition catch (cancelled : bool) (previewLoadError : value) (st : state) : state :=
  if negb cancelled then
    match String_ previewLoadError with
    | Normal previewLoadError_string =>
        State (previewImageSrc st) (previewLoading st) previewLoadError_string
    | Throw _ => st
    end
  else st.

(** After [load_full_image] has settled; when [String(dataUrl)] throws, the
    [catch] block takes over. *)
Definition full_image_settled (cancelled : bool) (r : settled) (st : state) : state :=
  match r with
  | Resolved dataUrl =>
      if negb cancelled then
        match String_ dataUrl with
        | Normal dataUrl_string =>
            finally cancelled
              (State dataUrl_string (previewLoading st) (previewError st))
        | Throw previewLoadError =>
            finally cancelled (catch cancelled previewLoadError st)
        end
      else finally cancelled st
  | Rejected previewLoadError =>
      finally cancelled (catch cancelled previewLoadError st)
  end.

(** *** The event loop around the preview *)

(** The state, the item selected, every run of the effect so far, and as a
    history variable the full images that resolved, each with the item it
    was loaded for. *)
Record sys : Type := Sys {
  shown : state;
  previewItem : value;
  tasks : list task;
  loaded : list (value * value)
}.

Inductive event : Type :=
| Changed (previewItem : value)              (* [previewItem] has changed *)
| ProbeSettled (t : nat) (assetLoaded : bool) (* the probe of run [t] ends *)
| FullImageSettled (t : nat) (r : settled).   (* [load_full_image] of run [t] settles *)

Definition cancel (t : task) : task := Task (item t) true (at_stage t).

Definition step (tauri : bool) (s : sys) (e : event) : sys :=
  match e with
  | Changed v =>
      (* the cleanup of the effect before, then the effect *)
      Sys (effect_start tauri v (shown s)).1 v
          ((cancel <$> tasks s)
             ++ option_list (Task v false <$> (effect_start tauri v (shown s)).2))%list
          (loaded s)
  | ProbeSettled t assetLoaded =>
      match tasks s !! t with
      | Some (Task v c (Probing assetUrl)) =>
          Sys (probe_settled c assetUrl assetLoaded (shown s)).1 (previewItem s)
              (<[t := Task v c (if (probe_settled c assetUrl assetLoaded (shown s)).2
                                then Loading else Finished)]> (tasks s))
              (loaded s)
      | _ => s
      end
  | FullImageSettled t r =>
      match tasks s !! t with
      | Some (Task v c Loading) =>
          Sys (full_image_settled c r (shown s)) (previewItem s)
              (<[t := Task v c Finished]> (tasks s))
              (loaded s ++ match r with
                           | Resolved dataUrl => [(v, dataUrl)]
                           | Rejected _ => []
                           end)%list
      | _ => s
      end
  end.

Definition run (tauri : bool) (s : sys) (evs : list event) : sys :=
  fold_left (step tauri) evs s.

Definition start : sys := Sys initial Null [] [].

(** A run of the effect whose load is still pending and may still be
    shown. *)
Definition pending (t : task) : bool :=
  negb (cancelled t) && match at_stage t with Finished => false | _ => true end.

(** Every run of the effect but the last has been cancelled, and one that
    has not was run for the item selected now. *)
Record sys_ok (s : sys) : Prop := SysOk {
  loading_pending : previewLoading (shown s) = existsb pending (tasks s);
  earlier_cancelled :
    forall t k, tasks s !! t = Some k -> S t < length (tasks s) -> cancelled k = true;
  current_item :
    forall t k, tasks s !! t = Some k -> cancelled k = false -> item k = previewItem s;
  probe_url :
    forall t k assetUrl,
      tasks s !! t = Some k -> at_stage k = Probing assetUrl ->
      assetUrl = convertFileSrc (get_opt (item k) "path");
  shown_for_item :
    previewImageSrc (shown s) = "" \/
    previewImageSrc (shown s) = convertFileSrc (get_opt (previewItem s) "path") \/
    exists dataUrl,
      (previewItem s, dataUrl) ∈ loaded s /\ previewImageSrc (shown s) = ToString dataUrl
}.
End Preview.
End Preview.

(** ** src/components/GalleryGrid.jsx *)

Module Grid.

(** [Math.max(1, Math.floor(safeWidth / cellWidthPx))], for the quotient of
    the two widths, a finite Number. *)
Definition columnCount (quotient : Q) : Z := Z.max 1 (Qfloor quotient).

(** [Math.ceil(items.length / columnCount)]; the division of a length by a
    count of columns is far from the precision of a Number, so that the
    ceiling is the one of the exact quotient. *)
Definition rowCount (items : list value) (columnCount : Z) : Z :=
  Qceiling (inject_Z (Z.of_nat (length items)) / inject_Z columnCount).

(** [GalleryCell]: the item whose card the cell at [rowIndex] and
    [columnIndex] renders, [None] where it renders [null]. *)
Definition GalleryCell (items : list value) (columnCount rowIndex columnIndex : Z)
  : option value :=
  let index := (rowIndex * columnCount + columnIndex)%Z in
  if (Z.of_nat (length items) <=? index)%Z then None
  else Some (default Undefined (items !! Z.to_nat index)).

End Grid.

(** ** src/App.jsx: what holds of the component at any time *)

Module AppInvariants.
Section AppInvariants.
Context `{NumberConv}.
Import App.

(** Every invocation of [load_thumbnail] a hydration has made has settled or
    is the one a worker awaits. *)
Definition in_flight_accounted (b : batch) : Prop :=
  length (invoked b) = length (outcomes b) + awaiting_count (workers b).

(** Every entry of the thumbnail map is the payload that [load_thumbnail]
    resolved to for an item of a hydration whose run id is the current
    one. *)
Definition shown_from_current (s : sys) : Prop :=
  forall k v,
    thumbnailDataByPath (app s) !! k = Some v ->
    exists h b index item dataUrl,
      hydrations s !! h = Some b /\
      runId b = hydrationRunIdRef (app s) /\
      (index, Resolved dataUrl) ∈ outcomes b /\
      galleryItems b !! index = Some item /\
      ToString (get_opt item "path") = k /\ v = ToString dataUrl.
End AppInvariants.
End AppInvariants.

(** ** Scenarios

    Closed inputs, for the examples that close the development. *)

Module Scenario.
Definition photo (path name : string) : value :=
  Obj [("path", Str path); ("name", Str name)].

Definition a_jpg : value := photo "/photos/a.jpg" "a.jpg".
Definition b_png : value := photo "/photos/b.png" "b.png".
Definition c_gif : value := photo "/photos/c.gif" "c.gif".

Definition photos : list value := [a_jpg; b_png; c_gif].

(** A complete scan, and one that was stopped after two files. *)
Definition scan_complete : value := Obj [("items", Arr photos)].
Definition scan_stopped : value :=
  Obj [("items", Arr [a_jpg; c_gif]); ("cancelled", Bool true)].

(** The thumbnail of [b.png] cannot be decoded; the other two resolve. *)
Definition one_failure : list (nat * settled) :=
  [(1, Rejected (Str "failed to decode /photos/b.png"));
   (0, Resolved (Str "data:image/png;base64,QQ=="));
   (2, Resolved (Str "data:image/png;base64,Qw=="))].

(** The hook after the folder /photos was picked and then /other. *)
Definition two_calls : list UseGallery.event :=
  [UseGallery.Call (Str "/photos"); UseGallery.Call (Str "/other")].

(** A scan that lists the same file twice, the first thumbnail of which
    comes back empty. *)
Definition twice_listed : list App.event :=
  [App.Call (Str "/photos");
   App.ScanSettled (Resolved (Obj [("items", Arr [a_jpg; a_jpg])]));
   App.ThumbnailSettled 0 0 (Resolved (Str ""))].

(** The component after /photos was scanned and its hydration started. *)
Definition scanned : list App.event :=
  [App.Call (Str "/photos"); App.ScanSettled (Resolved scan_complete)].

(** An object of JSON whose own [toString] hides the inherited one: it has
    no conversion to a primitive value. *)
Definition unconvertible : value := Obj [("toString", Num (Fin 1%Q))].

(** The scan of /photos is superseded by the one of /other, resolves and
    has its first thumbnail loaded; then the scan of /other fails. *)
Definition failed_after_superseded : list App.event :=
  [App.Call (Str "/photos"); App.Call (Str "/other");
   App.ScanSettled (Resolved scan_complete);
   App.ThumbnailSettled 0 0 (Resolved (Str "data:image/png;base64,QQ=="));
   App.ScanSettled (Rejected (Str "No such directory: /other"))].

(** The app is started on /photos, /other is dropped on it, and the scan
    of /photos returns. *)
Definition started_then_dropped : list Hook.event :=
  [Hook.InitialFolder (Resolved (Str "/photos"));
   Hook.Drop (Arr [Str "/other"]) 1000;
   Hook.Settle 1 (Resolved scan_complete)].

(** The asset URL of a path that is a string, as the asset protocol gives
    it on Linux and macOS, here without the escaping of the path. *)
Definition asset (path : value) : string :=
  "asset://localhost/" ++ match path with Str p => p | _ => "undefined" end.

(** No two of the objects compared in the examples are the same one; the
    paths of the photos are strings. *)
Definition distinct_objects (a b : value) : bool := false.
End Scenario.

(** * Properties *)

(** ** Numbers *)

Section NumberFacts.

Lemma num_leb_Fin (p q : Q) : num_leb (Fin p) (Fin q) = Qle_bool p q.
Proof. reflexivity. Qed.

End NumberFacts.

(** ** src/utils/gallery.js and the thumbnail size *)

Section GalleryFacts.
Context `{NumberConv}.

Lemma clampThumbnailSize_Fin (q : Q) :
  exists r, clampThumbnailSize (Fin q) = Fin r /\ (100 <= r)%Q /\ (r <= 320)%Q.
Proof.
  unfold clampThumbnailSize, MIN_THUMBNAIL_SIZE, MAX_THUMBNAIL_SIZE, Math_min.
  rewrite num_leb_Fin.
  destruct (Qle_bool q 320) eqn:Hmax.
  - unfold Math_max. rewrite num_leb_Fin.
    destruct (Qle_bool 100 q) eqn:Hmin.
    + exists q. split; [reflexivity|]. split; now apply Qle_bool_iff.
    + exists 100%Q. split; [reflexivity|]. split; [apply Qle_refl | discriminate].
  - exists 320%Q. split; [reflexivity|]. split; [discriminate | apply Qle_refl].
Qed.

Lemma in_range_Fin (r : Q) : (100 <= r)%Q -> (r <= 320)%Q -> in_range (Fin r) = true.
Proof.
  intros Hlo Hhi. unfold in_range, MIN_THUMBNAIL_SIZE, MAX_THUMBNAIL_SIZE.
  rewrite !num_leb_Fin. apply andb_true_intro. split; now apply Qle_bool_iff.
Qed.

Lemma clampThumbnailSize_in_range (v : number) :
  v <> NaN -> in_range (clampThumbnailSize v) = true.
Proof.
  intros Hv. destruct v as [q | | |]; [| congruence | reflexivity | reflexivity].
  destruct (clampThumbnailSize_Fin q) as (r & -> & Hlo & Hhi). now apply in_range_Fin.
Qed.

Lemma clampThumbnailSize_id (u : number) :
  in_range u = true -> clampThumbnailSize u = u.
Proof.
  unfold in_range, clampThumbnailSize, MIN_THUMBNAIL_SIZE, MAX_THUMBNAIL_SIZE.
  destruct u as [q | | |]; try discriminate.
  intros [Hlo Hhi]%andb_prop. rewrite num_leb_Fin in Hlo, Hhi.
  unfold Math_min. rewrite num_leb_Fin, Hhi.
  unfold Math_max. now rewrite num_leb_Fin, Hlo.
Qed.

Lemma initialSize_in_range (window_defined : bool) (item : value) :
  in_range (ThumbnailSize.initialSize window_defined item) = true.
Proof.
  unfold ThumbnailSize.initialSize.
  destruct window_defined; [| reflexivity]. simpl.
  destruct (ToNumber item) as [q | | |]; try reflexivity.
  simpl. now apply clampThumbnailSize_in_range.
Qed.

Lemma setThumbnailSize_persisted (value : value) (h : ThumbnailSize.hook) :
  ThumbnailSize.persisted h ->
  ToNumber value <> NaN -> ThumbnailSize.persisted (ThumbnailSize.setThumbnailSize value h).
Proof.
  intros Hh Hv. unfold ThumbnailSize.setThumbnailSize, Number_.
  destruct (convertible value); [| exact Hh].
  split; [| reflexivity]. simpl. now apply clampThumbnailSize_in_range.
Qed.

Lemma after_persisted (item : value) (values : list value) :
  Forall (fun x => ToNumber x <> NaN) values ->
  ThumbnailSize.persisted (ThumbnailSize.after item values).
Proof.
  unfold ThumbnailSize.after.
  assert (Hmount : ThumbnailSize.persisted (ThumbnailSize.mount item)).
  { split; [| reflexivity]. apply initialSize_in_range. }
  revert Hmount. generalize (ThumbnailSize.mount item) as h.
  induction values as [| v values IH]; intros h Hh Hall; [exact Hh |].
  inversion Hall; subst. simpl. apply IH; [| assumption].
  now apply setThumbnailSize_persisted.
Qed.

Lemma String_convertible (v : value) :
  convertible v = true -> String_ v = Normal (ToString v).
Proof. intros Hv. unfold String_. now rewrite Hv. Qed.

Lemma String_throws (v : value) :
  convertible v = false -> String_ v = Throw TypeError.
Proof. intros Hv. unfold String_. now rewrite Hv. Qed.

Lemma map_String_spec (entries : list value) :
  map_String entries
  = if forallb convertible entries then Normal (map ToString entries) else Throw TypeError.
Proof.
  induction entries as [| entry rest IH]; [reflexivity |].
  cbn [map_String forallb map]. unfold String_ at 1.
  destruct (convertible entry); [| reflexivity]. cbn [bind andb].
  rewrite IH. now destruct (forallb convertible rest).
Qed.

(** C10 (amended): [getDroppedPaths] returns the strings of the dropped
    paths or throws a TypeError.  Of a payload that is an array it returns
    the strings of the entries, of an object whose [paths] is an array the
    strings of the entries of [paths], and it throws exactly when one of
    these entries has no conversion to a string; for every other payload
    it returns no path at all. *)
Theorem getDroppedPaths_converts_or_throws (payload : value) :
  getDroppedPaths payload =
  match payload with
  | Arr elems =>
      if forallb convertible elems then Normal (map ToString elems) else Throw TypeError
  | Obj fields =>
      match lookup_field "paths" fields with
      | Some (Arr elems) =>
          if forallb convertible elems then Normal (map ToString elems) else Throw TypeError
      | _ => Normal []
      end
  | _ => Normal []
  end.
Proof.
  destruct payload as [| | b | n | s | elems | fields]; try reflexivity.
  - unfold getDroppedPaths. simpl. now destruct b.
  - unfold getDroppedPaths. simpl. now rewrite orb_true_r.
  - unfold getDroppedPaths. simpl. now rewrite orb_true_r.
  - unfold getDroppedPaths. cbn [Array_isArray Array_elems]. apply map_String_spec.
  - unfold getDroppedPaths. cbn [Array_isArray ToBoolean typeof_object negb orb get bind].
    destruct (lookup_field "paths" fields) as [[]|]; try reflexivity.
    cbn [default Array_isArray Array_elems]. apply map_String_spec.
Qed.

(** C8 (amended): the clamp maps every Number other than NaN into the
    range from 100 to 320 and fixes the Numbers of that range; the initial
    size is always in the range, and so are the size and the stored string
    after any calls of the setter whose arguments convert to a Number other
    than NaN. *)
Theorem thumbnail_size_in_range
    (v u : number) (window_defined : bool) (item : value) (values : list value) :
  v <> NaN ->
  in_range u = true ->
  Forall (fun x => ToNumber x <> NaN) values ->
  in_range (clampThumbnailSize v) = true
  /\ clampThumbnailSize u = u
  /\ in_range (ThumbnailSize.initialSize window_defined item) = true
  /\ in_range (ThumbnailSize.thumbnailSize (ThumbnailSize.after item values)) = true
  /\ ThumbnailSize.stored (ThumbnailSize.after item values)
     = Str (number_to_string (ThumbnailSize.thumbnailSize (ThumbnailSize.after item values))).
Proof.
  intros Hv Hu Hall.
  split; [now apply clampThumbnailSize_in_range |].
  split; [now apply clampThumbnailSize_id |].
  split; [apply initialSize_in_range |].
  now apply after_persisted.
Qed.

End GalleryFacts.

(** ** src/hooks/useGallery.js: run tokens *)

Section UseGalleryFacts.
Context `{NumberConv}.
Import UseGallery.

Lemma loadGallery_finally_stale (runId : nat) (st : state) :
  runId <> loadRunIdRef st -> loadGallery_finally runId st = st.
Proof.
  intros Hne. unfold loadGallery_finally.
  now destruct (Nat.eqb_spec runId (loadRunIdRef st)).
Qed.

(** A continuation whose run id is not the current one changes nothing. *)
Lemma loadGallery_settled_stale (runId : nat) (r : settled) (st : state) :
  runId <> loadRunIdRef st -> loadGallery_settled runId r st = st.
Proof.
  intros Hne. unfold loadGallery_settled.
  destruct r; destruct (Nat.eqb_spec runId (loadRunIdRef st)); try contradiction;
    now apply loadGallery_finally_stale.
Qed.

Lemma loadGallery_settled_ref (runId : nat) (r : settled) (st : state) :
  loadRunIdRef (loadGallery_settled runId r st) = loadRunIdRef st.
Proof.
  unfold loadGallery_settled, loadGallery_finally.
  destruct r as [response | e]; destruct (Nat.eqb_spec runId (loadRunIdRef st)); simpl;
    try destruct (String_ e); simpl;
    repeat (match goal with |- context [if ?c then _ else _] => destruct c end; simpl);
    reflexivity.
Qed.

Lemma loadGallery_call_token (tauri : bool) (folder : value) (st : state) :
  loadGallery_call tauri folder st
  = if tauri then
      ((loadGallery_call true folder st).1,
       if convertible folder then Some (S (loadRunIdRef st)) else None)
    else (setError "Tauri API unavailable. Start with `npm run tauri dev`." st, None).
Proof.
  destruct tauri; [| reflexivity]. unfold loadGallery_call, String_. cbn [negb].
  destruct (convertible folder); cbn [fst]; now rewrite Nat.add_1_r.
Qed.

Lemma loadGallery_call_ref (folder : value) (st : state) :
  loadRunIdRef (loadGallery_call true folder st).1 = S (loadRunIdRef st).
Proof.
  unfold loadGallery_call, String_. cbn [negb].
  destruct (convertible folder); cbn; now rewrite Nat.add_1_r.
Qed.

(** A call in the Tauri run time leaves the hook loading, whether or not
    it reaches the backend. *)
Lemma loadGallery_call_loading (folder : value) (st : state) :
  loading (loadGallery_call true folder st).1 = true.
Proof.
  unfold loadGallery_call, String_. cbn [negb]. now destruct (convertible folder).
Qed.

Lemma step_call_hook (tauri : bool) (s : sys) (folder : value) :
  hook (step tauri s (Call folder)) = (loadGallery_call tauri folder (hook s)).1.
Proof. cbn [step]. now destruct (loadGallery_call tauri folder (hook s)). Qed.

Lemma step_call_inflight (tauri : bool) (s : sys) (folder : value) :
  inflight (step tauri s (Call folder))
  = (inflight s ++ option_list (loadGallery_call tauri folder (hook s)).2)%list.
Proof. cbn [step]. now destruct (loadGallery_call tauri folder (hook s)). Qed.

Lemma step_ref_mono (tauri : bool) (s : sys) (e : event) :
  loadRunIdRef (hook s) <= loadRunIdRef (hook (step tauri s e)).
Proof.
  destruct e as [folder | runId r].
  - rewrite step_call_hook. destruct tauri; [rewrite loadGallery_call_ref | cbn]; lia.
  - cbn [step]. case_bool_decide; cbn [hook]; [rewrite loadGallery_settled_ref |]; lia.
Qed.

Lemma run_cons (tauri : bool) (e : event) (evs : list event) (s : sys) :
  run tauri s (e :: evs) = run tauri (step tauri s e) evs.
Proof. reflexivity. Qed.

Lemma run_app (tauri : bool) (evs evs' : list event) (s : sys) :
  run tauri s (evs ++ evs') = run tauri (run tauri s evs) evs'.
Proof. apply fold_left_app. Qed.

Lemma run_ref_mono (tauri : bool) (evs : list event) (s : sys) :
  loadRunIdRef (hook s) <= loadRunIdRef (hook (run tauri s evs)).
Proof.
  revert s. induction evs as [| e evs IH]; intros s; [reflexivity |].
  rewrite run_cons. etransitivity; [apply (step_ref_mono tauri s e) | apply IH].
Qed.

Lemma step_inflight_bounded (tauri : bool) (s : sys) (e : event) :
  inflight_bounded s -> inflight_bounded (step tauri s e).
Proof.
  unfold inflight_bounded. intros Hb. destruct e as [folder | runId r].
  - rewrite step_call_hook, step_call_inflight, loadGallery_call_token.
    destruct tauri; cbn [fst snd].
    + rewrite loadGallery_call_ref. apply Forall_app. split.
      * eapply Forall_impl; [exact Hb |]. simpl. intros; lia.
      * destruct (convertible folder); repeat constructor; lia.
    + now rewrite app_nil_r.
  - cbn [step]. case_bool_decide; simpl; [| exact Hb].
    rewrite loadGallery_settled_ref. rewrite Forall_forall in Hb |- *.
    intros k [_ Hk]%list_elem_of_filter. now apply Hb.
Qed.

Lemma run_inflight_bounded (tauri : bool) (evs : list event) (s : sys) :
  inflight_bounded s -> inflight_bounded (run tauri s evs).
Proof.
  revert s. induction evs as [| e evs IH]; intros s Hb; [exact Hb |].
  rewrite run_cons. apply IH. now apply step_inflight_bounded.
Qed.

Lemma inflight_tauri (tauri : bool) (evs : list event) :
  inflight (run tauri start evs) <> [] -> tauri = true.
Proof.
  destruct tauri; [reflexivity |]. intros Hne. exfalso. apply Hne. clear Hne.
  unfold start. generalize initial as st. induction evs as [| e evs IH]; intros st; [reflexivity |].
  rewrite run_cons. destruct e as [folder | runId r]; simpl; apply IH.
Qed.


(** Every token handed out is above the counter of the state before. *)
Lemma issued_above (tauri : bool) (evs : list event) (s : sys) :
  Forall (fun k => loadRunIdRef (hook s) < k) (issued tauri s evs).
Proof.
  revert s. induction evs as [| e evs IH]; intros s; cbn [issued]; [constructor |].
  apply Forall_app. split.
  - destruct e as [folder | runId r]; [| constructor].
    rewrite loadGallery_call_token.
    destruct tauri; cbn; [destruct (convertible folder) |]; repeat constructor.
  - eapply Forall_impl; [apply IH |]. cbn beta. intros k Hk.
    pose proof (step_ref_mono tauri s e). lia.
Qed.

Lemma issued_sorted (tauri : bool) (evs : list event) (s : sys) :
  StronglySorted lt (issued tauri s evs).
Proof.
  revert s. induction evs as [| e evs IH]; intros s; cbn [issued]; [constructor |].
  destruct e as [folder | runId r]; [| apply IH].
  rewrite loadGallery_call_token.
  destruct tauri; cbn [snd option_list app]; [| apply IH].
  destruct (convertible folder); cbn [option_list app]; [| apply IH].
  constructor; [apply IH |].
  eapply Forall_impl; [apply issued_above |]. cbn beta.
  rewrite step_call_hook, loadGallery_call_ref. intros; lia.
Qed.

Lemma StronglySorted_lt_NoDup (l : list nat) : StronglySorted lt l -> NoDup l.
Proof.
  induction 1 as [| k l Hl IH Hk]; constructor; [| exact IH].
  intros Hin. rewrite Forall_forall in Hk. specialize (Hk _ Hin). lia.
Qed.

(** The response of a scan that a later call of [loadGallery] has
    superseded is dropped: the state of the hook is as before. *)
Lemma superseded_scan_dropped (tauri : bool) (evs1 evs2 : list event)
    (folder : value) (runId : nat) (r : settled) :
  runId ∈ inflight (run tauri start evs1) ->
  hook (step tauri (run tauri start (evs1 ++ Call folder :: evs2)) (Settle runId r))
  = hook (run tauri start (evs1 ++ Call folder :: evs2)).
Proof.
  intros Hin.
  assert (tauri = true) as ->.
  { apply (inflight_tauri _ evs1). intros Hnil. rewrite Hnil in Hin.
    now apply not_elem_of_nil in Hin. }
  assert (Hb : runId <= loadRunIdRef (hook (run true start evs1))).
  { pose proof (run_inflight_bounded true evs1 start) as Hb.
    unfold inflight_bounded in Hb. rewrite !Forall_forall in Hb.
    apply Hb; [| exact Hin]. intros k Hk. now apply not_elem_of_nil in Hk. }
  rewrite run_app, run_cons.
  set (s1 := run true start evs1) in *.
  pose proof (run_ref_mono true evs2 (step true s1 (Call folder))) as Hmono.
  rewrite step_call_hook, loadGallery_call_ref in Hmono.
  set (s2 := run true (step true s1 (Call folder)) evs2) in *.
  cbn [step]. case_bool_decide; [| reflexivity].
  cbn [hook]. apply loadGallery_settled_stale. lia.
Qed.

(** C3: every call of [loadGallery] in the Tauri run time moves the
    run-id counter up by one before it invokes, and takes the new value as
    its token; it reaches the backend unless the folder has no conversion
    to a string, in which case the counter has moved all the same.  So the
    tokens handed out along any sequence of calls and settlements are
    strictly increasing, and no two calls share one.  The counter of
    App.jsx moves the same way and never goes down. *)
Theorem run_ids_strictly_increase
    (tauri : bool) (folder : value) (st : state) (s : sys) (evs : list event)
    (st' : App.state) (s' : App.sys) (e' : App.event) :
  (loadGallery_call true folder st).2
  = (if convertible folder then Some (S (loadRunIdRef st)) else None)
  /\ loadRunIdRef (loadGallery_call true folder st).1 = S (loadRunIdRef st)
  /\ StronglySorted lt (issued tauri s evs)
  /\ NoDup (issued tauri s evs)
  /\ Forall (fun k => loadRunIdRef (hook s) < k) (issued tauri s evs)
  /\ App.hydrationRunIdRef (App.loadGallery_call true folder st').1
     = S (App.hydrationRunIdRef st')
  /\ App.hydrationRunIdRef (App.app s')
     <= App.hydrationRunIdRef (App.app (App.step tauri s' e')).
Proof.
  split; [now rewrite loadGallery_call_token |].
  split; [apply loadGallery_call_ref |].
  split; [apply issued_sorted |].
  split; [apply StronglySorted_lt_NoDup, issued_sorted |].
  split; [apply issued_above |].
  split.
  - unfold App.loadGallery_call, String_. cbn [negb].
    destruct (convertible folder); cbn; now rewrite Nat.add_1_r.
  - destruct e' as [folder' | r | h w r]; cbn [App.step].
    + unfold App.loadGallery_call, String_.
      destruct tauri; cbn [negb]; [destruct (convertible folder') |]; cbn; lia.
    + destruct (App.scans s'); [lia |].
      unfold App.loadGallery_settled. destruct r as [response | e]; cbn.
      * destruct (ToBoolean _); cbn; lia.
      * destruct (String_ e); cbn; lia.
    + destruct (App.hydrations s' !! h) as [b |]; [| lia].
      destruct (App.thumbnail_settled _ _ b w r). cbn. lia.
Qed.

(** C5 (amended): when [load_gallery] rejects for the run that is the
    current one, the hook shows no item and no thumbnail, the status
    'Failed to load folder.', and is no longer loading; it shows the error
    as a string when the error has a conversion to one, and the error it
    showed before when it has none.  [loadGallery] of App.jsx, which has no
    run id for its scans, shows no item, the same status and the error in
    the same way at every rejection; its [catch] block leaves the thumbnail
    map as it is, and no hydration is started. *)
Theorem failed_scan_reported
    (runId : nat) (invokeError : value) (st : state) (st' : App.state) :
  runId = loadRunIdRef st ->
  loadGallery_settled runId (Rejected invokeError) st
  = State [] "Failed to load folder." false "Loading images..."
          (if convertible invokeError then ToString invokeError else error st)
          (Obj []) (loadRunIdRef st)
  /\ App.loadGallery_settled (Rejected invokeError) st'
     = (App.State [] "Failed to load folder." false "Loading images..."
                  (if convertible invokeError then ToString invokeError
                   else App.error st')
                  (App.thumbnailDataByPath st') (App.hydrationRunIdRef st'),
        None).
Proof.
  intros ->. split.
  - unfold loadGallery_settled, loadGallery_finally, String_. rewrite Nat.eqb_refl.
    cbn [negb]. destruct (convertible invokeError); cbn; now rewrite Nat.eqb_refl.
  - unfold App.loadGallery_settled, String_. now destruct (convertible invokeError).
Qed.

(** C6: a response of the current run whose [cancelled] is [true] shows
    its items and the status 'Stopped. Loaded N before cancel.'; one whose
    [cancelled] is absent or [false] shows its items and the status
    'Loaded N.'; neither records an error. *)
Theorem cancelled_scan_reported
    (runId : nat) (st : state) (stopped loaded : list (string * value))
    (processed all : list value) :
  runId = loadRunIdRef st ->
  lookup_field "cancelled" stopped = Some (Bool true) ->
  lookup_field "items" stopped = Some (Arr processed) ->
  lookup_field "cancelled" loaded = None \/
    lookup_field "cancelled" loaded = Some (Bool false) ->
  lookup_field "items" loaded = Some (Arr all) ->
  items (loadGallery_settled runId (Resolved (Obj stopped)) st) = processed
  /\ status (loadGallery_settled runId (Resolved (Obj stopped)) st)
     = "Stopped. Loaded " ++ formatImageCount (of_nat (length processed)) ++ " before cancel."
  /\ error (loadGallery_settled runId (Resolved (Obj stopped)) st) = error st
  /\ items (loadGallery_settled runId (Resolved (Obj loaded)) st) = all
  /\ status (loadGallery_settled runId (Resolved (Obj loaded)) st)
     = "Loaded " ++ formatImageCount (of_nat (length all)) ++ "."
  /\ error (loadGallery_settled runId (Resolved (Obj loaded)) st) = error st.
Proof.
  intros -> Hstop Hitems Hloaded Hall.
  unfold loadGallery_settled, loadGallery_finally, get_opt, get.
  rewrite Nat.eqb_refl. cbn [negb]. rewrite Hstop, Hitems, Hall. cbn.
  rewrite Nat.eqb_refl. cbn.
  repeat (split; [reflexivity |]).
  destruct Hloaded as [-> | ->]; cbn; rewrite Nat.eqb_refl; cbn; auto.
Qed.

End UseGalleryFacts.

(** ** src/App.jsx: the worker pool *)

Section HydrationFacts.
Context `{NumberConv}.
Import App.

Lemma drop_cons_inv {A} (l rest : list A) (x : A) (n : nat) :
  drop n l = x :: rest -> l !! n = Some x /\ drop (S n) l = rest.
Proof.
  intros Hd.
  assert (Hx : l !! n = Some x).
  { rewrite <- (Nat.add_0_r n), <- lookup_drop, Hd. reflexivity. }
  split; [exact Hx |].
  rewrite (drop_S _ _ _ Hx) in Hd. congruence.
Qed.

(** What a worker finds when it runs its loop from the cursor [c]. *)
Lemma worker_loop_spec (current rid : nat) (items : list value) (c : nat)
    (inv : list (nat * value)) :
  match worker_loop current rid (drop c items) c inv with
  | (c', inv', w) =>
      c <= c' /\ (c <= length items -> c' <= length items) /\
      (forall j item path,
          c <= j < c' -> items !! j = Some item -> get item "path" = Normal path ->
          (j, path) ∈ inv') /\
      match w with
      | Awaiting index item =>
          c <= index /\ index < c' /\ rid = current /\
          items !! index = Some item /\
          exists path, get item "path" = Normal path /\ inv' = (inv ++ [(index, path)])%list
      | Returned => inv' = inv /\ (rid = current -> length items <= c')
      | Failed _ => False
      end
  end.
Proof.
  remember (drop c items) as rest eqn:Hrest. symmetry in Hrest.
  revert c Hrest. induction rest as [| item rest IH]; intros c Hrest; cbn [worker_loop].
  - apply drop_nil_inv in Hrest. repeat split; auto with lia.
  - apply drop_cons_inv in Hrest as [Hitem Hrest].
    pose proof (lookup_lt_Some _ _ _ Hitem) as Hlt.
    destruct (Nat.eqb_spec rid current) as [-> | Hne]; cbn [negb].
    + destruct (get item "path") as [path | e] eqn:Hget.
      * repeat split; auto with lia.
        -- intros j item' path' Hj Hitem' Hget'.
           assert (j = c) as -> by lia.
           rewrite Hitem in Hitem'. injection Hitem' as <-.
           rewrite Hget in Hget'. injection Hget' as <-.
           apply elem_of_app. right. now apply list_elem_of_singleton.
        -- exists path. auto.
      * rewrite Nat.add_1_r. specialize (IH (S c) Hrest).
        destruct (worker_loop current current rest (S c) inv) as [[c' inv'] w].
        destruct IH as (Hle & Hlen & Hskip & Hw).
        split; [lia |]. split; [auto with lia |]. split.
        -- intros j item' path' Hj Hitem' Hget'.
           destruct (decide (j = c)) as [-> | Hjc].
           ++ rewrite Hitem in Hitem'. injection Hitem' as <-. congruence.
           ++ apply (Hskip j item' path'); auto with lia.
        -- destruct w as [index it | |]; [| exact Hw | exact Hw].
           destruct Hw as (? & ? & ? & ? & ?). repeat split; auto with lia.
    + repeat split; auto with lia.
Qed.

Lemma StronglySorted_lt_snoc (l : list nat) (n : nat) :
  StronglySorted lt l -> Forall (fun k => k < n) l -> StronglySorted lt (l ++ [n]).
Proof.
  induction 1 as [| k l Hl IH Hk]; intros Hall; cbn.
  - repeat constructor.
  - inversion Hall; subst. constructor; [now apply IH |].
    apply Forall_app. split; [exact Hk | repeat constructor; assumption].
Qed.

Lemma worker_ok_mono (b b' : batch) (w : worker) :
  galleryItems b' = galleryItems b -> cursor b <= cursor b' ->
  worker_ok b w -> worker_ok b' w.
Proof.
  intros Hitems Hc. destruct w as [index item | |]; cbn; [| trivial | trivial].
  rewrite Hitems. intros [? ?]. split; [assumption | lia].
Qed.

(** A worker that runs its loop keeps the invariant, and its promise is
    one the invariant admits. *)
Lemma worker_resume_ok (current : nat) (b : batch) :
  batch_ok b ->
  galleryItems (worker_resume current b).1 = galleryItems b /\
  runId (worker_resume current b).1 = runId b /\
  workers (worker_resume current b).1 = workers b /\
  outcomes (worker_resume current b).1 = outcomes b /\
  cursor b <= cursor (worker_resume current b).1 /\
  batch_ok (worker_resume current b).1 /\
  worker_ok (worker_resume current b).1 (worker_resume current b).2 /\
  match (worker_resume current b).2 with
  | Awaiting index item => cursor b < cursor (worker_resume current b).1 /\ runId b = current
  | _ => runId b = current -> cursor (worker_resume current b).1 = length (galleryItems b)
  end.
Proof.
  intros [Hc Hinv Hsorted Htaken Hws]. unfold worker_resume.
  pose proof (worker_loop_spec current (runId b) (galleryItems b) (cursor b) (invoked b)) as Hspec.
  destruct (worker_loop current (runId b) (drop (cursor b) (galleryItems b))
              (cursor b) (invoked b)) as [[c' inv'] w].
  destruct Hspec as (Hle & Hlen & Hskip & Hw). specialize (Hlen Hc). cbn.
  repeat (split; [first [reflexivity | assumption] |]).
  assert (Hinv' : Forall (fun ip => ip.1 < c' /\
            exists item, galleryItems b !! ip.1 = Some item /\ get item "path" = Normal ip.2)
            (invoked b)).
  { eapply Forall_impl; [exact Hinv |]. cbn. intros ip [? ?]. split; [lia | assumption]. }
  assert (Htaken' : forall j item path, j < c' -> galleryItems b !! j = Some item ->
            get item "path" = Normal path -> (j, path) ∈ inv').
  { intros j item path Hj Hitem Hget. destruct (decide (j < cursor b)) as [Hlt | Hge].
    - assert (Hin : (j, path) ∈ invoked b) by eauto.
      destruct w as [index it | |]; [| now destruct Hw as [-> _] | contradiction].
      destruct Hw as (_ & _ & _ & _ & p & _ & ->). apply elem_of_app. now left.
    - apply (Hskip j item path); auto with lia. }
  destruct w as [index item | |]; [| | contradiction].
  - destruct Hw as (Hci & Hic & Hrid & Hitem & path & Hget & ->).
    split; [| split; [cbn; auto | split; [lia | assumption]]].
    constructor; cbn; [assumption | | | assumption |].
    + apply Forall_app. split; [exact Hinv' |]. repeat constructor; cbn; eauto.
    + rewrite fmap_app. cbn. apply StronglySorted_lt_snoc; [exact Hsorted |].
      apply Forall_fmap. eapply Forall_impl; [exact Hinv |]. cbn. intros ip [? ?]. lia.
    + eapply Forall_impl; [exact Hws |]. intros w. now apply worker_ok_mono.
  - destruct Hw as [-> Hdone].
    split; [| split; [exact I | intros Hrid; specialize (Hdone Hrid); lia]].
    constructor; cbn; [assumption | assumption | assumption | assumption |].
    eapply Forall_impl; [exact Hws |]. intros w. now apply worker_ok_mono.
Qed.

Lemma batch_ok_workers (b : batch) (ws : list worker) (outs : list (nat * settled)) :
  batch_ok b -> Forall (worker_ok b) ws ->
  batch_ok (Batch (galleryItems b) (runId b) (cursor b) ws (invoked b) outs).
Proof. intros [? ? ? ? ?] Hws. constructor; assumption. Qed.

Lemma record_outcome_ok (index : nat) (r : settled) (b : batch) :
  batch_ok b -> batch_ok (record_outcome index r b).
Proof. intros Hok. apply batch_ok_workers; [exact Hok | apply Hok]. Qed.

Lemma set_worker_ok (w : nat) (wk : worker) (b : batch) :
  batch_ok b -> worker_ok b wk -> batch_ok (set_worker w wk b).
Proof.
  intros Hok Hwk. apply batch_ok_workers; [exact Hok |].
  apply Forall_insert; [apply Hok | exact Hwk].
Qed.

Lemma worker_call_unfold (current : nat) (b : batch) :
  worker_call current b =
  Batch (galleryItems (worker_resume current b).1) (runId (worker_resume current b).1)
        (cursor (worker_resume current b).1)
        (workers (worker_resume current b).1 ++ [(worker_resume current b).2])
        (invoked (worker_resume current b).1) (outcomes (worker_resume current b).1).
Proof. unfold worker_call. now destruct (worker_resume current b). Qed.

Lemma worker_call_ok (current : nat) (b : batch) :
  batch_ok b -> batch_ok (worker_call current b).
Proof.
  intros Hok. rewrite worker_call_unfold.
  destruct (worker_resume_ok current b Hok) as (_ & _ & Hws & _ & _ & Hok' & Hwk & _).
  apply (batch_ok_workers _ _ _ Hok'). apply Forall_app. split.
  - apply Hok'.
  - repeat constructor. exact Hwk.
Qed.

Lemma thumbnail_settled_unfold (current : nat) (thumbnails : gmap string string)
    (b : batch) (w index : nat) (item : value) (r : settled) :
  workers b !! w = Some (Awaiting index item) ->
  thumbnail_settled current thumbnails b w r =
  match r with
  | Resolved dataUrl =>
      if (runId b =? current)%nat then
        (setThumbnailDataByPath_updater (mergeThumbnail item dataUrl thumbnails) thumbnails,
         set_worker w (worker_resume current (record_outcome index r b)).2
                    (worker_resume current (record_outcome index r b)).1)
      else (thumbnails, set_worker w Returned (record_outcome index r b))
  | Rejected _ =>
      (thumbnails,
       set_worker w (worker_resume current (record_outcome index r b)).2
                  (worker_resume current (record_outcome index r b)).1)
  end.
Proof.
  intros Hw. unfold thumbnail_settled. rewrite Hw.
  destruct r as [dataUrl | e]; cbn [runId record_outcome].
  - destruct (runId b =? current)%nat; cbn [negb]; [| reflexivity].
    now destruct (worker_resume current _).
  - now destruct (worker_resume current _).
Qed.

Lemma thumbnail_settled_idle (current : nat) (thumbnails : gmap string string)
    (b : batch) (w : nat) (r : settled) :
  (forall index item, workers b !! w <> Some (Awaiting index item)) ->
  thumbnail_settled current thumbnails b w r = (thumbnails, b).
Proof.
  intros Hw. unfold thumbnail_settled.
  destruct (workers b !! w) as [[index item | |] |]; try reflexivity.
  now destruct (Hw index item).
Qed.

Lemma worker_cases (b : batch) (w : nat) :
  (exists index item, workers b !! w = Some (Awaiting index item)) \/
  (forall index item, workers b !! w <> Some (Awaiting index item)).
Proof.
  destruct (workers b !! w) as [[index item | |] |]; eauto; right; congruence.
Qed.

(** Settling an invocation keeps the invariant of the closure. *)
Lemma thumbnail_settled_ok (current : nat) (thumbnails : gmap string string)
    (b : batch) (w : nat) (r : settled) :
  batch_ok b -> batch_ok (thumbnail_settled current thumbnails b w r).2.
Proof.
  intros Hok. destruct (worker_cases b w) as [(index & item & Hw) | Hidle];
    [| now rewrite thumbnail_settled_idle].
  rewrite (thumbnail_settled_unfold _ _ _ _ _ _ _ Hw).
  pose proof (record_outcome_ok index r b Hok) as Hok1.
  destruct (worker_resume_ok current _ Hok1) as (_ & _ & _ & _ & _ & Hok2 & Hwk & _).
  destruct r as [dataUrl | e]; [destruct (runId b =? current)%nat |]; cbn [snd];
    now apply set_worker_ok.
Qed.

Lemma thumbnail_settled_frame (current : nat) (thumbnails : gmap string string)
    (b : batch) (w : nat) (r : settled) :
  galleryItems (thumbnail_settled current thumbnails b w r).2 = galleryItems b /\
  runId (thumbnail_settled current thumbnails b w r).2 = runId b /\
  length (workers (thumbnail_settled current thumbnails b w r).2) = length (workers b).
Proof.
  destruct (worker_cases b w) as [(index & item & Hw) | Hidle];
    [| now rewrite thumbnail_settled_idle].
  rewrite (thumbnail_settled_unfold _ _ _ _ _ _ _ Hw).
  assert (Hframe : forall b0, galleryItems (worker_resume current b0).1 = galleryItems b0 /\
                              runId (worker_resume current b0).1 = runId b0 /\
                              workers (worker_resume current b0).1 = workers b0).
  { intros b0. unfold worker_resume. now destruct (worker_loop _ _ _ _ _) as [[? ?] ?]. }
  destruct (Hframe (record_outcome index r b)) as (Hi & Hr & Hws).
  destruct r as [dataUrl | e]; [destruct (runId b =? current)%nat |]; cbn [snd set_worker
    galleryItems runId workers]; rewrite ?length_insert, ?Hi, ?Hr, ?Hws; auto.
Qed.

(** [hydrateThumbnails] spawns [min(6, length)] workers. *)
Lemma hydrateThumbnails_ok (current : nat) (items : list value) (rid : nat) :
  batch_ok (hydrateThumbnails current items rid) /\
  length (workers (hydrateThumbnails current items rid)) = Nat.min maxConcurrent (length items) /\
  galleryItems (hydrateThumbnails current items rid) = items /\
  runId (hydrateThumbnails current items rid) = rid /\
  outcomes (hydrateThumbnails current items rid) = [] /\
  awaiting_count (workers (hydrateThumbnails current items rid))
    <= cursor (hydrateThumbnails current items rid).
Proof.
  unfold hydrateThumbnails. generalize (Nat.min maxConcurrent (length items)) as n.
  induction n as [| n (Hok & Hlen & Hitems & Hrid & Houts & Haw)].
  - split; [| cbn; auto]. constructor; cbn; auto with lia; try constructor.
  - rewrite Nat.iter_succ.
    set (b := Nat.iter n (worker_call current) (Batch items rid 0 [] [] [])) in *.
    destruct (worker_resume_ok current b Hok) as (Hi & Hr & Hws & Ho & Hc & _ & _ & Hwk).
    split; [now apply worker_call_ok |].
    rewrite worker_call_unfold. cbn. rewrite Hi, Hr, Hws, Ho, length_app, Hlen. cbn.
    repeat (split; [first [assumption | lia] |]).
    unfold awaiting_count in *. rewrite sum_list_with_app. cbn.
    destruct (worker_resume current b).2 as [index item | |]; cbn.
    + destruct Hwk as [Hlt _]. lia.
    + lia.
    + lia.
Qed.

Lemma sum_list_with_insert {A} (f : A -> nat) (l : list A) (i : nat) (x y : A) :
  l !! i = Some x ->
  sum_list_with f (<[i := y]> l) + f x = sum_list_with f l + f y.
Proof.
  revert i. induction l as [| z l IH]; intros i Hi; [discriminate |].
  destruct i as [| i].
  - injection Hi as ->. change (f y + sum_list_with f l + f x = f x + sum_list_with f l + f y). lia.
  - specialize (IH i Hi).
    change (f z + sum_list_with f (<[i := y]> l) + f x = f z + sum_list_with f l + f y). lia.
Qed.

Lemma awaiting_count_insert (ws : list worker) (w : nat) (old new : worker) :
  ws !! w = Some old ->
  awaiting_count (<[w := new]> ws) + (if is_awaiting old then 1 else 0)
  = awaiting_count ws + (if is_awaiting new then 1 else 0).
Proof.
  intros Hw. unfold awaiting_count.
  exact (sum_list_with_insert (fun w => if is_awaiting w then 1 else 0) ws w old new Hw).
Qed.

(** Each settled invocation uses up some of the pending work. *)
Lemma thumbnail_settled_progress (current : nat) (thumbnails : gmap string string)
    (b : batch) (w : nat) (r : settled) (wk : worker) :
  batch_ok b -> workers b !! w = Some wk -> is_awaiting wk = true ->
  pending_work (thumbnail_settled current thumbnails b w r).2 < pending_work b.
Proof.
  intros Hok Hw Haw. destruct wk as [index item | |]; try discriminate.
  rewrite (thumbnail_settled_unfold _ _ _ _ _ _ _ Hw).
  pose proof (record_outcome_ok index r b Hok) as Hok1.
  destruct (worker_resume_ok current _ Hok1) as (Hi & _ & Hws & _ & Hc & Hok2 & _ & Hwk).
  pose proof (cursor_bounded _ Hok2) as Hc2. rewrite Hi in Hc2. cbn in Hc, Hc2, Hws, Hi.
  assert (Hresumed :
    pending_work (set_worker w (worker_resume current (record_outcome index r b)).2
                             (worker_resume current (record_outcome index r b)).1)
    < pending_work b).
  { unfold pending_work. cbn [set_worker galleryItems cursor workers]. rewrite Hi, Hws.
    pose proof (awaiting_count_insert (workers b) w _
                  (worker_resume current (record_outcome index r b)).2 Hw) as Hcount.
    cbn in Hcount.
    destruct (worker_resume current (record_outcome index r b)).2 as [i it | |];
      cbn in Hcount; [destruct Hwk as [Hlt _]; cbn in Hlt |..]; lia. }
  destruct r as [dataUrl | e]; [destruct (runId b =? current)%nat |]; cbn [snd];
    try exact Hresumed.
  unfold pending_work. cbn [set_worker record_outcome galleryItems cursor workers].
  pose proof (awaiting_count_insert (workers b) w _ Returned Hw) as Hcount.
  cbn in Hcount. lia.
Qed.

Lemma Promise_all_not_rejected (b : batch) (ws : list worker) (e : value) :
  Forall (worker_ok b) ws -> Promise_all ws <> Some (Throw e).
Proof.
  induction 1 as [| w ws Hw Hws IH]; cbn; [discriminate |].
  destruct w as [index item | |]; cbn in Hw; [| exact IH | contradiction].
  destruct (Promise_all ws) as [[[] | e'] |]; try discriminate.
  intros [= ->]. now apply IH.
Qed.

Lemma Promise_all_pending (ws : list worker) :
  Promise_all ws = None -> exists w index item, ws !! w = Some (Awaiting index item).
Proof.
  induction ws as [| wk ws IH]; cbn; [discriminate |].
  destruct wk as [index item | | e]; [| | discriminate].
  - intros _. now exists 0, index, item.
  - intros (w & ? & ? & ?)%IH. exists (S w). eauto.
Qed.

Lemma Promise_all_fulfilled (ws : list worker) (u : unit) :
  Promise_all ws = Some (Normal u) -> Forall (fun wk => wk = Returned) ws.
Proof.
  induction ws as [| wk ws IH]; cbn; [constructor |].
  destruct wk as [index item | | e]; [| | discriminate].
  - destruct (Promise_all ws) as [[|] |]; discriminate.
  - intros Hall. constructor; [reflexivity | now apply IH].
Qed.

(** While the run stays current, a worker returns only once the cursor has
    reached the end of the list. *)
Lemma thumbnail_settled_returned_done (thumbnails : gmap string string)
    (b : batch) (w : nat) (r : settled) :
  batch_ok b -> returned_done b ->
  returned_done (thumbnail_settled (runId b) thumbnails b w r).2.
Proof.
  intros Hok Hdone. destruct (worker_cases b w) as [(index & item & Hw) | Hidle];
    [| now rewrite thumbnail_settled_idle].
  rewrite (thumbnail_settled_unfold _ _ _ _ _ _ _ Hw). rewrite Nat.eqb_refl.
  pose proof (record_outcome_ok index r b Hok) as Hok1.
  destruct (worker_resume_ok (runId b) _ Hok1) as (Hi & _ & Hws & _ & Hc & Hok2 & _ & Hwk).
  pose proof (cursor_bounded _ Hok2) as Hc2. rewrite Hi in Hc2. cbn in Hc, Hc2, Hws, Hi.
  assert (Hresumed :
    returned_done (set_worker w (worker_resume (runId b) (record_outcome index r b)).2
                              (worker_resume (runId b) (record_outcome index r b)).1)).
  { intros (w' & Hw'). cbn in Hw' |- *. rewrite Hi, Hws in *. cbn in *.
    apply list_lookup_insert_Some in Hw' as [(<- & Heq & _) | (Hne & Hw')].
    - rewrite Heq in Hwk. now apply Hwk.
    - assert (cursor b = length (galleryItems b)) by (apply Hdone; eauto). lia. }
  destruct r as [dataUrl | e]; exact Hresumed.
Qed.

Lemma hydrateThumbnails_returned_done (items : list value) (rid : nat) :
  returned_done (hydrateThumbnails rid items rid).
Proof.
  unfold hydrateThumbnails. generalize (Nat.min maxConcurrent (length items)) as n.
  assert (Hgen : forall n, let b := Nat.iter n (worker_call rid) (Batch items rid 0 [] [] []) in
            batch_ok b /\ runId b = rid /\ galleryItems b = items /\ returned_done b).
  { induction n as [| n (Hok & Hrid & Hitems & Hdone)].
    - cbn. split; [| split; [reflexivity | split; [reflexivity |]]].
      + constructor; cbn; auto with lia; try constructor.
      + intros (w & Hw). cbn in Hw. discriminate.
    - rewrite Nat.iter_succ. cbv zeta in *.
      set (b := Nat.iter n (worker_call rid) (Batch items rid 0 [] [] [])) in *.
      destruct (worker_resume_ok rid b Hok) as (Hi & Hr & Hws & _ & Hc & Hok2 & _ & Hwk).
      pose proof (cursor_bounded _ Hok2) as Hc2. rewrite Hi in Hc2.
      split; [now apply worker_call_ok |].
      rewrite worker_call_unfold. cbn [galleryItems runId].
      split; [congruence | split; [congruence |]].
      unfold returned_done. cbn [galleryItems cursor workers]. rewrite Hi, Hws.
      intros (w & Hw).
      apply lookup_app_Some in Hw as [Hw | [_ Hw]].
      + assert (cursor b = length (galleryItems b)) by (apply Hdone; eauto). lia.
      + apply list_lookup_singleton_Some in Hw as [_ Heq].
        rewrite Heq in Hwk. now apply Hwk. }
  intros n. apply (Hgen n).
Qed.

(** *** The thumbnail map *)

Lemma mergeThumbnail_spec (item dataUrl : value) (prev : gmap string string) :
  mergeThumbnail item dataUrl prev
  = if convertible (get_opt item "path") then
      if truthy_at prev (ToString (get_opt item "path")) then Normal prev
      else if convertible dataUrl
           then Normal (<[ToString (get_opt item "path") := ToString dataUrl]> prev)
           else Throw TypeError
    else Throw TypeError.
Proof.
  unfold mergeThumbnail, String_.
  destruct (convertible (get_opt item "path")); [| reflexivity]. cbn [bind].
  destruct (truthy_at prev _); [reflexivity |]. now destruct (convertible dataUrl).
Qed.

Lemma mergeThumbnail_other (item dataUrl : value) (prev : gmap string string) (k : string) :
  k <> ToString (get_opt item "path") ->
  setThumbnailDataByPath_updater (mergeThumbnail item dataUrl prev) prev !! k = prev !! k.
Proof.
  intros Hk. rewrite mergeThumbnail_spec.
  destruct (convertible (get_opt item "path")); [| reflexivity].
  destruct (truthy_at prev _); [reflexivity |].
  destruct (convertible dataUrl); [| reflexivity].
  cbn [setThumbnailDataByPath_updater]. now rewrite lookup_insert_ne.
Qed.

Lemma mergeThumbnail_kept (item dataUrl : value) (prev : gmap string string) (s : string) :
  prev !! ToString (get_opt item "path") = Some s -> s <> "" ->
  mergeThumbnail item dataUrl prev
  = (if convertible (get_opt item "path") then Normal prev else Throw TypeError)
  /\ setThumbnailDataByPath_updater (mergeThumbnail item dataUrl prev) prev = prev.
Proof.
  intros Hs Hne. rewrite mergeThumbnail_spec. unfold truthy_at. rewrite Hs.
  destruct (String.eqb_spec s ""); [contradiction |]. cbn [negb].
  now destruct (convertible (get_opt item "path")).
Qed.

Lemma mergeThumbnail_entry (item dataUrl : value) (prev : gmap string string)
    (k v : string) :
  setThumbnailDataByPath_updater (mergeThumbnail item dataUrl prev) prev !! k = Some v ->
  prev !! k = Some v \/ (k = ToString (get_opt item "path") /\ v = ToString dataUrl).
Proof.
  rewrite mergeThumbnail_spec.
  destruct (convertible (get_opt item "path")); [| now left].
  destruct (truthy_at prev _); [now left |].
  destruct (convertible dataUrl); [| now left]. cbn [setThumbnailDataByPath_updater].
  destruct (decide (ToString (get_opt item "path") = k)) as [<- | Hne].
  - rewrite lookup_insert_eq. intros [= <-]. now right.
  - rewrite lookup_insert_ne by exact Hne. now left.
Qed.

Lemma mergeThumbnail_entry_kept (item dataUrl : value) (prev : gmap string string)
    (k s : string) :
  prev !! k = Some s -> s <> "" ->
  setThumbnailDataByPath_updater (mergeThumbnail item dataUrl prev) prev !! k = Some s.
Proof.
  intros Hs Hne. destruct (decide (k = ToString (get_opt item "path"))) as [-> | Hk].
  - now rewrite (proj2 (mergeThumbnail_kept _ dataUrl _ _ Hs Hne)).
  - now rewrite mergeThumbnail_other.
Qed.

(** A rejected invocation leaves the map alone. *)
Lemma thumbnail_settled_rejected (current : nat) (thumbnails : gmap string string)
    (b : batch) (w : nat) (e : value) :
  (thumbnail_settled current thumbnails b w (Rejected e)).1 = thumbnails.
Proof.
  destruct (worker_cases b w) as [(index & item & Hw) | Hidle];
    [| now rewrite thumbnail_settled_idle].
  now rewrite (thumbnail_settled_unfold _ _ _ _ _ _ _ Hw).
Qed.

(** So does any invocation of a run that is no longer the current one. *)
Lemma thumbnail_settled_stale (current : nat) (thumbnails : gmap string string)
    (b : batch) (w : nat) (r : settled) :
  runId b <> current ->
  (thumbnail_settled current thumbnails b w r).1 = thumbnails.
Proof.
  intros Hne. destruct (worker_cases b w) as [(index & item & Hw) | Hidle];
    [| now rewrite thumbnail_settled_idle].
  rewrite (thumbnail_settled_unfold _ _ _ _ _ _ _ Hw).
  destruct r as [dataUrl | e]; [| reflexivity].
  now destruct (Nat.eqb_spec (runId b) current).
Qed.

Lemma thumbnail_settled_entry_kept (current : nat) (thumbnails : gmap string string)
    (b : batch) (w : nat) (r : settled) (k s : string) :
  thumbnails !! k = Some s -> s <> "" ->
  (thumbnail_settled current thumbnails b w r).1 !! k = Some s.
Proof.
  intros Hs Hne. destruct (worker_cases b w) as [(index & item & Hw) | Hidle];
    [| now rewrite thumbnail_settled_idle].
  rewrite (thumbnail_settled_unfold _ _ _ _ _ _ _ Hw).
  destruct r as [dataUrl | e]; [| exact Hs].
  destruct (runId b =? current)%nat; [| exact Hs].
  now apply mergeThumbnail_entry_kept.
Qed.

(** An update touches the entry of the item it is for, and no other. *)
Lemma thumbnail_settled_other (current : nat) (thumbnails : gmap string string)
    (b : batch) (w : nat) (r : settled) (k : string) :
  (forall index item, workers b !! w = Some (Awaiting index item) ->
                      k <> ToString (get_opt item "path")) ->
  (thumbnail_settled current thumbnails b w r).1 !! k = thumbnails !! k.
Proof.
  intros Hk. destruct (worker_cases b w) as [(index & item & Hw) | Hidle];
    [| now rewrite thumbnail_settled_idle].
  rewrite (thumbnail_settled_unfold _ _ _ _ _ _ _ Hw).
  destruct r as [dataUrl | e]; [| reflexivity].
  destruct (runId b =? current)%nat; [| reflexivity].
  apply mergeThumbnail_other. eauto.
Qed.

Lemma thumbnail_settled_outcomes (current : nat) (thumbnails : gmap string string)
    (b : batch) (w : nat) (r : settled) :
  outcomes (thumbnail_settled current thumbnails b w r).2 =
  (outcomes b ++ match workers b !! w with
                 | Some (Awaiting index _) => [(index, r)]
                 | _ => []
                 end)%list.
Proof.
  destruct (worker_cases b w) as [(index & item & Hw) | Hidle].
  - rewrite (thumbnail_settled_unfold _ _ _ _ _ _ _ Hw), Hw.
    assert (Hout : outcomes (worker_resume current (record_outcome index r b)).1
                   = (outcomes b ++ [(index, r)])%list).
    { unfold worker_resume. now destruct (worker_loop _ _ _ _ _) as [[? ?] ?]. }
    destruct r as [dataUrl | e]; [destruct (runId b =? current)%nat |]; cbn; auto.
  - rewrite thumbnail_settled_idle by exact Hidle. cbn.
    destruct (workers b !! w) as [[index item | |] |]; rewrite ?app_nil_r; try reflexivity.
    now destruct (Hidle index item).
Qed.

(** Every entry comes from the map before or from a resolved invocation. *)
Lemma thumbnail_settled_merged (current : nat) (thumbnails0 thumbnails : gmap string string)
    (b : batch) (w : nat) (r : settled) :
  batch_ok b -> merged_from thumbnails0 b thumbnails ->
  merged_from thumbnails0 (thumbnail_settled current thumbnails b w r).2
              (thumbnail_settled current thumbnails b w r).1.
Proof.
  intros Hok Hfrom k v Hkv.
  destruct (thumbnail_settled_frame current thumbnails b w r) as (Hitems & _ & _).
  rewrite Hitems, thumbnail_settled_outcomes.
  assert (Hold : thumbnails !! k = Some v ->
            thumbnails0 !! k = Some v \/
            exists index item dataUrl,
              (index, Resolved dataUrl) ∈
                (outcomes b ++ match workers b !! w with
                               | Some (Awaiting index _) => [(index, r)]
                               | _ => []
                               end)%list /\
              galleryItems b !! index = Some item /\
              ToString (get_opt item "path") = k /\ v = ToString dataUrl).
  { intros [? | (index & item & dataUrl & Hin & ?)]%Hfrom; [now left | right].
    exists index, item, dataUrl. split; [apply elem_of_app; now left | assumption]. }
  destruct (worker_cases b w) as [(index & item & Hw) | Hidle];
    [| rewrite thumbnail_settled_idle in Hkv by exact Hidle; now apply Hold].
  rewrite (thumbnail_settled_unfold _ _ _ _ _ _ _ Hw) in Hkv.
  destruct r as [dataUrl | e]; [| now apply Hold].
  destruct (runId b =? current)%nat; [| now apply Hold]. cbn in Hkv.
  apply mergeThumbnail_entry in Hkv as [Hkv | [-> ->]]; [now apply Hold | right].
  exists index, item, dataUrl. rewrite Hw. split.
  - apply elem_of_app. right. now apply list_elem_of_singleton.
  - pose proof (workers_items _ Hok) as Hws. rewrite Forall_forall in Hws.
    assert (Hin : Awaiting index item ∈ workers b) by (eapply list_elem_of_lookup_2; eauto).
    destruct (Hws _ Hin) as [Hitem _]. auto.
Qed.

(** *** A hydration from its start to its end *)

Lemma hydration_run_cons (current : nat) (thumbnails : gmap string string) (b : batch)
    (e : nat * settled) (schedule : list (nat * settled)) :
  hydration_run current thumbnails b (e :: schedule) =
  hydration_run current (hydration_step current (thumbnails, b) e).1
                (hydration_step current (thumbnails, b) e).2 schedule.
Proof. unfold hydration_run. cbn [fold_left]. now destruct (hydration_step _ _ _). Qed.

Lemma hydration_run_ok (current : nat) (schedule : list (nat * settled))
    (thumbnails : gmap string string) (b : batch) :
  batch_ok b ->
  batch_ok (hydration_run current thumbnails b schedule).2 /\
  galleryItems (hydration_run current thumbnails b schedule).2 = galleryItems b /\
  runId (hydration_run current thumbnails b schedule).2 = runId b /\
  length (workers (hydration_run current thumbnails b schedule).2) = length (workers b).
Proof.
  revert thumbnails b. induction schedule as [| [w r] schedule IH]; intros thumbnails b Hok;
    [cbn; tauto |].
  rewrite hydration_run_cons. unfold hydration_step. cbn [fst snd].
  destruct (thumbnail_settled_frame current thumbnails b w r) as (Hi & Hr & Hl).
  destruct (IH (thumbnail_settled current thumbnails b w r).1
               (thumbnail_settled current thumbnails b w r).2) as (? & ? & ? & ?);
    [now apply thumbnail_settled_ok |].
  split; [assumption |]. split; [congruence |]. split; congruence.
Qed.

Lemma hydration_run_returned_done (schedule : list (nat * settled))
    (thumbnails : gmap string string) (b : batch) :
  batch_ok b -> returned_done b ->
  returned_done (hydration_run (runId b) thumbnails b schedule).2.
Proof.
  revert thumbnails b. induction schedule as [| [w r] schedule IH]; intros thumbnails b Hok Hdone;
    [exact Hdone |].
  rewrite hydration_run_cons. unfold hydration_step. cbn [fst snd].
  destruct (thumbnail_settled_frame (runId b) thumbnails b w r) as (_ & Hr & _).
  specialize (IH (thumbnail_settled (runId b) thumbnails b w r).1
                 (thumbnail_settled (runId b) thumbnails b w r).2
                 (thumbnail_settled_ok _ _ _ _ _ Hok)
                 (thumbnail_settled_returned_done _ _ _ _ Hok Hdone)).
  now rewrite Hr in IH.
Qed.

(** A valid schedule is no longer than the work that was pending. *)
Lemma hydration_run_work (current : nat) (schedule : list (nat * settled))
    (thumbnails : gmap string string) (b : batch) :
  batch_ok b -> schedule_valid current thumbnails b schedule ->
  length schedule + pending_work (hydration_run current thumbnails b schedule).2
  <= pending_work b.
Proof.
  revert thumbnails b. induction schedule as [| [w r] schedule IH]; intros thumbnails b Hok Hvalid;
    [cbn; lia |].
  destruct Hvalid as [(wk & Hw & Haw) Hvalid]. cbn [fst snd] in Hw.
  rewrite hydration_run_cons. unfold hydration_step in *. cbn [fst snd] in *.
  pose proof (thumbnail_settled_progress current thumbnails b w r wk Hok Hw Haw) as Hlt.
  specialize (IH _ _ (thumbnail_settled_ok current thumbnails b w r Hok) Hvalid).
  cbn [length]. lia.
Qed.

Lemma hydration_run_merged (current : nat) (schedule : list (nat * settled))
    (thumbnails0 thumbnails : gmap string string) (b : batch) :
  batch_ok b -> merged_from thumbnails0 b thumbnails ->
  merged_from thumbnails0 (hydration_run current thumbnails b schedule).2
              (hydration_run current thumbnails b schedule).1.
Proof.
  revert thumbnails b. induction schedule as [| [w r] schedule IH]; intros thumbnails b Hok Hfrom;
    [exact Hfrom |].
  rewrite hydration_run_cons. unfold hydration_step. cbn [fst snd].
  apply IH; [now apply thumbnail_settled_ok | now apply thumbnail_settled_merged].
Qed.

Lemma hydration_run_entry_kept (current : nat) (schedule : list (nat * settled))
    (thumbnails : gmap string string) (b : batch) (k s : string) :
  thumbnails !! k = Some s -> s <> "" ->
  (hydration_run current thumbnails b schedule).1 !! k = Some s.
Proof.
  revert thumbnails b. induction schedule as [| [w r] schedule IH]; intros thumbnails b Hs Hne;
    [exact Hs |].
  rewrite hydration_run_cons. unfold hydration_step. cbn [fst snd].
  apply IH; [| exact Hne]. now apply thumbnail_settled_entry_kept.
Qed.

Lemma hydration_run_app (current : nat) (thumbnails : gmap string string) (b : batch)
    (schedule rest : list (nat * settled)) :
  hydration_run current thumbnails b (schedule ++ rest) =
  hydration_run current (hydration_run current thumbnails b schedule).1
                (hydration_run current thumbnails b schedule).2 rest.
Proof.
  unfold hydration_run. rewrite fold_left_app.
  now destruct (fold_left (hydration_step current) schedule (thumbnails, b)).
Qed.

Lemma schedule_valid_app (current : nat) (schedule rest : list (nat * settled))
    (thumbnails : gmap string string) (b : batch) :
  schedule_valid current thumbnails b schedule ->
  schedule_valid current (hydration_run current thumbnails b schedule).1
                 (hydration_run current thumbnails b schedule).2 rest ->
  schedule_valid current thumbnails b (schedule ++ rest).
Proof.
  revert thumbnails b. induction schedule as [| e schedule IH]; intros thumbnails b;
    [intros _ Hrest; exact Hrest |].
  intros [He Hvalid] Hrest. rewrite hydration_run_cons in Hrest.
  split; [exact He | now apply IH].
Qed.

(** Whatever the pending invocations settle with, the hydration comes to
    its end. *)
Lemma hydration_completes (current : nat) (r : settled) (n : nat) :
  forall (thumbnails : gmap string string) (b : batch),
    pending_work b <= n -> batch_ok b ->
    exists rest,
      Forall (fun e => e.2 = r) rest /\
      schedule_valid current thumbnails b rest /\
      Promise_all (workers (hydration_run current thumbnails b rest).2) = Some (Normal tt).
Proof.
  induction n as [| n IH]; intros thumbnails b Hn Hok.
  all: destruct (Promise_all (workers b)) as [[[] | e] |] eqn:Hall;
    [ exists []; repeat split; [constructor | exact Hall]
    | now destruct (Promise_all_not_rejected b (workers b) e (workers_items _ Hok))
    | ].
  all: destruct (Promise_all_pending _ Hall) as (w & index & item & Hw).
  all: pose proof (thumbnail_settled_progress current thumbnails b w r _ Hok Hw eq_refl) as Hlt.
  - lia.
  - destruct (IH (thumbnail_settled current thumbnails b w r).1
                 (thumbnail_settled current thumbnails b w r).2) as (rest & Hr & Hvalid & Hend);
      [lia | now apply thumbnail_settled_ok |].
    exists ((w, r) :: rest). split; [now constructor |]. split.
    + split; [exists (Awaiting index item); now split | exact Hvalid].
    + now rewrite hydration_run_cons.
Qed.

(** C4: a failed [load_thumbnail] is caught in the worker.  Along every
    way the invocations of a hydration may settle while its run is the
    current one: a rejection changes no entry of the map; no worker promise
    is rejected, so [Promise.all] is not either; at most as many
    invocations settle as there are items, while the hydration is pending
    one more is in flight, and whatever the pending ones settle with (all
    of them may fail) the hydration is fulfilled in the end; once it is
    fulfilled every item has been taken from the list and each one with a
    readable path was invoked; and every entry of the map was there before
    or is the payload of an invocation that resolved, so a failed item gets
    none. *)
Theorem thumbnail_failure_contained
    (items : list value) (rid : nat) (thumbnails : gmap string string)
    (schedule : list (nat * settled)) :
  schedule_valid rid thumbnails (hydrateThumbnails rid items rid) schedule ->
  let done := hydration_run rid thumbnails (hydrateThumbnails rid items rid) schedule in
  (forall w e, (thumbnail_settled rid done.1 done.2 w (Rejected e)).1 = done.1)
  /\ (forall e, Promise_all (workers done.2) <> Some (Throw e))
  /\ length schedule + pending_work done.2 <= length items
  /\ (Promise_all (workers done.2) = None ->
      exists w index item, workers done.2 !! w = Some (Awaiting index item))
  /\ (forall r, exists rest,
        Forall (fun e => e.2 = r) rest /\
        schedule_valid rid thumbnails (hydrateThumbnails rid items rid) (schedule ++ rest) /\
        Promise_all
          (workers (hydration_run rid thumbnails (hydrateThumbnails rid items rid)
                                  (schedule ++ rest)).2) = Some (Normal tt))
  /\ (Promise_all (workers done.2) = Some (Normal tt) ->
      cursor done.2 = length items /\
      forall j item path,
        items !! j = Some item -> get item "path" = Normal path ->
        (j, path) ∈ invoked done.2)
  /\ merged_from thumbnails done.2 done.1.
Proof.
  intros Hvalid done.
  destruct (hydrateThumbnails_ok rid items rid) as (Hok0 & Hlen0 & Hitems0 & Hrid0 & _ & Haw0).
  destruct (hydration_run_ok rid schedule thumbnails _ Hok0) as (Hok & Hitems & Hrid & Hlen).
  fold done in Hok, Hitems, Hrid, Hlen. rewrite Hitems0 in Hitems.
  split; [intros w e; apply thumbnail_settled_rejected |].
  split; [intros e; apply (Promise_all_not_rejected done.2), Hok |].
  split.
  { pose proof (hydration_run_work rid schedule thumbnails _ Hok0 Hvalid) as Hwork.
    fold done in Hwork. pose proof (cursor_bounded _ Hok0) as Hc.
    unfold pending_work at 2 in Hwork. rewrite Hitems0 in Hwork, Hc. lia. }
  split; [apply Promise_all_pending |].
  split.
  { intros r.
    destruct (hydration_completes rid r (pending_work done.2) done.1 done.2 (le_n _) Hok)
      as (rest & Hr & Hrest & Hend).
    exists rest. split; [exact Hr |]. split.
    - now apply schedule_valid_app.
    - now rewrite hydration_run_app. }
  split.
  { intros Hall%Promise_all_fulfilled.
    assert (Hcursor : cursor done.2 = length items).
    { pose proof (hydration_run_returned_done schedule thumbnails
                    (hydrateThumbnails rid items rid)) as Hdone.
      rewrite Hrid0 in Hdone. fold done in Hdone.
      specialize (Hdone Hok0 (hydrateThumbnails_returned_done items rid)).
      unfold returned_done in Hdone.
      pose proof (cursor_bounded _ Hok) as Hc. rewrite Hitems in Hc, Hdone.
      rewrite Hlen0 in Hlen. unfold maxConcurrent in Hlen.
      destruct (workers done.2) as [| wk ws] eqn:Hws.
      - cbn [length] in Hlen. lia.
      - apply Hdone. exists 0. apply Forall_cons in Hall as [-> _]. reflexivity. }
    split; [exact Hcursor |]. intros j item path Hitem Hget.
    apply (taken_invoked _ Hok j item path); rewrite ?Hitems; [| assumption | assumption].
    rewrite Hcursor. now apply lookup_lt_Some in Hitem. }
  apply hydration_run_merged; [exact Hok0 |]. intros k v Hkv. now left.
Qed.

(** C9 (amended): an entry of the thumbnail map that is not the empty
    string is written once.  The update for an item whose path has such an
    entry leaves the map as it is (the updater returns the map it was
    given, or throws where the path has no conversion to a string), an
    update changes no entry but the one of the path of its item, and the
    entry stays as it is however the invocations of a hydration settle. *)
Theorem thumbnail_entry_write_once
    (current : nat) (thumbnails : gmap string string) (b : batch)
    (schedule : list (nat * settled)) (item dataUrl : value) (k s : string) :
  thumbnails !! k = Some s ->
  s <> "" ->
  (ToString (get_opt item "path") = k ->
   mergeThumbnail item dataUrl thumbnails
   = (if convertible (get_opt item "path") then Normal thumbnails else Throw TypeError)
   /\ setThumbnailDataByPath_updater (mergeThumbnail item dataUrl thumbnails) thumbnails
      = thumbnails)
  /\ (forall k', k' <> ToString (get_opt item "path") ->
                 setThumbnailDataByPath_updater (mergeThumbnail item dataUrl thumbnails)
                                                thumbnails !! k'
                 = thumbnails !! k')
  /\ (hydration_run current thumbnails b schedule).1 !! k = Some s.
Proof.
  intros Hs Hne. split; [| split].
  - intros <-. now apply (mergeThumbnail_kept _ _ _ s).
  - intros k'. apply mergeThumbnail_other.
  - now apply hydration_run_entry_kept.
Qed.

End HydrationFacts.

(** ** src/App.jsx: the component and its hydrations *)

Section AppFacts.
Context `{NumberConv}.
Import App.

Lemma app_call_ref (folder : value) (st : state) :
  hydrationRunIdRef (loadGallery_call true folder st).1 = S (hydrationRunIdRef st).
Proof.
  unfold loadGallery_call, String_. cbn [negb].
  destruct (convertible folder); cbn; now rewrite Nat.add_1_r.
Qed.

Lemma app_call_ref_mono (tauri : bool) (folder : value) (st : state) :
  hydrationRunIdRef st <= hydrationRunIdRef (loadGallery_call tauri folder st).1.
Proof. destruct tauri; [rewrite app_call_ref; lia | cbn; lia]. Qed.

Lemma app_settled_ref (r : settled) (st : state) :
  hydrationRunIdRef (loadGallery_settled r st).1 = hydrationRunIdRef st.
Proof.
  unfold loadGallery_settled. destruct r as [response | e]; cbn.
  - now destruct (ToBoolean _).
  - now destruct (String_ e).
Qed.

Lemma app_step_ref_mono (tauri : bool) (s : sys) (e : event) :
  hydrationRunIdRef (app s) <= hydrationRunIdRef (app (step tauri s e)).
Proof.
  destruct e as [folder | r | h w r]; cbn [step].
  - pose proof (app_call_ref_mono tauri folder (app s)) as Href.
    now destruct (loadGallery_call tauri folder (app s)).
  - destruct (scans s); [lia |].
    pose proof (app_settled_ref r (app s)) as Href.
    destruct (loadGallery_settled r (app s)) as [st hydration]. cbn in *. lia.
  - destruct (hydrations s !! h) as [b |]; [| lia].
    destruct (thumbnail_settled _ _ b w r). cbn. lia.
Qed.

Lemma app_run_cons (tauri : bool) (e : event) (evs : list event) (s : sys) :
  run tauri s (e :: evs) = run tauri (step tauri s e) evs.
Proof. reflexivity. Qed.

Lemma app_run_ref_mono (tauri : bool) (evs : list event) (s : sys) :
  hydrationRunIdRef (app s) <= hydrationRunIdRef (app (run tauri s evs)).
Proof.
  revert s. induction evs as [| e evs IH]; intros s; [reflexivity |].
  rewrite app_run_cons. etransitivity; [apply (app_step_ref_mono tauri s e) | apply IH].
Qed.

Lemma hydration_ok_mono (current current' : nat) (b : batch) :
  current <= current' -> hydration_ok current b -> hydration_ok current' b.
Proof. intros Hle (? & ? & ?). split; [assumption |]. split; [assumption | lia]. Qed.

(** Every hydration of a reachable state satisfies the invariant. *)
Lemma step_sys_ok (tauri : bool) (s : sys) (e : event) :
  sys_ok s -> sys_ok (step tauri s e).
Proof.
  unfold sys_ok. intros Hok.
  pose proof (app_step_ref_mono tauri s e) as Hmono.
  assert (Hold : Forall (hydration_ok (hydrationRunIdRef (app (step tauri s e))))
                        (hydrations s)).
  { eapply Forall_impl; [exact Hok |]. intros b. now apply hydration_ok_mono. }
  destruct e as [folder | r | h w r]; cbn [step] in *.
  - now destruct (loadGallery_call tauri folder (app s)).
  - destruct (scans s); [exact Hok |].
    pose proof (app_settled_ref r (app s)) as Href.
    assert (Hnew : forall b, (loadGallery_settled r (app s)).2 = Some b ->
                             hydration_ok (hydrationRunIdRef (app s)) b).
    { unfold loadGallery_settled.
      destruct r as [response | e]; [| now destruct (String_ e)].
      cbn [snd]. intros b [= <-].
      match goal with |- hydration_ok _ (hydrateThumbnails ?c ?i ?r) =>
        destruct (hydrateThumbnails_ok c i r) as (? & Hlen & Hitems & Hrid & _) end.
      split; [assumption |]. split; [now rewrite Hlen, Hitems |].
      rewrite Hrid. now destruct (ToBoolean _). }
    destruct (loadGallery_settled r (app s)) as [st hydration]. cbn in *.
    apply Forall_app. split; [exact Hold |].
    destruct hydration as [b |]; [| constructor].
    apply Forall_singleton. rewrite Href. now apply Hnew.
  - destruct (hydrations s !! h) as [b |] eqn:Hb; [| exact Hok].
    pose proof (thumbnail_settled_ok (hydrationRunIdRef (app s))
                  (thumbnailDataByPath (app s)) b w r) as Hok'.
    destruct (thumbnail_settled_frame (hydrationRunIdRef (app s))
                (thumbnailDataByPath (app s)) b w r) as (Hitems & Hrid & Hlen).
    destruct (thumbnail_settled _ _ b w r) as [thumbnails b']. cbn in *.
    apply Forall_insert; [exact Hok |].
    rewrite Forall_forall in Hok.
    destruct (Hok b) as (? & ? & ?); [eapply list_elem_of_lookup_2; eauto |].
    split; [auto |]. split; congruence.
Qed.

Lemma run_sys_ok (tauri : bool) (evs : list event) (s : sys) :
  sys_ok s -> sys_ok (run tauri s evs).
Proof.
  revert s. induction evs as [| e evs IH]; intros s Hok; [exact Hok |].
  rewrite app_run_cons. apply IH. now apply step_sys_ok.
Qed.

Lemma start_sys_ok : sys_ok start.
Proof. constructor. Qed.

(** A hydration keeps its place and its run id. *)
Lemma step_hydration_runId (tauri : bool) (s : sys) (e : event) (h : nat) (b : batch) :
  hydrations s !! h = Some b ->
  exists b', hydrations (step tauri s e) !! h = Some b' /\ runId b' = runId b.
Proof.
  intros Hb. destruct e as [folder | r | h' w r]; cbn [step].
  - destruct (loadGallery_call tauri folder (app s)). cbn. eauto.
  - destruct (scans s); [eauto |].
    destruct (loadGallery_settled r (app s)) as [st hydration]. cbn.
    exists b. split; [| reflexivity]. now apply lookup_app_l_Some.
  - destruct (hydrations s !! h') as [b0 |] eqn:Hb0; [| eauto].
    destruct (thumbnail_settled_frame (hydrationRunIdRef (app s))
                (thumbnailDataByPath (app s)) b0 w r) as (_ & Hrid & _).
    destruct (thumbnail_settled _ _ b0 w r) as [thumbnails b']. cbn in *.
    destruct (decide (h' = h)) as [-> | Hne].
    + exists b'. split; [| congruence].
      apply list_lookup_insert_eq. now apply lookup_lt_Some in Hb.
    + exists b. split; [| reflexivity]. now rewrite list_lookup_insert_ne.
Qed.

Lemma run_hydration_runId (tauri : bool) (evs : list event) (s : sys) (h : nat) (b : batch) :
  hydrations s !! h = Some b ->
  exists b', hydrations (run tauri s evs) !! h = Some b' /\ runId b' = runId b.
Proof.
  revert s b. induction evs as [| e evs IH]; intros s b Hb; [eauto |].
  rewrite app_run_cons.
  destruct (step_hydration_runId tauri s e h b Hb) as (b1 & Hb1 & Hrid1).
  destruct (IH _ _ Hb1) as (b2 & Hb2 & Hrid2). exists b2. split; [assumption | congruence].
Qed.

Lemma no_tauri_no_hydration (evs : list event) :
  hydrations (run false start evs) = [].
Proof.
  unfold start. generalize initial as st.
  induction evs as [| e evs IH]; intros st; [reflexivity |].
  rewrite app_run_cons. destruct e as [folder | r | h w r]; cbn; apply IH.
Qed.


(** The thumbnails of a hydration that a later call of [loadGallery] has
    superseded are not merged: the state of the component is as before. *)
Lemma superseded_hydration_dropped (tauri : bool) (evs1 evs2 : list event)
    (folder : value) (h w : nat) (r : settled) :
  h < length (hydrations (run tauri start evs1)) ->
  app (step tauri (run tauri start (evs1 ++ Call folder :: evs2)) (ThumbnailSettled h w r))
  = app (run tauri start (evs1 ++ Call folder :: evs2)).
Proof.
  intros Hh. destruct tauri; [| rewrite no_tauri_no_hydration in Hh; cbn in Hh; lia].
  apply lookup_lt_is_Some in Hh as [b1 Hb1].
  pose proof (run_sys_ok true evs1 start start_sys_ok) as Hok1.
  unfold sys_ok in Hok1. rewrite Forall_forall in Hok1.
  destruct (Hok1 b1) as (_ & _ & Hle); [eapply list_elem_of_lookup_2; eauto |].
  unfold run in *. rewrite fold_left_app. cbn [fold_left].
  set (s1 := fold_left (step true) evs1 start) in *.
  destruct (step_hydration_runId true s1 (Call folder) h b1 Hb1) as (b2 & Hb2 & Hrid2).
  destruct (run_hydration_runId true evs2 _ h b2 Hb2) as (b3 & Hb3 & Hrid3).
  pose proof (app_run_ref_mono true evs2 (step true s1 (Call folder))) as Hmono.
  assert (Hcall : hydrationRunIdRef (app (step true s1 (Call folder)))
                  = S (hydrationRunIdRef (app s1))).
  { cbn [step]. pose proof (app_call_ref folder (app s1)) as Href.
    now destruct (loadGallery_call true folder (app s1)). }
  unfold run in *. set (s3 := fold_left (step true) evs2 _) in *.
  cbn [step]. rewrite Hb3.
  pose proof (thumbnail_settled_stale (hydrationRunIdRef (app s3))
                (thumbnailDataByPath (app s3)) b3 w r) as Hstale.
  destruct (thumbnail_settled _ _ b3 w r) as [thumbnails b']. cbn in *.
  rewrite Hstale by lia. now destruct (app s3).
Qed.

End AppFacts.

(** ** Superseded runs and the worker pool *)

Section RunTokens.
Context `{NumberConv}.

(** C1: what a superseded run brings back is not published.  The
    continuation of [loadGallery] holds the run id that its call has taken,
    and when that is no longer the current one it leaves the state of the
    hook as it is; so the response of every scan that a later call has
    superseded is dropped.  A thumbnail that settles for a hydration whose
    run id is no longer the current one leaves the thumbnail map as it is;
    so no thumbnail of a hydration that a later call has superseded changes
    the state of the component. *)
Theorem superseded_run_publishes_nothing
    (tauri : bool) (st : UseGallery.state) (stale : nat) (r0 : settled)
    (evs1 evs2 : list UseGallery.event) (folder : value) (runId : nat) (r : settled)
    (current : nat) (thumbnails : gmap string string) (b : App.batch) (w0 : nat)
    (r1 : settled)
    (evs1' evs2' : list App.event) (folder' : value) (h w : nat) (r' : settled) :
  stale <> UseGallery.loadRunIdRef st ->
  runId ∈ UseGallery.inflight (UseGallery.run tauri UseGallery.start evs1) ->
  App.runId b <> current ->
  h < length (App.hydrations (App.run tauri App.start evs1')) ->
  UseGallery.loadGallery_settled stale r0 st = st
  /\ UseGallery.hook
       (UseGallery.step tauri
          (UseGallery.run tauri UseGallery.start (evs1 ++ UseGallery.Call folder :: evs2))
          (UseGallery.Settle runId r))
     = UseGallery.hook
         (UseGallery.run tauri UseGallery.start (evs1 ++ UseGallery.Call folder :: evs2))
  /\ (App.thumbnail_settled current thumbnails b w0 r1).1 = thumbnails
  /\ App.app
       (App.step tauri
          (App.run tauri App.start (evs1' ++ App.Call folder' :: evs2'))
          (App.ThumbnailSettled h w r'))
     = App.app (App.run tauri App.start (evs1' ++ App.Call folder' :: evs2')).
Proof.
  intros Hstale Hin Hrid Hh.
  split; [now apply loadGallery_settled_stale |].
  split; [now apply superseded_scan_dropped |].
  split; [now apply thumbnail_settled_stale |].
  now apply superseded_hydration_dropped.
Qed.

(** C2: [hydrateThumbnails] starts [min(6, length)] workers whatever the
    list, the pool keeps that size however the invocations settle, and no
    index of the list is passed to [load_thumbnail] twice: the invocations
    made have strictly increasing indices, each with the path of the item at
    its index.  The same holds of every hydration the component ever
    starts. *)
Theorem hydration_pool_dispatches_once
    (tauri : bool) (evs : list App.event)
    (current current' : nat) (items : list value) (rid : nat)
    (thumbnails : gmap string string) (schedule : list (nat * settled)) :
  length (App.workers (App.hydrateThumbnails current items rid)) = Nat.min 6 (length items)
  /\ (let b := (App.hydration_run current' thumbnails
                  (App.hydrateThumbnails current items rid) schedule).2 in
      length (App.workers b) = Nat.min 6 (length items)
      /\ StronglySorted lt (App.invoked b).*1
      /\ NoDup (App.invoked b).*1
      /\ Forall (fun ip => exists item, items !! ip.1 = Some item /\
                                        get item "path" = Normal ip.2) (App.invoked b))
  /\ Forall (fun b => length (App.workers b) = Nat.min 6 (length (App.galleryItems b))
                      /\ NoDup (App.invoked b).*1)
            (App.hydrations (App.run tauri App.start evs)).
Proof.
  destruct (hydrateThumbnails_ok current items rid) as (Hok0 & Hlen0 & Hitems0 & _).
  split; [exact Hlen0 |]. split.
  - cbv zeta.
    destruct (hydration_run_ok current' schedule thumbnails _ Hok0) as (Hok & Hitems & _ & Hlen).
    rewrite Hitems0 in Hitems.
    split; [now rewrite Hlen |].
    split; [apply Hok |].
    split; [apply StronglySorted_lt_NoDup, Hok |].
    eapply Forall_impl; [apply (App.invoked_items _ Hok) |].
    cbn beta. rewrite Hitems. now intros ip [_ ?].
  - eapply Forall_impl; [apply (run_sys_ok tauri evs App.start start_sys_ok) |].
    cbn beta. intros b (Hok & Hlen & _). split; [exact Hlen |].
    apply StronglySorted_lt_NoDup, Hok.
Qed.

End RunTokens.

(** ** The cache key *)

Section CacheKeyFacts.
Context {digest : Type} (hash : string -> digest).

(** C7: the key is a function of the path and the modification time
    alone, and two keys of one path are the same exactly when the two
    modification times are. *)
Theorem cache_key_deterministic (p : string) (t1 t2 : Z) :
  CacheKey.key hash p t1 = CacheKey.key hash p t2 <-> t1 = t2.
Proof.
  unfold CacheKey.key. split.
  - now intros [= ->].
  - now intros ->.
Qed.

End CacheKeyFacts.

(** ** Closed examples *)

Section Examples.
Import Decimal Scenario.

(** Two of three thumbnails load: the pool empties, the promise of
    [hydrateThumbnails] is fulfilled, and the map holds the two. *)
Example one_failure_outcome :
  let done := App.hydration_run 1 ∅ (App.hydrateThumbnails 1 photos 1) one_failure in
  done.1 = {[ "/photos/a.jpg" := "data:image/png;base64,QQ==";
              "/photos/c.gif" := "data:image/png;base64,Qw==" ]}
  /\ App.Promise_all (App.workers done.2) = Some (Normal tt)
  /\ (App.invoked done.2).*1 = [0; 1; 2].
Proof. vm_compute. repeat split. Qed.

(** The sizes 500 and 150, a stored "9999", and the slider at 50 then 250. *)
Lemma thumbnail_size_in_range_witness :
  in_range (clampThumbnailSize (Fin 500%Q)) = true
  /\ clampThumbnailSize (Fin 150%Q) = Fin 150%Q
  /\ in_range (ThumbnailSize.initialSize true (Str "9999")) = true
  /\ in_range (ThumbnailSize.thumbnailSize
                 (ThumbnailSize.after (Str "9999") [Str "50"; Num (Fin 250%Q)])) = true
  /\ ThumbnailSize.stored (ThumbnailSize.after (Str "9999") [Str "50"; Num (Fin 250%Q)])
     = Str (number_to_string
              (ThumbnailSize.thumbnailSize
                 (ThumbnailSize.after (Str "9999") [Str "50"; Num (Fin 250%Q)]))).
Proof.
  apply (thumbnail_size_in_range (Fin 500%Q) (Fin 150%Q) true (Str "9999")
                                 [Str "50"; Num (Fin 250%Q)]).
  - discriminate.
  - reflexivity.
  - repeat constructor; vm_compute; discriminate.
Defined.

(** The clamp returns NaN for NaN, which is in no range; the setter stores
    it when its argument is no numeral. *)
Lemma clamp_of_NaN_out_of_range :
  clampThumbnailSize NaN = NaN
  /\ in_range (clampThumbnailSize NaN) = false
  /\ ThumbnailSize.setThumbnailSize (Str "wide") (ThumbnailSize.mount Null)
     = ThumbnailSize.Hook NaN (Str "NaN").
Proof. repeat split. Qed.

(** The second call supersedes the first: the response of run 1 is
    dropped.  The hydration of the scan of /photos is superseded by the
    next call: its thumbnails are dropped. *)
Lemma superseded_run_publishes_nothing_witness :
  UseGallery.loadGallery_settled 1 (Resolved scan_complete)
    (UseGallery.hook (UseGallery.run true UseGallery.start two_calls))
  = UseGallery.hook (UseGallery.run true UseGallery.start two_calls)
  /\ App.app
       (App.step true (App.run true App.start (scanned ++ [App.Call (Str "/other")]))
          (App.ThumbnailSettled 0 0 (Resolved (Str "data:image/png;base64,QQ=="))))
     = App.app (App.run true App.start (scanned ++ [App.Call (Str "/other")])).
Proof.
  pose proof (superseded_run_publishes_nothing true
    (UseGallery.hook (UseGallery.run true UseGallery.start two_calls)) 1
    (Resolved scan_complete)
    [UseGallery.Call (Str "/photos")] [] (Str "/other") 1 (Resolved scan_complete)
    2 ∅ (App.hydrateThumbnails 1 photos 1) 0 (Resolved (Str "data:image/png;base64,QQ=="))
    scanned [] (Str "/other") 0 0 (Resolved (Str "data:image/png;base64,QQ=="))) as Hthm.
  destruct Hthm as (Hscan & _ & _ & Hthumb).
  - vm_compute. discriminate.
  - vm_compute. constructor.
  - vm_compute. discriminate.
  - vm_compute. lia.
  - split; [exact Hscan | exact Hthumb].
Defined.

(** Two of three thumbnails load. *)
Lemma thumbnail_failure_contained_witness :
  App.schedule_valid 1 ∅ (App.hydrateThumbnails 1 photos 1) one_failure
  /\ App.merged_from ∅
       (App.hydration_run 1 ∅ (App.hydrateThumbnails 1 photos 1) one_failure).2
       (App.hydration_run 1 ∅ (App.hydrateThumbnails 1 photos 1) one_failure).1.
Proof.
  assert (Hvalid : App.schedule_valid 1 ∅ (App.hydrateThumbnails 1 photos 1) one_failure).
  { vm_compute. repeat split; eexists; split; reflexivity. }
  split; [exact Hvalid |].
  apply (thumbnail_failure_contained photos 1 ∅ one_failure Hvalid).
Defined.

(** The folder cannot be read. *)
Lemma failed_scan_reported_witness :
  UseGallery.loadGallery_settled 1 (Rejected (Str "No such directory: /photos"))
    (UseGallery.loadGallery_call true (Str "/photos") UseGallery.initial).1
  = UseGallery.State [] "Failed to load folder." false "Loading images..."
      "No such directory: /photos" (Obj []) 1
  /\ App.loadGallery_settled (Rejected (Str "No such directory: /photos"))
       (App.loadGallery_call true (Str "/photos") App.initial).1
     = (App.State [] "Failed to load folder." false "Loading images..."
                  "No such directory: /photos" ∅ 1, None).
Proof.
  exact (failed_scan_reported 1 (Str "No such directory: /photos")
           (UseGallery.loadGallery_call true (Str "/photos") UseGallery.initial).1
           (App.loadGallery_call true (Str "/photos") App.initial).1 eq_refl).
Defined.

(** The scan of /photos is superseded by the one of /other and resolves
    all the same; its first thumbnail is merged, and then the scan of
    /other fails: the component shows no item and the failure, and its
    thumbnail map holds the thumbnail of a.jpg.  And an error that has no
    conversion to a string is not recorded: the error stays empty. *)
Lemma failed_scan_keeps_thumbnails :
  App.items (App.app (App.run true App.start failed_after_superseded)) = []
  /\ App.status (App.app (App.run true App.start failed_after_superseded))
     = "Failed to load folder."
  /\ App.thumbnailDataByPath (App.app (App.run true App.start failed_after_superseded))
     = {[ "/photos/a.jpg" := "data:image/png;base64,QQ==" ]}
  /\ UseGallery.error
       (UseGallery.loadGallery_settled 1 (Rejected unconvertible)
          (UseGallery.loadGallery_call true (Str "/photos") UseGallery.initial).1)
     = "".
Proof. vm_compute. repeat split. Qed.

(** A dropped entry that has no conversion to a string. *)
Lemma getDroppedPaths_throws :
  getDroppedPaths (Arr [Str "/photos"; unconvertible]) = Throw TypeError
  /\ getDroppedPaths (Obj [("paths", Arr [unconvertible])]) = Throw TypeError.
Proof. split; reflexivity. Qed.

(** A scan stopped after two files, and one that listed all three. *)
Lemma cancelled_scan_reported_witness :
  UseGallery.status
    (UseGallery.loadGallery_settled 1 (Resolved scan_stopped)
       (UseGallery.loadGallery_call true (Str "/photos") UseGallery.initial).1)
  = "Stopped. Loaded 2 images before cancel."
  /\ UseGallery.status
       (UseGallery.loadGallery_settled 1 (Resolved scan_complete)
          (UseGallery.loadGallery_call true (Str "/photos") UseGallery.initial).1)
     = "Loaded 3 images.".
Proof.
  pose proof (cancelled_scan_reported 1
    (UseGallery.loadGallery_call true (Str "/photos") UseGallery.initial).1
    [("items", Arr [a_jpg; c_gif]); ("cancelled", Bool true)]
    [("items", Arr photos)] [a_jpg; c_gif] photos) as Hthm.
  destruct Hthm as (_ & Hstopped & _ & _ & Hloaded & _).
  - reflexivity.
  - reflexivity.
  - reflexivity.
  - left. reflexivity.
  - reflexivity.
  - split; [exact Hstopped | exact Hloaded].
Defined.

(** A thumbnail that is there stays, whatever comes later for its path. *)
Lemma thumbnail_entry_write_once_witness :
  (App.hydration_run 1 {[ "/photos/a.jpg" := "data:image/png;base64,QQ==" ]}
     (App.hydrateThumbnails 1 [a_jpg; a_jpg] 1)
     [(0, Resolved (Str "data:,new")); (1, Resolved (Str "data:,newer"))]).1
    !! "/photos/a.jpg"
  = Some "data:image/png;base64,QQ==".
Proof.
  apply (thumbnail_entry_write_once 1 {[ "/photos/a.jpg" := "data:image/png;base64,QQ==" ]}
           (App.hydrateThumbnails 1 [a_jpg; a_jpg] 1)
           [(0, Resolved (Str "data:,new")); (1, Resolved (Str "data:,newer"))]
           a_jpg (Str "data:,new") "/photos/a.jpg" "data:image/png;base64,QQ==").
  - reflexivity.
  - discriminate.
Defined.

(** An entry that is the empty string is replaced: after the first
    thumbnail of the twice-listed file came back empty the map holds an
    entry for its path, and the second thumbnail takes its place. *)
Lemma empty_thumbnail_entry_replaced :
  App.thumbnailDataByPath (App.app (App.run true App.start twice_listed))
    !! "/photos/a.jpg" = Some ""
  /\ App.thumbnailDataByPath
       (App.app (App.step true (App.run true App.start twice_listed)
                   (App.ThumbnailSettled 0 1 (Resolved (Str "data:image/png;base64,QQ==")))))
       !! "/photos/a.jpg" = Some "data:image/png;base64,QQ==".
Proof. vm_compute. split; reflexivity. Qed.

(** In App.jsx the hydration takes its run id when the scan has resolved:
    the items of a scan that a later call has superseded are shown. *)
Example app_superseded_scan_shown :
  App.items
    (App.app (App.run true App.start
                [App.Call (Str "/photos"); App.Call (Str "/other");
                 App.ScanSettled (Resolved scan_complete)]))
  = photos.
Proof. reflexivity. Qed.

End Examples.

(** * Further properties of the sources *)

(** ** src/utils/gallery.js: [formatImageCount] *)

Section CountFacts.
Context `{NumberConv}.

Lemma Qle_bool_inject_Z (z : Z) : Qle_bool 0 (inject_Z z) = (0 <=? z)%Z.
Proof.
  destruct (Z.leb_spec 0 z) as [Hle | Hlt].
  - apply Qle_bool_iff. change 0%Q with (inject_Z 0). now rewrite <- Zle_Qle.
  - destruct (Qle_bool 0 (inject_Z z)) eqn:Hq; [| reflexivity].
    apply Qle_bool_iff in Hq. change 0%Q with (inject_Z 0) in Hq.
    rewrite <- Zle_Qle in Hq. lia.
Qed.

Lemma Qeq_bool_inject_Z (z : Z) : Qeq_bool (inject_Z z) 1 = (z =? 1)%Z.
Proof.
  destruct (Z.eqb_spec z 1) as [-> | Hne]; [reflexivity |].
  destruct (Qeq_bool (inject_Z z) 1) eqn:Hq; [| reflexivity].
  apply Qeq_bool_iff in Hq. change 1%Q with (inject_Z 1) in Hq.
  destruct (inject_Z_injective z 1) as [Hinj _]. now apply Hinj in Hq.
Qed.

(** X1: The count that is shown is a whole number that is not negative: the
    count rounded down, and 0 for what is negative or not finite; the noun
    is in the singular for 1 alone. *)
Theorem formatImageCount_shape (count : number) :
  exists n : Z,
    (0 <= n)%Z
    /\ match count with
       | Fin q => n = Z.max 0 (Qfloor q)
       | _ => n = 0%Z
       end
    /\ formatImageCount count
       = number_to_string (Fin (inject_Z n)) ++ " image" ++ (if (n =? 1)%Z then "" else "s").
Proof.
  destruct count as [q | | |]; try (exists 0%Z; now repeat split).
  unfold formatImageCount. cbn [Number_isFinite Math_floor].
  unfold Math_max. rewrite num_leb_Fin, Qle_bool_inject_Z.
  destruct (Z.leb_spec 0 (Qfloor q)) as [Hle | Hlt].
  - exists (Qfloor q). split; [exact Hle |]. split; [lia |].
    cbn [num_eqb]. now rewrite Qeq_bool_inject_Z.
  - exists 0%Z. split; [lia |]. split; [lia | reflexivity].
Qed.

End CountFacts.

(** ** src/hooks/useThumbnailSize.js: the size across a restart *)

Section SizeFacts.
Context `{NumberConv}.

Lemma Math_round_integer (z : Z) : Math_round (Fin (inject_Z z)) = Fin (inject_Z z).
Proof.
  unfold Math_round. do 2 f_equal.
  change (Qfloor (inject_Z z + (1 # 2))) with ((z * 2 + 1 * 1) / 2)%Z.
  symmetry. apply (Z.div_unique _ 2 z 1); lia.
Qed.

Lemma after_is_persist (item : value) (values : list value) :
  ThumbnailSize.after item values
  = ThumbnailSize.persist (ThumbnailSize.thumbnailSize (ThumbnailSize.after item values)).
Proof.
  unfold ThumbnailSize.after.
  assert (Hgen : forall h, h = ThumbnailSize.persist (ThumbnailSize.thumbnailSize h) ->
            fold_left (fun h v => ThumbnailSize.setThumbnailSize v h) values h
            = ThumbnailSize.persist
                (ThumbnailSize.thumbnailSize
                   (fold_left (fun h v => ThumbnailSize.setThumbnailSize v h) values h))).
  { induction values as [| v values IH]; intros h Hh; [exact Hh |].
    cbn [fold_left]. apply IH. unfold ThumbnailSize.setThumbnailSize.
    now destruct (Number_ v). }
  now apply Hgen.
Qed.

(** X2: What the hook has stored brings the size back: when the size is a whole
    number of the range and its rendering reads back as itself, a hook
    mounted on the stored entry is the hook that stored it. *)
Theorem thumbnail_size_restored (item : value) (values : list value) (z : Z) :
  ThumbnailSize.thumbnailSize (ThumbnailSize.after item values) = Fin (inject_Z z) ->
  in_range (Fin (inject_Z z)) = true ->
  string_to_number (number_to_string (Fin (inject_Z z))) = Fin (inject_Z z) ->
  ThumbnailSize.mount (ThumbnailSize.stored (ThumbnailSize.after item values))
  = ThumbnailSize.after item values.
Proof.
  intros Hsize Hrange Hlaw. rewrite (after_is_persist item values), Hsize.
  unfold ThumbnailSize.mount, ThumbnailSize.persist, ThumbnailSize.initialSize.
  cbn [ThumbnailSize.stored negb ToString ToNumber]. rewrite Hlaw.
  cbn [Number_isFinite negb]. rewrite Math_round_integer.
  now rewrite (clampThumbnailSize_id _ Hrange).
Qed.

End SizeFacts.

(** ** src/App.jsx: invariants of the component *)

Section AppInvariantFacts.
Context `{NumberConv}.
Import App AppInvariants.

(** A property of hydrations that [hydrateThumbnails] establishes and every
    settlement keeps holds of all hydrations, always. *)
Lemma hydrations_invariant (P : batch -> Prop) :
  (forall current items rid, P (hydrateThumbnails current items rid)) ->
  (forall current thumbnails b w r, P b -> P (thumbnail_settled current thumbnails b w r).2) ->
  forall tauri evs, Forall P (hydrations (run tauri start evs)).
Proof.
  intros Hnew Hstep tauri evs.
  assert (Hgen : forall s, Forall P (hydrations s) -> Forall P (hydrations (run tauri s evs))).
  { induction evs as [| e evs IH]; intros s Hs; [exact Hs |].
    rewrite app_run_cons. apply IH.
    destruct e as [folder | r | h w r]; cbn [step].
    - now destruct (loadGallery_call tauri folder (app s)).
    - destruct (scans s); [exact Hs |].
      assert (Hb : forall b, (loadGallery_settled r (app s)).2 = Some b -> P b).
      { unfold loadGallery_settled.
        destruct r as [response | e]; [| now destruct (String_ e)].
        cbn [snd]. intros b [= <-]. apply Hnew. }
      destruct (loadGallery_settled r (app s)) as [st hydration]. cbn in *.
      apply Forall_app. split; [exact Hs |].
      destruct hydration as [b |]; [| constructor]. apply Forall_singleton. now apply Hb.
    - destruct (hydrations s !! h) as [b |] eqn:Hb; [| exact Hs].
      specialize (Hstep (hydrationRunIdRef (app s)) (thumbnailDataByPath (app s)) b w r).
      destruct (thumbnail_settled _ _ b w r) as [thumbnails b']. cbn in *.
      apply Forall_insert; [exact Hs |]. apply Hstep.
      rewrite Forall_forall in Hs. apply Hs. eapply list_elem_of_lookup_2; eauto. }
  apply Hgen. constructor.
Qed.

Lemma worker_resume_invoked (current : nat) (b : batch) :
  length (invoked (worker_resume current b).1)
  = length (invoked b) + (if is_awaiting (worker_resume current b).2 then 1 else 0)
  /\ outcomes (worker_resume current b).1 = outcomes b
  /\ workers (worker_resume current b).1 = workers b.
Proof.
  unfold worker_resume.
  pose proof (worker_loop_spec current (runId b) (galleryItems b) (cursor b) (invoked b)) as Hspec.
  destruct (worker_loop _ _ _ _ _) as [[c' inv'] w]. cbn.
  destruct Hspec as (_ & _ & _ & Hw).
  destruct w as [index item | | e]; [| | contradiction].
  - destruct Hw as (_ & _ & _ & _ & path & _ & ->). rewrite length_app. cbn. auto.
  - destruct Hw as [-> _]. cbn. auto with lia.
Qed.

Lemma awaiting_count_le (ws : list worker) : awaiting_count ws <= length ws.
Proof.
  unfold awaiting_count. induction ws as [| w ws IH]; cbn; [lia |].
  destruct (is_awaiting w); lia.
Qed.

Lemma worker_call_accounted (current : nat) (b : batch) :
  in_flight_accounted b -> in_flight_accounted (worker_call current b).
Proof.
  unfold in_flight_accounted. intros Hb. rewrite worker_call_unfold. cbn.
  destruct (worker_resume_invoked current b) as (Hinv & Hout & Hws).
  rewrite Hinv, Hout, Hws. unfold awaiting_count in *. rewrite sum_list_with_app. cbn. lia.
Qed.

Lemma hydrateThumbnails_accounted (current : nat) (items : list value) (rid : nat) :
  in_flight_accounted (hydrateThumbnails current items rid).
Proof.
  unfold hydrateThumbnails. generalize (Nat.min maxConcurrent (length items)) as n.
  induction n as [| n IH]; [reflexivity |].
  rewrite Nat.iter_succ. now apply worker_call_accounted.
Qed.

Lemma thumbnail_settled_accounted (current : nat) (thumbnails : gmap string string)
    (b : batch) (w : nat) (r : settled) :
  in_flight_accounted b ->
  in_flight_accounted (thumbnail_settled current thumbnails b w r).2.
Proof.
  unfold in_flight_accounted. intros Hb.
  destruct (worker_cases b w) as [(index & item & Hw) | Hidle];
    [| now rewrite thumbnail_settled_idle].
  rewrite (thumbnail_settled_unfold _ _ _ _ _ _ _ Hw).
  destruct (worker_resume_invoked current (record_outcome index r b)) as (Hinv & Hout & Hws).
  cbn [record_outcome invoked outcomes workers] in Hinv, Hout, Hws.
  assert (Hresumed :
    length (invoked (set_worker w (worker_resume current (record_outcome index r b)).2
                                (worker_resume current (record_outcome index r b)).1))
    = length (outcomes (set_worker w (worker_resume current (record_outcome index r b)).2
                                   (worker_resume current (record_outcome index r b)).1))
      + awaiting_count
          (workers (set_worker w (worker_resume current (record_outcome index r b)).2
                               (worker_resume current (record_outcome index r b)).1))).
  { cbn [set_worker invoked outcomes workers]. rewrite Hinv, Hout, Hws, length_app. cbn [length].
    pose proof (awaiting_count_insert (workers b) w _
                  (worker_resume current (record_outcome index r b)).2 Hw) as Hcount.
    cbn [is_awaiting] in Hcount. lia. }
  destruct r as [dataUrl | e]; [destruct (runId b =? current)%nat |]; cbn [snd];
    try exact Hresumed.
  cbn [set_worker record_outcome invoked outcomes workers]. rewrite length_app. cbn [length].
  pose proof (awaiting_count_insert (workers b) w _ Returned Hw) as Hcount.
  cbn [is_awaiting] in Hcount. lia.
Qed.

(** X3: At any time and in every hydration, the invocations of
    [load_thumbnail] that were made and have not settled are those the
    workers await, and there are at most six of them. *)
Theorem thumbnails_in_flight_bounded (tauri : bool) (evs : list event) :
  Forall (fun b => length (invoked b) = length (outcomes b) + awaiting_count (workers b)
                   /\ awaiting_count (workers b) <= 6)
         (hydrations (run tauri start evs)).
Proof.
  pose proof (hydrations_invariant in_flight_accounted hydrateThumbnails_accounted
                thumbnail_settled_accounted tauri evs) as Hacc.
  pose proof (run_sys_ok tauri evs start start_sys_ok) as Hok.
  unfold sys_ok in Hok. rewrite Forall_forall in Hacc, Hok |- *.
  intros b Hb. split; [now apply Hacc |].
  destruct (Hok b Hb) as (_ & Hlen & _).
  pose proof (awaiting_count_le (workers b)). unfold maxConcurrent in Hlen. lia.
Qed.

Lemma thumbnail_settled_outcomes_incl (current : nat) (thumbnails : gmap string string)
    (b : batch) (w : nat) (r : settled) (o : nat * settled) :
  o ∈ outcomes b -> o ∈ outcomes (thumbnail_settled current thumbnails b w r).2.
Proof. intros Ho. rewrite thumbnail_settled_outcomes. apply elem_of_app. now left. Qed.

Lemma step_shown_from_current (tauri : bool) (s : sys) (e : event) :
  sys_ok s -> shown_from_current s -> shown_from_current (step tauri s e).
Proof.
  intros Hok Hshown. destruct e as [folder | r | h w r]; cbn [step].
  - unfold loadGallery_call, String_.
    destruct tauri; cbn [negb]; [destruct (convertible folder) |]; cbn;
      [| | exact Hshown];
      intros k v Hkv; cbn in Hkv; first [discriminate | now rewrite lookup_empty in Hkv].
  - destruct (scans s); [exact Hshown |].
    unfold loadGallery_settled.
    destruct r as [response | e]; [| destruct (String_ e)]; cbn; intros k v Hkv.
    + assert (Hkv' : thumbnailDataByPath (app s) !! k = Some v)
        by (destruct (ToBoolean _); exact Hkv).
      destruct (Hshown k v Hkv') as (h & b & index & item & dataUrl & Hb & Hrid & Hrest).
      exists h, b, index, item, dataUrl.
      split; [now apply lookup_app_l_Some |].
      split; [| exact Hrest]. now destruct (ToBoolean _).
    + destruct (Hshown k v Hkv) as (h & b & index & item & dataUrl & Hb & Hrest).
      exists h, b, index, item, dataUrl. rewrite app_nil_r. now split.
    + destruct (Hshown k v Hkv) as (h & b & index & item & dataUrl & Hb & Hrest).
      exists h, b, index, item, dataUrl. rewrite app_nil_r. now split.
  - destruct (hydrations s !! h) as [b |] eqn:Hb; [| exact Hshown].
    assert (Hbok : batch_ok b).
    { unfold sys_ok in Hok. rewrite Forall_forall in Hok.
      apply Hok. eapply list_elem_of_lookup_2; eauto. }
    pose proof (thumbnail_settled_merged (hydrationRunIdRef (app s))
                  (thumbnailDataByPath (app s)) (thumbnailDataByPath (app s)) b w r Hbok) as Hmerged.
    pose proof (thumbnail_settled_stale (hydrationRunIdRef (app s))
                  (thumbnailDataByPath (app s)) b w r) as Hstale.
    pose proof (thumbnail_settled_outcomes_incl (hydrationRunIdRef (app s))
                  (thumbnailDataByPath (app s)) b w r) as Hincl.
    destruct (thumbnail_settled_frame (hydrationRunIdRef (app s))
                (thumbnailDataByPath (app s)) b w r) as (Hitems & Hrid & _).
    destruct (thumbnail_settled _ _ b w r) as [thumbnails b']. cbn in *.
    assert (Hkeep : forall k v, thumbnailDataByPath (app s) !! k = Some v ->
              exists h0 b0 index item dataUrl,
                <[h := b']> (hydrations s) !! h0 = Some b0 /\
                runId b0 = hydrationRunIdRef (app s) /\
                (index, Resolved dataUrl) ∈ outcomes b0 /\
                galleryItems b0 !! index = Some item /\
                ToString (get_opt item "path") = k /\ v = ToString dataUrl).
    { intros k v Hkv.
      destruct (Hshown k v Hkv) as (h0 & b0 & index & item & dataUrl & Hb0 & Hrid0 & Hin & Hitem & Hrest).
      destruct (decide (h0 = h)) as [-> | Hne].
      - rewrite Hb in Hb0. injection Hb0 as <-.
        exists h, b', index, item, dataUrl.
        split; [apply list_lookup_insert_eq; now apply lookup_lt_Some in Hb |].
        split; [congruence |]. split; [now apply Hincl |].
        split; [now rewrite Hitems | exact Hrest].
      - exists h0, b0, index, item, dataUrl.
        split; [now rewrite list_lookup_insert_ne |]. auto. }
    intros k v Hkv.
    destruct (decide (runId b = hydrationRunIdRef (app s))) as [Hcur | Hne].
    + destruct (Hmerged ltac:(intros ? ? ?; now left) k v Hkv)
        as [Hold | (index & item & dataUrl & Hin & Hitem & Hrest)]; [now apply Hkeep |].
      exists h, b', index, item, dataUrl.
      split; [apply list_lookup_insert_eq; now apply lookup_lt_Some in Hb |].
      split; [cbn; congruence |]. auto.
    + rewrite (Hstale Hne) in Hkv. now apply Hkeep.
Qed.

(** X4: Every thumbnail the component shows is what [load_thumbnail] resolved
    to for an item of a hydration that runs under the current run id, at the
    path of that item. *)
Theorem thumbnails_shown_from_current (tauri : bool) (evs : list event) :
  shown_from_current (run tauri start evs).
Proof.
  assert (Hgen : forall s, sys_ok s -> shown_from_current s ->
                           shown_from_current (run tauri s evs)).
  { induction evs as [| e evs IH]; intros s Hok Hshown; [exact Hshown |].
    rewrite app_run_cons.
    apply IH; [now apply step_sys_ok | now apply step_shown_from_current]. }
  apply Hgen; [apply start_sys_ok |].
  intros k v Hkv. cbn in Hkv. first [discriminate | now rewrite lookup_empty in Hkv].
Qed.

End AppInvariantFacts.

(** ** src/hooks/useGallery.js: the whole hook *)

Section HookFacts.
Context `{NumberConv}.
Import Hook.

Lemma loadGallery_started (folder : value) (g : UseGallery.state) :
  convertible folder = true ->
  loadGallery true folder g
  = ((UseGallery.loadGallery_call true folder g).1,
     Some (S (UseGallery.loadRunIdRef g), folder))
  /\ UseGallery.loading (UseGallery.loadGallery_call true folder g).1 = true
  /\ UseGallery.loadRunIdRef (UseGallery.loadGallery_call true folder g).1
     = S (UseGallery.loadRunIdRef g).
Proof.
  intros Hfolder. unfold loadGallery. rewrite loadGallery_call_token, Hfolder.
  cbn [fst snd option_map].
  split; [reflexivity |]. split; [apply loadGallery_call_loading | apply loadGallery_call_ref].
Qed.

Lemma loadGallery_settled_loading (runId : nat) (r : settled) (g : UseGallery.state) :
  runId = UseGallery.loadRunIdRef g ->
  UseGallery.loading (UseGallery.loadGallery_settled runId r g) = false.
Proof.
  intros ->. unfold UseGallery.loadGallery_settled, UseGallery.loadGallery_finally.
  rewrite Nat.eqb_refl. cbn [negb].
  destruct r as [response | e];
    [destruct (ToBoolean (get_opt response "cancelled")) | destruct (String_ e)];
    cbn; now rewrite Nat.eqb_refl.
Qed.

(** The [catch] block of [loadInitialFolder] sets the error at most. *)
Lemma loadInitialFolder_catch_frame (disposed : bool) (e : value) (g : UseGallery.state) :
  UseGallery.loading (loadInitialFolder_catch disposed e g) = UseGallery.loading g /\
  UseGallery.loadRunIdRef (loadInitialFolder_catch disposed e g) = UseGallery.loadRunIdRef g.
Proof.
  unfold loadInitialFolder_catch. destruct (negb disposed); [| now split].
  now destruct (String_ e).
Qed.

Lemma loadGallery_awaited_frame (initialRun : option nat) (runId : nat) (r : settled)
    (g : UseGallery.state) :
  UseGallery.loading (loadGallery_awaited initialRun runId r g)
  = UseGallery.loading (UseGallery.loadGallery_settled runId r g) /\
  UseGallery.loadRunIdRef (loadGallery_awaited initialRun runId r g)
  = UseGallery.loadRunIdRef g.
Proof.
  unfold loadGallery_awaited, loadInitialFolder_awaited.
  pose proof (loadGallery_settled_ref runId r g) as Href.
  case_bool_decide; [| now split].
  destruct (UseGallery.loadGallery_rejected runId r g) as [e |]; [| now split].
  destruct (loadInitialFolder_catch_frame false e (UseGallery.loadGallery_settled runId r g))
    as [-> ->].
  now split.
Qed.

(** The invariant rests on the hook, the scans in flight and the scans
    started, and within the hook on the counter, the flag and the folder. *)
Lemma sys_ok_same (s s' : sys) (g : UseGallery.state) :
  sys_ok s ->
  hook s' = with_gallery g (hook s) ->
  UseGallery.loading g = UseGallery.loading (gallery (hook s)) ->
  UseGallery.loadRunIdRef g = UseGallery.loadRunIdRef (gallery (hook s)) ->
  inflight s' = inflight s -> scans s' = scans s ->
  sys_ok s'.
Proof.
  intros [Hl Hb Hi Hs] Hh Hld Href Hin Hsc.
  constructor; rewrite ?Hh, ?Hin, ?Hsc; cbn [gallery with_gallery selectedFolder];
    rewrite ?Hld, ?Href; assumption.
Qed.

(** A call that reaches the backend keeps the invariant. *)
Lemma sys_ok_started (s s' : sys) (folder : value) (ld : string * Z) :
  convertible folder = true ->
  sys_ok s ->
  hook s' = State (UseGallery.loadGallery_call true folder (gallery (hook s))).1 folder ld ->
  inflight s' = (inflight s ++ [S (UseGallery.loadRunIdRef (gallery (hook s)))])%list ->
  scans s' = (scans s ++ [(S (UseGallery.loadRunIdRef (gallery (hook s))), folder)])%list ->
  sys_ok s'.
Proof.
  intros Hfolder [Hl Hb Hi Hs] Hh Hin Hsc.
  destruct (loadGallery_started folder (gallery (hook s)) Hfolder) as (_ & Hld & Href).
  constructor; rewrite ?Hh, ?Hin, ?Hsc; cbn [gallery selectedFolder]; rewrite ?Hld, ?Href.
  - split; [intros _ | reflexivity]. apply elem_of_app. right. now apply list_elem_of_singleton.
  - rewrite fmap_app. apply Forall_app. split.
    + eapply Forall_impl; [exact Hb |]. cbn beta. intros; lia.
    + apply Forall_singleton. cbn. lia.
  - intros k [Hk | Hk%list_elem_of_singleton]%elem_of_app; rewrite fmap_app; apply elem_of_app.
    + left. now apply Hi.
    + right. subst k. now apply list_elem_of_singleton.
  - intros k f. rewrite last_snoc. now intros [= <- <-].
Qed.

Lemma started_call_ok (s : sys) (folder : value) (ld : string * Z) :
  convertible folder = true ->
  sys_ok s ->
  sys_ok (started s (State (loadGallery true folder (gallery (hook s))).1 folder ld,
                     (loadGallery true folder (gallery (hook s))).2)).
Proof.
  intros Hfolder Hok.
  destruct (loadGallery_started folder (gallery (hook s)) Hfolder) as (Hcall & _).
  rewrite Hcall. now apply (sys_ok_started s _ folder ld).
Qed.

Lemma started_none_ok (s : sys) (g : UseGallery.state) :
  sys_ok s ->
  UseGallery.loading g = UseGallery.loading (gallery (hook s)) ->
  UseGallery.loadRunIdRef g = UseGallery.loadRunIdRef (gallery (hook s)) ->
  sys_ok (started s (with_gallery g (hook s), None)).
Proof.
  intros Hok Hl Href.
  apply (sys_ok_same s _ g Hok); cbn; rewrite ?app_nil_r; auto.
Qed.

Lemma started_idle_ok (s : sys) : sys_ok s -> sys_ok (started s (hook s, None)).
Proof.
  intros Hok.
  apply (sys_ok_same s _ (gallery (hook s)) Hok); cbn; rewrite ?app_nil_r; auto.
  now destruct (hook s).
Qed.

(** The invariant looks at the hook, the scans in flight and the scans
    started only. *)
Lemma sys_ok_fields (s s' : sys) :
  sys_ok s -> hook s' = hook s -> inflight s' = inflight s -> scans s' = scans s ->
  sys_ok s'.
Proof.
  intros [Hl Hb Hi Hs] Hh Hin Hsc. constructor; rewrite ?Hh, ?Hin, ?Hsc; assumption.
Qed.

Lemma handleFolderDrop_ok (s : sys) (payload : value) (now : Z) :
  sys_ok s -> sys_ok (started s (handleFolderDrop true payload now (hook s))).
Proof.
  intros Hok. unfold handleFolderDrop.
  destruct (getDroppedPaths payload) as [[| nextFolder rest] | e];
    [now apply started_idle_ok | | now apply started_idle_ok].
  destruct (String.eqb _ _ && _); [now apply started_idle_ok | now apply started_call_ok].
Qed.

Lemma pickFolder_selected_ok (s : sys) (selected : value) :
  sys_ok s -> sys_ok (started s (pickFolder_selected true selected (hook s))).
Proof.
  intros Hok. unfold pickFolder_selected.
  destruct selected; try (now apply started_idle_ok). now apply started_call_ok.
Qed.

Lemma loadInitialFolder_settled_ok (s : sys) (r : settled) :
  initial_folder_converts (InitialFolder r) ->
  sys_ok s -> sys_ok (started s (loadInitialFolder_settled true false r (hook s))).
Proof.
  intros Hr Hok. unfold loadInitialFolder_settled. cbn [negb andb].
  destruct r as [initialFolder | e]; [destruct (ToBoolean initialFolder) |].
  - cbn in Hr. unfold UseGallery.loadGallery_call_rejected.
    rewrite (String_convertible _ Hr). cbn [negb loadInitialFolder_awaited].
    now apply started_call_ok.
  - now apply started_idle_ok.
  - destruct (loadInitialFolder_catch_frame false e (gallery (hook s))) as [Hl Href].
    now apply started_none_ok.
Qed.

Lemma onProgress_frame (payload : value) (g : UseGallery.state) :
  UseGallery.loading (onProgress payload g) = UseGallery.loading g /\
  UseGallery.loadRunIdRef (onProgress payload g) = UseGallery.loadRunIdRef g.
Proof.
  unfold onProgress. destruct (negb (ToBoolean payload) || _); [now split |].
  now destruct (progress_text payload).
Qed.

Lemma stopGalleryScan_settled_frame (r : settled) (g : UseGallery.state) :
  UseGallery.loading (stopGalleryScan_settled r g) = UseGallery.loading g /\
  UseGallery.loadRunIdRef (stopGalleryScan_settled r g) = UseGallery.loadRunIdRef g /\
  UseGallery.items (stopGalleryScan_settled r g) = UseGallery.items g /\
  UseGallery.thumbnailDataByPath (stopGalleryScan_settled r g)
  = UseGallery.thumbnailDataByPath g.
Proof.
  unfold stopGalleryScan_settled. destruct r as [ack | e]; [now repeat split |].
  now destruct (String_ e).
Qed.

Lemma step_sys_ok_tauri (s : sys) (e : event) :
  initial_folder_converts e -> sys_ok s -> sys_ok (step true s e).
Proof.
  intros He Hok. destruct e as [r | payload now | | selected | payload | | r | runId r];
    cbn [step].
  - destruct (initialPending s); [| exact Hok].
    now apply (sys_ok_fields _ _ (loadInitialFolder_settled_ok s r He Hok)).
  - now apply handleFolderDrop_ok.
  - now apply (sys_ok_same s _ (UseGallery.setError "" (gallery (hook s)))).
  - destruct (dialogs s); [exact Hok |].
    now apply (sys_ok_fields _ _ (pickFolder_selected_ok s selected Hok)).
  - destruct (onProgress_frame payload (gallery (hook s))) as [Hl Href].
    now apply (sys_ok_same s _ (onProgress payload (gallery (hook s)))).
  - destruct (stopGalleryScan_call _); [| exact Hok]. now apply (sys_ok_fields s).
  - destruct (cancels s); [exact Hok |].
    destruct (stopGalleryScan_settled_frame r (gallery (hook s))) as (Hl & Href & _).
    now apply (sys_ok_same s _ (stopGalleryScan_settled r (gallery (hook s)))).
  - case_bool_decide as Hin; [| exact Hok]. destruct Hok as [Hl Hb Hi Hs].
    destruct (loadGallery_awaited_frame (initialRun s) runId r (gallery (hook s)))
      as [Hld Href].
    constructor; cbn [hook inflight scans with_hook with_gallery gallery selectedFolder];
      rewrite ?Href, ?Hld; try assumption.
    + destruct (decide (runId = UseGallery.loadRunIdRef (gallery (hook s)))) as [-> | Hne].
      * rewrite loadGallery_settled_loading by reflexivity.
        split; [discriminate |]. now intros [Hk _]%list_elem_of_filter.
      * rewrite loadGallery_settled_stale by exact Hne. rewrite Hl. split.
        -- intros Hk. apply list_elem_of_filter. split; [congruence | exact Hk].
        -- now intros [_ Hk]%list_elem_of_filter.
    + intros k [_ Hk]%list_elem_of_filter. now apply Hi.
Qed.

Lemma run_sys_ok_tauri (evs : list event) (s : sys) :
  Forall initial_folder_converts evs -> sys_ok s -> sys_ok (run true s evs).
Proof.
  revert s. induction evs as [| e evs IH]; intros s Hevs Hok; [exact Hok |].
  apply Forall_cons in Hevs as [He Hevs].
  apply (IH (step true s e) Hevs). now apply step_sys_ok_tauri.
Qed.

Lemma sys_ok_idle (s : sys) :
  inflight s = [] -> scans s = [] -> UseGallery.loading (gallery (hook s)) = false ->
  sys_ok s.
Proof.
  intros Hin Hsc Hl. constructor; rewrite ?Hin, ?Hsc, ?Hl.
  - split; [discriminate |]. intros Hk. now apply not_elem_of_nil in Hk.
  - constructor.
  - intros k Hk. now apply not_elem_of_nil in Hk.
  - discriminate.
Qed.

(** Outside the Tauri run time nothing is ever started. *)
Lemma run_idle (evs : list event) (s : sys) :
  inflight s = [] -> scans s = [] -> dialogs s = 0 -> initialPending s = false ->
  UseGallery.loading (gallery (hook s)) = false ->
  sys_ok (run false s evs).
Proof.
  revert s. induction evs as [| e evs IH]; intros s Hin Hsc Hd Hp Hl;
    [now apply sys_ok_idle |].
  assert (Hstep : inflight (step false s e) = [] /\ scans (step false s e) = [] /\
                  dialogs (step false s e) = 0 /\ initialPending (step false s e) = false /\
                  UseGallery.loading (gallery (hook (step false s e))) = false).
  { destruct e as [r | payload now | | selected | payload | | r | runId r]; cbn [step].
    - now rewrite Hp.
    - auto.
    - cbn. rewrite Hd. auto.
    - now rewrite Hd.
    - auto.
    - unfold stopGalleryScan_call. now rewrite Hl.
    - destruct (cancels s); [auto |]. cbn. repeat (split; [assumption |]).
      now rewrite (proj1 (stopGalleryScan_settled_frame r (gallery (hook s)))).
    - case_bool_decide as Hk; [| auto]. rewrite Hin in Hk. now apply not_elem_of_nil in Hk. }
  destruct Hstep as (? & ? & ? & ? & ?). now apply (IH (step false s e)).
Qed.

Lemma run_start_ok (tauri : bool) (evs : list event) :
  Forall initial_folder_converts evs -> sys_ok (run tauri (start tauri) evs).
Proof.
  intros Hevs. destruct tauri.
  - apply run_sys_ok_tauri; [exact Hevs |]. now apply sys_ok_idle.
  - now apply run_idle.
Qed.

(** X5: When the initial folder that the backend gives has a conversion to
    a string (it is a path or [null]), the hook is loading exactly while
    the scan of its current run is in flight, whatever was dropped, picked,
    stopped or reported before; and it is only then that the Stop button
    reaches the backend. *)
Theorem hook_loading_while_in_flight (tauri : bool) (evs : list event) :
  Forall initial_folder_converts evs ->
  (UseGallery.loading (gallery (hook (run tauri (start tauri) evs))) = true <->
   UseGallery.loadRunIdRef (gallery (hook (run tauri (start tauri) evs)))
     ∈ inflight (run tauri (start tauri) evs))
  /\ cancels (step tauri (run tauri (start tauri) evs) Stop)
     = cancels (run tauri (start tauri) evs)
       + (if bool_decide
               (UseGallery.loadRunIdRef (gallery (hook (run tauri (start tauri) evs)))
                  ∈ inflight (run tauri (start tauri) evs))
          then 1 else 0).
Proof.
  intros Hevs. pose proof (loading_in_flight _ (run_start_ok tauri evs Hevs)) as Hl.
  split; [exact Hl |]. cbn [step]. unfold stopGalleryScan_call.
  destruct (UseGallery.loading _) eqn:Hld.
  - rewrite bool_decide_eq_true_2 by now apply Hl. reflexivity.
  - rewrite bool_decide_eq_false_2; [lia |]. intros Hin. apply Hl in Hin. discriminate.
Qed.

(** X6: When the initial folder that the backend gives has a conversion to
    a string, the scan started last runs under the current run id, for the
    folder the hook shows. *)
Theorem hook_folder_of_latest_scan
    (tauri : bool) (evs : list event) (runId : nat) (folder : value) :
  Forall initial_folder_converts evs ->
  last (scans (run tauri (start tauri) evs)) = Some (runId, folder) ->
  runId = UseGallery.loadRunIdRef (gallery (hook (run tauri (start tauri) evs)))
  /\ folder = selectedFolder (hook (run tauri (start tauri) evs)).
Proof. intros Hevs. apply (latest_scan _ (run_start_ok tauri evs Hevs)). Qed.

(** X7: One drop makes one scan.  A drop of a folder that was not dropped
    within the last half second starts a scan of the first path and shows
    it; the same folder dropped again less than 500 ms later changes nothing
    and starts nothing; a drop without paths changes nothing either. *)
Theorem folder_drop_once
    (payload payload' payload0 : value) (p : string) (rest rest' : list string)
    (now1 now2 : Z) (h : state) :
  getDroppedPaths payload = Normal (p :: rest) ->
  getDroppedPaths payload' = Normal (p :: rest') ->
  getDroppedPaths payload0 = Normal [] ->
  (lastDroppedFolderRef h).1 <> p \/ (500 <= now1 - (lastDroppedFolderRef h).2)%Z ->
  (now2 - now1 < 500)%Z ->
  handleFolderDrop true payload now1 h
  = (State (UseGallery.loadGallery_call true (Str p) (gallery h)).1 (Str p) (p, now1),
     Some (S (UseGallery.loadRunIdRef (gallery h)), Str p))
  /\ handleFolderDrop true payload' now2 (handleFolderDrop true payload now1 h).1
     = ((handleFolderDrop true payload now1 h).1, None)
  /\ handleFolderDrop true payload0 now1 h = (h, None).
Proof.
  intros Hp Hp' Hp0 Hfresh Hsoon.
  destruct (loadGallery_started (Str p) (gallery h) eq_refl) as (Hcall & _).
  assert (Hfirst : handleFolderDrop true payload now1 h
            = (State (UseGallery.loadGallery_call true (Str p) (gallery h)).1 (Str p) (p, now1),
               Some (S (UseGallery.loadRunIdRef (gallery h)), Str p))).
  { unfold handleFolderDrop. rewrite Hp, Hcall. cbn [fst snd].
    destruct (String.eqb_spec (lastDroppedFolderRef h).1 p) as [Heq | Hne]; cbn [andb];
      [| reflexivity].
    destruct (Z.ltb_spec (now1 - (lastDroppedFolderRef h).2) 500); [| reflexivity].
    destruct Hfresh; [contradiction | lia]. }
  split; [exact Hfirst |]. split.
  - rewrite Hfirst. unfold handleFolderDrop. rewrite Hp'. cbn [fst snd lastDroppedFolderRef].
    rewrite String.eqb_refl. cbn [andb].
    now destruct (Z.ltb_spec (now2 - now1) 500); [| lia].
  - unfold handleFolderDrop. now rewrite Hp0.
Qed.

(** X8: A stop request does not supersede the scan: it touches neither the run
    id nor what is shown, and once the scan of the current run settles the
    hook is what it would be had the request not been acknowledged. *)
Theorem stop_keeps_run_current
    (runId : nat) (ack : value) (r r' : settled) (g : UseGallery.state) :
  runId = UseGallery.loadRunIdRef g ->
  UseGallery.loadGallery_settled runId r (stopGalleryScan_settled (Resolved ack) g)
  = UseGallery.loadGallery_settled runId r g
  /\ UseGallery.loadRunIdRef (stopGalleryScan_settled r' g) = UseGallery.loadRunIdRef g
  /\ UseGallery.items (stopGalleryScan_settled r' g) = UseGallery.items g
  /\ UseGallery.thumbnailDataByPath (stopGalleryScan_settled r' g)
     = UseGallery.thumbnailDataByPath g
  /\ UseGallery.loading (stopGalleryScan_settled r' g) = UseGallery.loading g.
Proof.
  intros ->. split.
  - destruct g as [its st ld lt err th ref].
    unfold UseGallery.loadGallery_settled, UseGallery.loadGallery_finally,
      stopGalleryScan_settled.
    cbn [UseGallery.loadRunIdRef UseGallery.setStatus UseGallery.items UseGallery.status
         UseGallery.loading UseGallery.loadingText UseGallery.error
         UseGallery.thumbnailDataByPath].
    rewrite Nat.eqb_refl. cbn [negb].
    destruct r as [response | e];
      [destruct (ToBoolean (get_opt response "cancelled")) | destruct (String_ e)];
      cbn; now rewrite Nat.eqb_refl.
  - destruct (stopGalleryScan_settled_frame r' g) as (Hl & Href & Hitems & Hmap). auto.
Qed.

End HookFacts.

(** ** src/hooks/usePreview.js: loading the preview *)

Section PreviewLoadFacts.
Context `{NumberConv} (convertFileSrc : value -> string).
Import Preview.

Local Abbreviation sys_ok := (Preview.sys_ok convertFileSrc).
Local Abbreviation step := (Preview.step convertFileSrc).
Local Abbreviation run := (Preview.run convertFileSrc).

Lemma existsb_pending_false (l : list task) :
  (forall t k, l !! t = Some k -> pending k = false) -> existsb pending l = false.
Proof.
  induction l as [| k l IH]; intros Hl; [reflexivity |]. cbn.
  rewrite (Hl 0 k eq_refl). apply IH. intros t k' Hk'. now apply (Hl (S t)).
Qed.

Lemma existsb_pending_insert (l : list task) (t : nat) (k k' : task) :
  l !! t = Some k -> pending k' = pending k ->
  existsb pending (<[t := k']> l) = existsb pending l.
Proof.
  revert t. induction l as [| x l IH]; intros t Ht Hp; [discriminate |].
  destruct t as [| t]; cbn in Ht |- *.
  - injection Ht as ->. now rewrite Hp.
  - f_equal. exact (IH t Ht Hp).
Qed.

Lemma preview_run_cons (tauri : bool) (e : event) (evs : list event) (s : sys) :
  run tauri s (e :: evs) = run tauri (step tauri s e) evs.
Proof. reflexivity. Qed.

(** A call of [loadPreview] that was cancelled sets nothing when its load
    ends; one that was not ends the loading, and its image is the full
    image when that has a conversion to a string. *)
Lemma full_image_settled_cancelled (r : settled) (st : state) :
  full_image_settled true r st = st.
Proof. now destruct r. Qed.

Lemma full_image_settled_current (r : settled) (st : state) :
  previewLoading (full_image_settled false r st) = false /\
  previewImageSrc (full_image_settled false r st)
  = match r with
    | Resolved dataUrl =>
        if convertible dataUrl then ToString dataUrl else previewImageSrc st
    | Rejected _ => previewImageSrc st
    end.
Proof.
  unfold full_image_settled, catch, finally, String_. cbn [negb].
  destruct r as [dataUrl | e].
  - destruct (convertible dataUrl); [now split |]. cbn [convertible]. now split.
  - destruct (convertible e); now split.
Qed.

(** A run of the effect that has not been cancelled is the last one. *)
Lemma uncancelled_last (s : sys) (t : nat) (k : task) :
  sys_ok s -> tasks s !! t = Some k -> cancelled k = false -> S t = length (tasks s).
Proof.
  intros Hok Hk Hc. pose proof (lookup_lt_Some _ _ _ Hk) as Hlt.
  destruct (decide (S t < length (tasks s))) as [Hlt' | Hge]; [| lia].
  rewrite (earlier_cancelled _ _ Hok t k Hk Hlt') in Hc. discriminate.
Qed.

(** Settling a run that was cancelled changes nothing that is shown. *)
Lemma cancelled_settles_silently (tauri : bool) (s : sys) (t : nat) (k : task)
    (assetLoaded : bool) (r : settled) :
  tasks s !! t = Some k -> cancelled k = true ->
  shown (step tauri s (ProbeSettled t assetLoaded)) = shown s /\
  shown (step tauri s (FullImageSettled t r)) = shown s.
Proof.
  intros Hk Hc. cbn [Preview.step]. rewrite Hk.
  destruct k as [v c [assetUrl | |]]; cbn in Hc; subst c; cbn; try tauto.
  - split; [| reflexivity]. now destruct assetLoaded.
  - split; [reflexivity |]. apply full_image_settled_cancelled.
Qed.

Lemma step_preview_ok (s : sys) (e : event) : sys_ok s -> sys_ok (step true s e).
Proof.
  intros Hok. destruct e as [v | t assetLoaded | t r]; cbn [Preview.step].
  - (* the item changes *)
    assert (Hcancelled : forall t k, (cancel <$> tasks s) !! t = Some k -> cancelled k = true).
    { intros t k. rewrite list_lookup_fmap. destruct (tasks s !! t); now intros [= <-]. }
    unfold effect_start. destruct (ToBoolean v) eqn:Hv; cbn [negb fst snd option_list fmap option_fmap option_map].
    + constructor; cbn [shown previewItem tasks loaded previewLoading previewImageSrc].
      * rewrite existsb_app. cbn. now rewrite orb_true_r.
      * intros t k Hk Hlt. rewrite length_app in Hlt. cbn in Hlt.
        apply lookup_app_Some in Hk as [Hk | [Hge _]]; [now apply (Hcancelled t) | lia].
      * intros t k Hk Hc.
        apply lookup_app_Some in Hk as [Hk | [_ Hk]].
        -- rewrite (Hcancelled t k Hk) in Hc. discriminate.
        -- apply list_lookup_singleton_Some in Hk as [_ <-]. reflexivity.
      * intros t k assetUrl Hk Hst.
        apply lookup_app_Some in Hk as [Hk | [_ Hk]].
        -- rewrite list_lookup_fmap in Hk.
           destruct (tasks s !! t) as [k0 |] eqn:Hk0; [| discriminate].
           injection Hk as <-. now apply (probe_url _ _ Hok t k0).
        -- apply list_lookup_singleton_Some in Hk as [_ <-]. cbn in Hst |- *. congruence.
      * now left.
    + rewrite app_nil_r.
      constructor; cbn [shown previewItem tasks loaded previewLoading previewImageSrc].
      * symmetry. apply existsb_pending_false. intros t k Hk.
        unfold pending. now rewrite (Hcancelled t k Hk).
      * intros t k Hk _. now apply (Hcancelled t).
      * intros t k Hk Hc. rewrite (Hcancelled t k Hk) in Hc. discriminate.
      * intros t k assetUrl Hk Hst. rewrite list_lookup_fmap in Hk.
        destruct (tasks s !! t) as [k0 |] eqn:Hk0; [| discriminate].
        injection Hk as <-. now apply (probe_url _ _ Hok t k0).
      * now left.
  - (* a probe ends *)
    destruct (tasks s !! t) as [[v c [assetUrl | |]] |] eqn:Hk; try exact Hok.
    pose proof (lookup_lt_Some _ _ _ Hk) as Hlt.
    assert (Hothers : forall j k k', <[t := k']> (tasks s) !! j = Some k -> j <> t ->
              tasks s !! j = Some k).
    { intros j k k' Hj Hne. now rewrite list_lookup_insert_ne in Hj. }
    destruct c.
    + (* of a run that was cancelled *)
      assert (Hshown : (probe_settled true assetUrl assetLoaded (shown s)).1 = shown s)
        by now destruct assetLoaded.
      rewrite Hshown. destruct Hok as [Hl He Hc Hp Hs].
      constructor; cbn [shown previewItem tasks loaded]; rewrite ?length_insert.
      * rewrite Hl. symmetry. now apply (existsb_pending_insert _ _ _ _ Hk).
      * intros j k Hj Hjl. apply list_lookup_insert_Some in Hj as [(<- & <- & _) | (Hne & Hj)];
          [reflexivity | now apply (He j)].
      * intros j k Hj Hjc. apply list_lookup_insert_Some in Hj as [(<- & <- & _) | (Hne & Hj)];
          [discriminate | now apply (Hc j)].
      * intros j k url Hj Hst.
        apply list_lookup_insert_Some in Hj as [(<- & <- & _) | (Hne & Hj)];
          [| now apply (Hp j)].
        cbn in Hst. now destruct (probe_settled _ _ _ _).2.
      * exact Hs.
    + (* of the run for the item selected *)
      pose proof (uncancelled_last s t _ Hok Hk eq_refl) as Hlast.
      pose proof (current_item _ _ Hok t _ Hk eq_refl) as Hitem. cbn in Hitem.
      pose proof (probe_url _ _ Hok t _ assetUrl Hk eq_refl) as Hurl. cbn in Hurl.
      destruct Hok as [Hl He Hc Hp Hs]. unfold probe_settled. destruct assetLoaded; cbn.
      * constructor; cbn [shown previewItem tasks loaded previewLoading previewImageSrc];
          rewrite ?length_insert.
        -- symmetry. apply existsb_pending_false. intros j k Hj.
           apply list_lookup_insert_Some in Hj as [(<- & <- & _) | (Hne & Hj)]; [reflexivity |].
           unfold pending. rewrite (He j k Hj); [reflexivity |].
           apply lookup_lt_Some in Hj. lia.
        -- intros j k Hj Hjl.
           apply list_lookup_insert_Some in Hj as [(<- & <- & _) | (Hne & Hj)]; [lia |].
           now apply (He j).
        -- intros j k Hj Hjc.
           apply list_lookup_insert_Some in Hj as [(<- & <- & _) | (Hne & Hj)];
             [exact Hitem | now apply (Hc j)].
        -- intros j k url Hj Hst.
           apply list_lookup_insert_Some in Hj as [(<- & <- & _) | (Hne & Hj)];
             [discriminate | now apply (Hp j)].
        -- right. left. now rewrite <- Hitem.
      * constructor; cbn [shown previewItem tasks loaded]; rewrite ?length_insert.
        -- rewrite Hl. symmetry. now apply (existsb_pending_insert _ _ _ _ Hk).
        -- intros j k Hj Hjl.
           apply list_lookup_insert_Some in Hj as [(<- & <- & _) | (Hne & Hj)]; [lia |].
           now apply (He j).
        -- intros j k Hj Hjc.
           apply list_lookup_insert_Some in Hj as [(<- & <- & _) | (Hne & Hj)];
             [exact Hitem | now apply (Hc j)].
        -- intros j k url Hj Hst.
           apply list_lookup_insert_Some in Hj as [(<- & <- & _) | (Hne & Hj)];
             [discriminate | now apply (Hp j)].
        -- exact Hs.
  - (* a full image settles *)
    destruct (tasks s !! t) as [[v c [assetUrl | |]] |] eqn:Hk; try exact Hok.
    pose proof (lookup_lt_Some _ _ _ Hk) as Hlt.
    assert (Hkeep : previewImageSrc (shown s) = "" \/
              previewImageSrc (shown s) = convertFileSrc (get_opt (previewItem s) "path") \/
              exists dataUrl,
                (previewItem s, dataUrl) ∈
                  (loaded s ++ match r with
                               | Resolved dataUrl => [(v, dataUrl)]
                               | Rejected _ => []
                               end)%list /\
                previewImageSrc (shown s) = ToString dataUrl).
    { destruct (shown_for_item _ _ Hok) as [? | [? | (d & Hd & ?)]]; auto.
      right. right. exists d. split; [apply elem_of_app; now left | assumption]. }
    destruct c.
    + rewrite full_image_settled_cancelled. destruct Hok as [Hl He Hc Hp Hs].
      constructor; cbn [shown previewItem tasks loaded]; rewrite ?length_insert.
      * rewrite Hl. symmetry. now apply (existsb_pending_insert _ _ _ _ Hk).
      * intros j k Hj Hjl. apply list_lookup_insert_Some in Hj as [(<- & <- & _) | (Hne & Hj)];
          [reflexivity | now apply (He j)].
      * intros j k Hj Hjc. apply list_lookup_insert_Some in Hj as [(<- & <- & _) | (Hne & Hj)];
          [discriminate | now apply (Hc j)].
      * intros j k url Hj Hst.
        apply list_lookup_insert_Some in Hj as [(<- & <- & _) | (Hne & Hj)];
          [discriminate | now apply (Hp j)].
      * exact Hkeep.
    + pose proof (uncancelled_last s t _ Hok Hk eq_refl) as Hlast.
      pose proof (current_item _ _ Hok t _ Hk eq_refl) as Hitem. cbn in Hitem.
      destruct Hok as [Hl He Hc Hp Hs].
      constructor; cbn [shown previewItem tasks loaded]; rewrite ?length_insert.
      * assert (Hfalse : existsb pending (<[t := Task v false Finished]> (tasks s)) = false).
        { apply existsb_pending_false. intros j k Hj.
          apply list_lookup_insert_Some in Hj as [(<- & <- & _) | (Hne & Hj)]; [reflexivity |].
          unfold pending. rewrite (He j k Hj); [reflexivity |].
          apply lookup_lt_Some in Hj. lia. }
        rewrite Hfalse. apply full_image_settled_current.
      * intros j k Hj Hjl.
        apply list_lookup_insert_Some in Hj as [(<- & <- & _) | (Hne & Hj)]; [lia |].
        now apply (He j).
      * intros j k Hj Hjc.
        apply list_lookup_insert_Some in Hj as [(<- & <- & _) | (Hne & Hj)];
          [exact Hitem | now apply (Hc j)].
      * intros j k url Hj Hst.
        apply list_lookup_insert_Some in Hj as [(<- & <- & _) | (Hne & Hj)];
          [discriminate | now apply (Hp j)].
      * rewrite (proj2 (full_image_settled_current r (shown s))).
        destruct r as [dataUrl | e]; [| exact Hkeep].
        destruct (convertible dataUrl); [| exact Hkeep].
        right. right. exists dataUrl. split; [| reflexivity].
        apply elem_of_app. right. rewrite Hitem. now apply list_elem_of_singleton.
Qed.

End PreviewLoadFacts.

Section PreviewFacts.
Context `{NumberConv} (convertFileSrc : value -> string).
Import Preview.

Local Abbreviation sys_ok := (Preview.sys_ok convertFileSrc).
Local Abbreviation step := (Preview.step convertFileSrc).
Local Abbreviation run := (Preview.run convertFileSrc).

Lemma run_preview_ok (evs : list event) (s : sys) : sys_ok s -> sys_ok (run true s evs).
Proof.
  revert s. induction evs as [| e evs IH]; intros s Hok; [exact Hok |].
  rewrite preview_run_cons. apply IH. now apply step_preview_ok.
Qed.

(** Outside the Tauri runtime the effect starts no load. *)
Lemma run_preview_no_tauri (evs : list event) (s : sys) :
  tasks s = [] -> previewLoading (shown s) = false -> previewImageSrc (shown s) = "" ->
  tasks (run false s evs) = [] /\
  previewLoading (shown (run false s evs)) = false /\
  previewImageSrc (shown (run false s evs)) = "".
Proof.
  revert s. induction evs as [| e evs IH]; intros s Ht Hl Hs; [auto |].
  rewrite preview_run_cons.
  destruct e as [v | t assetLoaded | t r]; cbn [Preview.step].
  - apply IH; unfold effect_start; rewrite Ht; destruct (ToBoolean v); cbn; auto.
  - rewrite Ht. cbn. now apply IH.
  - rewrite Ht. cbn. now apply IH.
Qed.

Lemma start_preview_ok : sys_ok start.
Proof.
  constructor; cbn; try (intros; discriminate); [reflexivity | now left].
Qed.

Lemma preview_ok (tauri : bool) (evs : list event) : sys_ok (run tauri start evs).
Proof.
  destruct tauri; [apply run_preview_ok, start_preview_ok |].
  destruct (run_preview_no_tauri evs start eq_refl eq_refl eq_refl) as (Ht & Hl & Hs).
  constructor; rewrite ?Ht, ?Hl; try (intros; discriminate); [reflexivity | now left].
Qed.

(** X9: The loading indicator of the preview is on exactly while a load that
    has not been cancelled is pending; such a load is the one started last,
    and it was started for the item selected now. *)
Theorem preview_loading_while_pending (tauri : bool) (evs : list event) :
  previewLoading (shown (run tauri start evs))
    = existsb pending (tasks (run tauri start evs)) /\
  forall t k,
    tasks (run tauri start evs) !! t = Some k -> pending k = true ->
    S t = length (tasks (run tauri start evs)) /\
    item k = previewItem (run tauri start evs).
Proof.
  pose proof (preview_ok tauri evs) as Hok. split; [apply (loading_pending _ _ Hok) |].
  intros t k Hk Hp. unfold pending in Hp. apply andb_true_iff in Hp as [Hc _].
  apply negb_true_iff in Hc. split.
  - now apply (uncancelled_last convertFileSrc _ t k Hok).
  - now apply (current_item _ _ Hok t k).
Qed.

(** X10: Whatever the order in which probes and loads of earlier and later
    selections end, the image source shown is empty, or the asset URL of the
    item selected now, or a full image that was loaded for that item. *)
Theorem preview_image_of_selected_item (tauri : bool) (evs : list event) :
  previewImageSrc (shown (run tauri start evs)) = "" \/
  previewImageSrc (shown (run tauri start evs))
    = convertFileSrc (get_opt (previewItem (run tauri start evs)) "path") \/
  exists dataUrl,
    (previewItem (run tauri start evs), dataUrl) ∈ loaded (run tauri start evs) /\
    previewImageSrc (shown (run tauri start evs)) = ToString dataUrl.
Proof. apply (shown_for_item _ _ (preview_ok tauri evs)). Qed.

Lemma cancelled_stays (tauri : bool) (s : sys) (e : event) (t : nat) (k : task) :
  tasks s !! t = Some k -> cancelled k = true ->
  exists k', tasks (step tauri s e) !! t = Some k' /\ cancelled k' = true.
Proof.
  intros Hk Hc. destruct e as [v | t' assetLoaded | t' r]; cbn [Preview.step tasks].
  - exists (cancel k). split; [| reflexivity].
    apply lookup_app_l_Some. now rewrite list_lookup_fmap, Hk.
  - destruct (tasks s !! t') as [[v c [assetUrl | |]] |] eqn:Hk'; eauto.
    cbn [tasks]. destruct (decide (t = t')) as [-> | Hne].
    + rewrite Hk in Hk'. injection Hk' as ->. cbn in Hc. subst c.
      eexists. split; [apply list_lookup_insert_eq; now apply lookup_lt_Some in Hk |].
      reflexivity.
    + exists k. now rewrite list_lookup_insert_ne.
  - destruct (tasks s !! t') as [[v c [assetUrl | |]] |] eqn:Hk'; eauto.
    cbn [tasks]. destruct (decide (t = t')) as [-> | Hne].
    + rewrite Hk in Hk'. injection Hk' as ->. cbn in Hc. subst c.
      eexists. split; [apply list_lookup_insert_eq; now apply lookup_lt_Some in Hk |].
      reflexivity.
    + exists k. now rewrite list_lookup_insert_ne.
Qed.

Lemma cancelled_stays_run (tauri : bool) (evs : list event) (s : sys) (t : nat) (k : task) :
  tasks s !! t = Some k -> cancelled k = true ->
  exists k', tasks (run tauri s evs) !! t = Some k' /\ cancelled k' = true.
Proof.
  revert s k. induction evs as [| e evs IH]; intros s k Hk Hc; [eauto |].
  rewrite preview_run_cons.
  destruct (cancelled_stays tauri s e t k Hk Hc) as (k' & Hk' & Hc'). eauto.
Qed.

Lemma preview_run_app (tauri : bool) (evs1 evs2 : list event) (s : sys) :
  run tauri s (evs1 ++ evs2) = run tauri (run tauri s evs1) evs2.
Proof. apply fold_left_app. Qed.

(** X11: Once another item has been selected (or the preview closed), the probe
    and the load of an earlier selection change nothing that is shown when
    they end, however late: neither the image, nor the loading indicator,
    nor the error. *)
Theorem superseded_preview_silent (tauri : bool) (evs1 evs2 : list event) (v : value)
    (t : nat) (assetLoaded : bool) (r : settled) :
  t < length (tasks (run tauri start evs1)) ->
  shown (step tauri (run tauri start (evs1 ++ Changed v :: evs2)%list)
           (ProbeSettled t assetLoaded))
    = shown (run tauri start (evs1 ++ Changed v :: evs2)%list) /\
  shown (step tauri (run tauri start (evs1 ++ Changed v :: evs2)%list)
           (FullImageSettled t r))
    = shown (run tauri start (evs1 ++ Changed v :: evs2)%list).
Proof.
  intros Hlt. rewrite preview_run_app, preview_run_cons.
  destruct (lookup_lt_is_Some_2 _ _ Hlt) as [k Hk].
  assert (Hk1 : tasks (step tauri (run tauri start evs1) (Changed v)) !! t = Some (cancel k)).
  { cbn [Preview.step tasks]. apply lookup_app_l_Some. now rewrite list_lookup_fmap, Hk. }
  destruct (cancelled_stays_run tauri evs2 _ t _ Hk1 eq_refl) as (k' & Hk' & Hc').
  now apply (cancelled_settles_silently convertFileSrc tauri _ t k').
Qed.

End PreviewFacts.

(** ** src/hooks/usePreview.js: moving through the gallery *)

Section PreviewNavigationFacts.
Context `{NumberConv} (same_object : value -> value -> bool).
Import Preview.

Local Abbreviation findIndex_path := (Preview.findIndex_path same_object).
Local Abbreviation currentPreviewIndex := (Preview.currentPreviewIndex same_object).

Lemma findIndex_path_bounds (target : value) (items : list value) (index i : Z) :
  findIndex_path target items index = Normal i ->
  (i = -1 \/ index <= i < index + Z.of_nat (length items))%Z.
Proof.
  revert index. induction items as [| item rest IH]; intros index Hi; cbn in Hi.
  - injection Hi as <-. now left.
  - destruct (get item "path") as [path | e]; cbn in Hi; [| discriminate].
    destruct (strict_equal same_object path target).
    + injection Hi as <-. right. cbn [length]. lia.
    + destruct (IH _ Hi) as [-> | Hb]; [now left | right]. cbn [length]. lia.
Qed.

(** X12: The buttons of the preview tell what navigation does: with the index
    the hook computed, which is -1 or an index of the gallery, a step to the
    previous (next) image selects the item before (after) the current one
    when the button is enabled and changes nothing when it is disabled. *)
Theorem preview_buttons_match_navigation (items : list value) (previewItem : value) (i : Z) :
  currentPreviewIndex items previewItem = Normal i ->
  (-1 <= i < Z.of_nat (length items))%Z /\
  (if hasPreviousPreview i
   then exists item, items !! Z.to_nat (i - 1) = Some item /\
                     goToPreview items i (-1) previewItem = item
   else goToPreview items i (-1) previewItem = previewItem) /\
  (if hasNextPreview items i
   then exists item, items !! Z.to_nat (i + 1) = Some item /\
                     goToPreview items i 1 previewItem = item
   else goToPreview items i 1 previewItem = previewItem).
Proof.
  intros Hi.
  assert (Hb : (-1 <= i < Z.of_nat (length items))%Z).
  { unfold Preview.currentPreviewIndex in Hi. destruct (negb (ToBoolean previewItem)).
    - injection Hi as <-. lia.
    - apply findIndex_path_bounds in Hi. lia. }
  split; [exact Hb |]. unfold hasPreviousPreview, hasNextPreview, goToPreview. split.
  - destruct (Z.ltb_spec 0 i) as [Hpos | Hnpos].
    + destruct (Z.ltb_spec i 0); [lia |].
      destruct (Z.ltb_spec (i + -1) 0); [lia |].
      destruct (Z.leb_spec (Z.of_nat (length items)) (i + -1)); [lia |]. cbn [orb].
      replace (i + -1)%Z with (i - 1)%Z by lia.
      destruct (lookup_lt_is_Some_2 items (Z.to_nat (i - 1)) ltac:(lia)) as [item Hitem].
      exists item. now rewrite Hitem.
    + destruct (Z.ltb_spec i 0); [reflexivity |].
      destruct (Z.ltb_spec (i + -1) 0); [reflexivity | lia].
  - destruct (Z.leb_spec 0 i) as [Hpos | Hneg]; cbn [andb].
    + destruct (Z.ltb_spec i 0); [lia |].
      destruct (Z.ltb_spec i (Z.of_nat (length items) - 1)) as [Hnext | Hlast].
      * destruct (Z.ltb_spec (i + 1) 0); [lia |].
        destruct (Z.leb_spec (Z.of_nat (length items)) (i + 1)); [lia |]. cbn [orb].
        destruct (lookup_lt_is_Some_2 items (Z.to_nat (i + 1)) ltac:(lia)) as [item Hitem].
        exists item. now rewrite Hitem.
      * destruct (Z.ltb_spec (i + 1) 0); [reflexivity |].
        destruct (Z.leb_spec (Z.of_nat (length items)) (i + 1)); [reflexivity | lia].
    + destruct (Z.ltb_spec i 0); [reflexivity | lia].
Qed.

(** In a gallery whose items have pairwise distinct paths, the first item
    with the path of the item at [j] is that item. *)
Lemma findIndex_path_distinct (items : list value) (paths : list string) (j : nat)
    (path : string) (index : Z) :
  Forall2 (fun item path => get item "path" = Normal (Str path)) items paths ->
  NoDup paths -> paths !! j = Some path ->
  findIndex_path (Str path) items index = Normal (index + Z.of_nat j)%Z.
Proof.
  intros Hitems. revert j index.
  induction Hitems as [| item p items paths Hget Hitems IH]; intros j index Hnd Hj;
    [discriminate |].
  apply NoDup_cons in Hnd as [Hnotin Hnd]. cbn [Preview.findIndex_path].
  rewrite Hget. cbn [bind strict_equal]. destruct j as [| j]; cbn in Hj.
  - injection Hj as ->. rewrite String.eqb_refl. f_equal. lia.
  - destruct (String.eqb_spec p path) as [-> | Hne].
    + exfalso. apply Hnotin. now apply list_elem_of_lookup_2 in Hj.
    + rewrite (IH j (index + 1)%Z Hnd Hj). f_equal. lia.
Qed.

(** X13: In a gallery whose items have pairwise distinct paths, navigation moves
    through the items in their order: the index of the item at [j] is [j],
    a step to the next image from it selects the item at [j + 1], whose
    index is [j + 1], and a step back from there selects the item at [j]
    again. *)
Theorem navigation_steps_in_order (items : list value) (paths : list string) (j : nat)
    (item : value) :
  Forall2 (fun item path => get item "path" = Normal (Str path)) items paths ->
  NoDup paths ->
  items !! j = Some item ->
  currentPreviewIndex items item = Normal (Z.of_nat j) /\
  forall next,
    items !! S j = Some next ->
    goToPreview items (Z.of_nat j) 1 item = next /\
    currentPreviewIndex items next = Normal (Z.of_nat j + 1)%Z /\
    goToPreview items (Z.of_nat j + 1) (-1) next = item.
Proof.
  intros Hitems Hnd Hj.
  assert (Hindex : forall j item, items !! j = Some item ->
            currentPreviewIndex items item = Normal (Z.of_nat j)).
  { clear j item Hj. intros j item Hj.
    destruct (Forall2_lookup_l _ _ _ _ _ Hitems Hj) as (path & Hpath & Hget).
    unfold Preview.currentPreviewIndex, get_opt. rewrite Hget.
    assert (Htruthy : ToBoolean item = true).
    { destruct item; cbn in Hget; try discriminate; reflexivity. }
    rewrite Htruthy. cbn [negb].
    now rewrite (findIndex_path_distinct items paths j path 0 Hitems Hnd Hpath). }
  split; [now apply Hindex |]. intros next Hnext.
  pose proof (lookup_lt_Some _ _ _ Hnext) as Hlt.
  unfold goToPreview.
  destruct (Z.ltb_spec (Z.of_nat j) 0); [lia |].
  destruct (Z.ltb_spec (Z.of_nat j + 1) 0); [lia |].
  destruct (Z.leb_spec (Z.of_nat (length items)) (Z.of_nat j + 1)); [lia |].
  destruct (Z.ltb_spec (Z.of_nat j + 1 + -1) 0); [lia |].
  destruct (Z.leb_spec (Z.of_nat (length items)) (Z.of_nat j + 1 + -1)); [lia |].
  cbn [orb].
  replace (Z.to_nat (Z.of_nat j + 1)) with (S j) by lia.
  replace (Z.to_nat (Z.of_nat j + 1 + -1)) with j by lia.
  rewrite Hnext, Hj. cbn. repeat split.
  replace (Z.of_nat j + 1)%Z with (Z.of_nat (S j)) by lia. now apply Hindex.
Qed.

End PreviewNavigationFacts.

(** ** src/components/GalleryGrid.jsx: the cells of the grid *)

Section GridFacts.
Import Grid.

Lemma columnCount_positive (quotient : Q) : (1 <= columnCount quotient)%Z.
Proof. unfold columnCount. lia. Qed.

(** The rows are the least number of rows of [columnCount] cells that
    hold every item. *)
Lemma rowCount_bounds (items : list value) (columnCount : Z) :
  (1 <= columnCount)%Z ->
  (columnCount * (rowCount items columnCount - 1) < Z.of_nat (length items)
     <= columnCount * rowCount items columnCount)%Z.
Proof.
  intros Hc. unfold rowCount, Qceiling.
  set (n := Z.of_nat (length items)).
  assert (Hq : (- (inject_Z n / inject_Z columnCount) == inject_Z (- n) / inject_Z columnCount)%Q).
  { rewrite inject_Z_opp. unfold Qdiv. ring. }
  rewrite (Qfloor_comp _ _ Hq), <- Zdiv_Qdiv.
  pose proof (Z.div_mod (- n) columnCount ltac:(lia)) as Hdm.
  pose proof (Z.mod_pos_bound (- n) columnCount ltac:(lia)) as Hm.
  nia.
Qed.

(** X14: The grid shows every item of the gallery in exactly one cell; a cell
    that renders nothing is in the last row; and every row starts with an
    item, so that no row is empty. *)
Theorem gallery_grid_shows_each_item_once (quotient : Q) (items : list value) :
  (forall i item,
     items !! i = Some item ->
     exists r c,
       (0 <= r < rowCount items (columnCount quotient))%Z /\
       (0 <= c < columnCount quotient)%Z /\
       GalleryCell items (columnCount quotient) r c = Some item /\
       forall r' c',
         (0 <= r')%Z -> (0 <= c' < columnCount quotient)%Z ->
         (r' * columnCount quotient + c')%Z = Z.of_nat i -> r' = r /\ c' = c) /\
  (forall r c,
     (0 <= r < rowCount items (columnCount quotient))%Z ->
     (0 <= c < columnCount quotient)%Z ->
     GalleryCell items (columnCount quotient) r c = None ->
     r = (rowCount items (columnCount quotient) - 1)%Z) /\
  (forall r,
     (0 <= r < rowCount items (columnCount quotient))%Z ->
     exists item, GalleryCell items (columnCount quotient) r 0 = Some item).
Proof.
  pose proof (columnCount_positive quotient) as Hc.
  pose proof (rowCount_bounds items _ Hc) as Hr.
  set (cols := columnCount quotient) in *. set (rows := rowCount items cols) in *.
  split; [| split].
  - intros i item Hi. pose proof (lookup_lt_Some _ _ _ Hi) as Hlt.
    pose proof (Z.div_mod (Z.of_nat i) cols ltac:(lia)) as Hdm.
    pose proof (Z.mod_pos_bound (Z.of_nat i) cols ltac:(lia)) as Hm.
    exists (Z.of_nat i / cols)%Z, (Z.of_nat i mod cols)%Z.
    assert (Hindex : (Z.of_nat i / cols * cols + Z.of_nat i mod cols)%Z = Z.of_nat i) by lia.
    split; [| split; [| split]].
    + split; [apply Z.div_pos; lia |]. apply Z.div_lt_upper_bound; lia.
    + exact Hm.
    + unfold GalleryCell. rewrite Hindex.
      destruct (Z.leb_spec (Z.of_nat (length items)) (Z.of_nat i)); [lia |].
      now rewrite Nat2Z.id, Hi.
    + intros r' c' Hr' Hc' Heq.
      assert (r' = (Z.of_nat i / cols)%Z) as ->.
      { apply (Z.div_unique_pos _ _ _ c'); lia. }
      split; [reflexivity | lia].
  - intros r c Hrr Hcc. unfold GalleryCell.
    destruct (Z.leb_spec (Z.of_nat (length items)) (r * cols + c)); [| discriminate].
    intros _. nia.
  - intros r Hrr. unfold GalleryCell.
    destruct (Z.leb_spec (Z.of_nat (length items)) (r * cols + 0)); [nia |]. eauto.
Qed.

End GridFacts.

(** ** Closed examples of the hooks *)

Section HookExamples.
Import Decimal Scenario.

(** The size 250 was stored after the slider was at 50 and then at 250. *)
Lemma thumbnail_size_restored_witness :
  ThumbnailSize.mount
    (ThumbnailSize.stored (ThumbnailSize.after (Str "9999") [Str "50"; Num (Fin 250%Q)]))
  = ThumbnailSize.after (Str "9999") [Str "50"; Num (Fin 250%Q)].
Proof.
  apply (thumbnail_size_restored (Str "9999") [Str "50"; Num (Fin 250%Q)] 250);
    vm_compute; reflexivity.
Defined.

(** The folder /photos is dropped on the window. *)
Lemma hook_folder_of_latest_scan_witness :
  last (Hook.scans (Hook.run true (Hook.start true) [Hook.Drop (Arr [Str "/photos"]) 1000]))
    = Some (1, Str "/photos")
  /\ 1 = UseGallery.loadRunIdRef
           (Hook.gallery
              (Hook.hook
                 (Hook.run true (Hook.start true) [Hook.Drop (Arr [Str "/photos"]) 1000])))
  /\ Str "/photos"
     = Hook.selectedFolder
         (Hook.hook (Hook.run true (Hook.start true) [Hook.Drop (Arr [Str "/photos"]) 1000])).
Proof.
  assert (Hlast : last (Hook.scans (Hook.run true (Hook.start true)
                                      [Hook.Drop (Arr [Str "/photos"]) 1000]))
                  = Some (1, Str "/photos")) by (vm_compute; reflexivity).
  split; [exact Hlast |].
  apply (hook_folder_of_latest_scan true [Hook.Drop (Arr [Str "/photos"]) 1000]
           1 (Str "/photos")); [repeat constructor | exact Hlast].
Defined.

(** The app is started on /photos, then /other is dropped, and the scan of
    /photos returns: the hook is loading, for the scan of /other. *)
Lemma hook_loading_while_in_flight_witness :
  Forall Hook.initial_folder_converts started_then_dropped
  /\ UseGallery.loading
       (Hook.gallery (Hook.hook (Hook.run true (Hook.start true) started_then_dropped)))
     = true
  /\ Hook.inflight (Hook.run true (Hook.start true) started_then_dropped) = [2]
  /\ Hook.cancels
       (Hook.step true (Hook.run true (Hook.start true) started_then_dropped) Hook.Stop)
     = 1.
Proof.
  assert (Hevs : Forall Hook.initial_folder_converts started_then_dropped)
    by (repeat constructor).
  destruct (hook_loading_while_in_flight true started_then_dropped Hevs) as [Hl Hstop].
  split; [exact Hevs |]. split; [| split].
  - apply Hl. vm_compute. repeat constructor.
  - reflexivity.
  - rewrite Hstop. reflexivity.
Defined.

(** An initial folder that has no conversion to a string: the call of
    [loadGallery] ends at the status, the hook loads for a run that no
    scan belongs to, and nothing is in flight that would end the
    loading. *)
Example unconvertible_initial_folder_stuck :
  UseGallery.loading
    (Hook.gallery
       (Hook.hook (Hook.run true (Hook.start true)
                             [Hook.InitialFolder (Resolved unconvertible)])))
  = true
  /\ UseGallery.loadRunIdRef
       (Hook.gallery
          (Hook.hook (Hook.run true (Hook.start true)
                                [Hook.InitialFolder (Resolved unconvertible)])))
     = 1
  /\ Hook.inflight (Hook.run true (Hook.start true)
                              [Hook.InitialFolder (Resolved unconvertible)]) = []
  /\ Hook.scans (Hook.run true (Hook.start true)
                           [Hook.InitialFolder (Resolved unconvertible)]) = [].
Proof. repeat split. Qed.

(** The folder /photos is dropped, and again 200 ms later with a second
    path; then nothing is dropped. *)
Lemma folder_drop_once_witness :
  Hook.handleFolderDrop true
    (Obj [("paths", Arr [Str "/photos"; Str "/photos/a.jpg"])]) 1200
    (Hook.handleFolderDrop true (Arr [Str "/photos"]) 1000 Hook.initial).1
  = ((Hook.handleFolderDrop true (Arr [Str "/photos"]) 1000 Hook.initial).1, None)
  /\ Hook.handleFolderDrop true (Arr []) 1000 Hook.initial = (Hook.initial, None).
Proof.
  destruct (folder_drop_once (Arr [Str "/photos"])
              (Obj [("paths", Arr [Str "/photos"; Str "/photos/a.jpg"])]) (Arr [])
              "/photos" [] ["/photos/a.jpg"] 1000 1200 Hook.initial)
    as (_ & Hagain & Hnone).
  - reflexivity.
  - reflexivity.
  - reflexivity.
  - left. discriminate.
  - lia.
  - split; [exact Hagain | exact Hnone].
Defined.

(** The scan of /photos is stopped and then returns what it had listed. *)
Lemma stop_keeps_run_current_witness :
  UseGallery.loadGallery_settled 1 (Resolved scan_stopped)
    (Hook.stopGalleryScan_settled (Resolved Null)
       (UseGallery.hook (UseGallery.run true UseGallery.start [UseGallery.Call (Str "/photos")])))
  = UseGallery.loadGallery_settled 1 (Resolved scan_stopped)
      (UseGallery.hook (UseGallery.run true UseGallery.start [UseGallery.Call (Str "/photos")])).
Proof.
  destruct (stop_keeps_run_current 1 Null (Resolved scan_stopped) (Resolved Null)
              (UseGallery.hook
                 (UseGallery.run true UseGallery.start [UseGallery.Call (Str "/photos")])))
    as (Hsame & _).
  - reflexivity.
  - exact Hsame.
Defined.

(** The preview of a.jpg is opened and then the one of b.png: the probe and
    the load of a.jpg end without a trace. *)
Lemma superseded_preview_silent_witness :
  Preview.shown
    (Preview.step asset true
       (Preview.run asset true Preview.start [Preview.Changed a_jpg; Preview.Changed b_png])
       (Preview.ProbeSettled 0 true))
  = Preview.shown
      (Preview.run asset true Preview.start [Preview.Changed a_jpg; Preview.Changed b_png])
  /\ Preview.shown
       (Preview.step asset true
          (Preview.run asset true Preview.start [Preview.Changed a_jpg; Preview.Changed b_png])
          (Preview.FullImageSettled 0 (Resolved (Str "data:image/jpeg;base64,QQ=="))))
     = Preview.shown
         (Preview.run asset true Preview.start [Preview.Changed a_jpg; Preview.Changed b_png]).
Proof.
  apply (superseded_preview_silent asset true [Preview.Changed a_jpg] [] b_png 0 true
           (Resolved (Str "data:image/jpeg;base64,QQ=="))).
  vm_compute. lia.
Defined.

(** The preview of b.png, the second of three photos. *)
Lemma preview_buttons_match_navigation_witness :
  (-1 <= 1 < Z.of_nat (length photos))%Z
  /\ (if Preview.hasPreviousPreview 1
      then exists item, photos !! Z.to_nat (1 - 1) = Some item
                        /\ Preview.goToPreview photos 1 (-1) b_png = item
      else Preview.goToPreview photos 1 (-1) b_png = b_png)
  /\ (if Preview.hasNextPreview photos 1
      then exists item, photos !! Z.to_nat (1 + 1) = Some item
                        /\ Preview.goToPreview photos 1 1 b_png = item
      else Preview.goToPreview photos 1 1 b_png = b_png).
Proof.
  apply (preview_buttons_match_navigation distinct_objects photos b_png 1).
  reflexivity.
Defined.

(** From a.jpg to b.png and back. *)
Lemma navigation_steps_in_order_witness :
  Preview.currentPreviewIndex distinct_objects photos a_jpg = Normal (Z.of_nat 0)
  /\ forall next,
       photos !! 1 = Some next ->
       Preview.goToPreview photos (Z.of_nat 0) 1 a_jpg = next
       /\ Preview.currentPreviewIndex distinct_objects photos next = Normal (Z.of_nat 0 + 1)%Z
       /\ Preview.goToPreview photos (Z.of_nat 0 + 1) (-1) next = a_jpg.
Proof.
  apply (navigation_steps_in_order distinct_objects photos
           ["/photos/a.jpg"; "/photos/b.png"; "/photos/c.gif"] 0 a_jpg).
  - repeat constructor.
  - compute_done.
  - reflexivity.
Defined.

End HookExamples.
